(** * space_crawl4ai: the crawl orchestration engine and the text chunker

    A shallow embedding of the services of the dashboard
    ([services/crawl4ai.ts], [services/supabase.ts] and the embeddings
    service) and the properties of their specification.

    Conventions.
    - A JavaScript string is the list of its UTF-16 code units.
    - A JavaScript number that only ever holds an integer is a [Z]; the
      components of an embedding vector are IEEE binary64 numbers
      ([PrimFloat.float]).
    - An asynchronous method is a computation in the monad [M] below: it
      threads the state of the outside world (remote replies, the table,
      the journal of what was done) and either returns or throws. *)

From Stdlib Require Import List ZArith NArith Lia Bool String Ascii.
From Stdlib Require Import Numbers.DecimalString.
From Stdlib Require Import Sorting.Sorted Sorting.Permutation.
From Stdlib Require Import Floats.PrimFloat Numbers.Cyclic.Int63.Uint63.
Import ListNotations.

Set Implicit Arguments.
Local Open Scope Z_scope.
Local Open Scope list_scope.

(* ================================================================== *)
(** * JavaScript strings *)
(* ================================================================== *)

Module JsString.

(** A UTF-16 code unit. *)
Definition char := N.
Definition jsstring := list char.

(** An ASCII literal as a JavaScript string. *)
Definition js (s : string) : jsstring :=
  List.map N_of_ascii (list_ascii_of_string s).

Definition LF : char := 10%N.
Definition SPACE : char := 32%N.

Definition char_eqb (a b : char) : bool := N.eqb a b.

Fixpoint jseqb (a b : jsstring) : bool :=
  match a, b with
  | [], [] => true
  | x :: a', y :: b' => char_eqb x y && jseqb a' b'
  | _, _ => false
  end.

(** [if (s)] on a string: the empty string is the only falsy one. *)
Definition truthy (s : jsstring) : bool :=
  match s with [] => false | _ :: _ => true end.

(** [a || b] on strings. *)
Definition or_else (a b : jsstring) : jsstring :=
  if truthy a then a else b.

(** The class [\s] of the regular expressions, which is also what
    [trim] removes: WhiteSpace and LineTerminator of ECMAScript. *)
Definition is_ws (c : char) : bool :=
  ((9 <=? c) && (c <=? 13) || (c =? 32) || (c =? 160) || (c =? 5760)
   || (8192 <=? c) && (c <=? 8202) || (c =? 8232) || (c =? 8233)
   || (c =? 8239) || (c =? 8287) || (c =? 12288) || (c =? 65279))%N.

(** The punctuation class of [estimateTokens]: full stop, comma,
    semicolon, colon, exclamation and question marks, the three pairs of
    brackets, both quotes and the hyphen, by code unit. *)
Definition punctuation_chars : list char :=
  [46; 44; 59; 58; 33; 63; 40; 41; 91; 93; 123; 125; 34; 39; 45]%N.

Definition is_punct (c : char) : bool :=
  existsb (char_eqb c) punctuation_chars.

(** The class [[.!?]]. *)
Definition is_terminator (c : char) : bool :=
  ((c =? 46) || (c =? 33) || (c =? 63))%N.

(** [(text.match(/[class]/g) || []).length] *)
Definition count_class (p : char -> bool) (s : jsstring) : Z :=
  Z.of_nat (List.length (List.filter p s)).

(** Add a code unit to the first piece of a split. *)
Definition cons_head (c : char) (pieces : list jsstring) : list jsstring :=
  match pieces with
  | piece :: rest => (c :: piece) :: rest
  | [] => [[c]]
  end.

(** [s.split(/[class]+/)]: the pieces between the maximal runs of
    code units of the class. [in_run] tells that the code unit before
    [s] was in the class. The empty string gives one empty piece; a run
    at either end gives an empty piece there. *)
Fixpoint split_runs (p : char -> bool) (in_run : bool) (s : jsstring)
  : list jsstring :=
  match s with
  | [] => [[]]
  | c :: s' =>
      if p c then
        if in_run then split_runs p true s'
        else [] :: split_runs p true s'
      else cons_head c (split_runs p false s')
  end.

Definition split_regex_plus (p : char -> bool) (s : jsstring) :=
  split_runs p false s.

(** [s.split(c)] for a separator of one code unit. *)
Fixpoint split_char (sep : char) (s : jsstring) : list jsstring :=
  match s with
  | [] => [[]]
  | c :: s' =>
      if char_eqb c sep then [] :: split_char sep s'
      else cons_head c (split_char sep s')
  end.

(** [s.split('\n\n')]: the leftmost occurrences, not overlapping. *)
Fixpoint split_blank_line (s : jsstring) : list jsstring :=
  match s with
  | [] => [[]]
  | c :: s' =>
      match s' with
      | d :: s'' =>
          if char_eqb c LF && char_eqb d LF
          then [] :: split_blank_line s''
          else cons_head c (split_blank_line s')
      | [] => cons_head c (split_blank_line s')
      end
  end.

Fixpoint trimStart (s : jsstring) : jsstring :=
  match s with
  | c :: s' => if is_ws c then trimStart s' else s
  | [] => []
  end.

Definition trimEnd (s : jsstring) : jsstring :=
  rev (trimStart (rev s)).

Definition trim (s : jsstring) : jsstring := trimEnd (trimStart s).

(** [s.substring(0, n)] *)
Definition substring0 (n : Z) (s : jsstring) : jsstring :=
  firstn (Z.to_nat n) s.

(** [parts.join(sep)] *)
Fixpoint join (sep : jsstring) (parts : list jsstring) : jsstring :=
  match parts with
  | [] => []
  | [x] => x
  | x :: rest => x ++ sep ++ join sep rest
  end.

Fixpoint startsWith (pre s : jsstring) : bool :=
  match pre, s with
  | [], _ => true
  | x :: pre', y :: s' => char_eqb x y && startsWith pre' s'
  | _ :: _, [] => false
  end.

Definition endsWith (s suf : jsstring) : bool :=
  startsWith (rev suf) (rev s).

(** [s.includes(sub)] *)
Fixpoint includes (s sub : jsstring) : bool :=
  startsWith sub s ||
  match s with
  | [] => false
  | _ :: s' => includes s' sub
  end.

(** Lower case of the ASCII letters; every string it is applied to here
    is a serialised URL path, which is ASCII. *)
Definition lower_char (c : char) : char :=
  if ((65 <=? c) && (c <=? 90))%N then (c + 32)%N else c.

Definition toLowerCase (s : jsstring) : jsstring := List.map lower_char s.

(** A match of an ASCII pattern under the flag [i]: a code unit beyond
    ASCII never matches an ASCII one, so folding the ASCII letters of
    the subject is enough. *)
Definition includes_ci (s sub : jsstring) : bool :=
  includes (toLowerCase s) (toLowerCase sub).

Definition endsWith_ci (s suf : jsstring) : bool :=
  endsWith (toLowerCase s) (toLowerCase suf).

(** An integer in a template literal. *)
Definition show_Z (z : Z) : jsstring :=
  js (NilZero.string_of_int (Z.to_int z)).

End JsString.
Import JsString.

(* ================================================================== *)
(** * The platform's URL objects *)
(* ================================================================== *)

Module Url.

(** What the code reads of a [URL] object. *)
Record URL := mkURL { hostname : jsstring; pathname : jsstring }.

(** The code units of [s] up to the first one that satisfies [stop], and
    the rest. *)
Fixpoint span_until (stop : char -> bool) (s : jsstring)
  : jsstring * jsstring :=
  match s with
  | [] => ([], [])
  | c :: s' =>
      if stop c then ([], s)
      else let (a, b) := span_until stop s' in (c :: a, b)
  end.

Definition is_host_end (c : char) : bool :=
  ((c =? 47) || (c =? 63) || (c =? 35) || (c =? 58))%N.

Definition is_path_end (c : char) : bool :=
  ((c =? 63) || (c =? 35))%N.

Definition after_scheme (s : jsstring) : option jsstring :=
  if startsWith (js "https://") s then Some (skipn 8 s)
  else if startsWith (js "http://") s then Some (skipn 7 s)
  else None.

(** A URL parser for the plain addresses of the examples:
    [http(s)://host[:port][/path][?query][#fragment]] over ASCII, with
    no escapes and no dot segments. On these it returns the host name
    and the path that [new URL] returns. The properties below are
    proved for every parser; this one only serves the concrete runs. *)
Definition simple_parse (s : jsstring) : option URL :=
  match after_scheme s with
  | None => None
  | Some rest =>
      let (host, rest1) := span_until is_host_end rest in
      let (_, rest2) := span_until (fun c => (c =? 47) || is_path_end c)%N
                                   rest1 in
      let (path, _) := span_until is_path_end rest2 in
      if truthy host
      then Some (mkURL (toLowerCase host)
                       (if truthy path then path else js "/"))
      else None
  end.

(** An address of the site of the examples. *)
Definition site (path : string) : jsstring := js "https://e.com" ++ js path.

End Url.
Import Url.

(* ================================================================== *)
(** * Exceptions, the outside world and the monad of the methods *)
(* ================================================================== *)

Module Effects.

(** A thrown value: an [Error] with its message, or anything else. *)
Inductive exn := Error (message : jsstring) | NonError.

(** [error instanceof Error ? error.message : fallback] *)
Definition message_of (fallback : jsstring) (e : exn) : jsstring :=
  match e with Error m => m | NonError => fallback end.

Inductive outcome (A : Type) := Return (a : A) | Throw (e : exn).
Arguments Return {A} a.
Arguments Throw {A} e.

(** A computation over a state [S] that returns or throws. *)
Definition M (S A : Type) := S -> outcome A * S.

Definition ret {S A} (a : A) : M S A := fun s => (Return a, s).

Definition throw {S A} (e : exn) : M S A := fun s => (Throw e, s).

Definition bind {S A B} (m : M S A) (k : A -> M S B) : M S B :=
  fun s =>
    match m s with
    | (Return a, s') => k a s'
    | (Throw e, s') => (Throw e, s')
    end.

(** [try { m } catch (e) { h e }]: what [m] did to the state before it
    threw stays done. *)
Definition try_catch {S A} (m : M S A) (h : exn -> M S A) : M S A :=
  fun s =>
    match m s with
    | (Return a, s') => (Return a, s')
    | (Throw e, s') => h e s'
    end.

Definition get {S} : M S S := fun s => (Return s, s).
Definition modify {S} (f : S -> S) : M S unit := fun s => (Return tt, f s).

(** Run a computation on the world inside a state that also holds the
    local variables of a method. *)
Definition on_world {W L A} (m : M W A) : M (W * L) A :=
  fun s =>
    let (r, w') := m (fst s) in (r, (w', snd s)).

Definition on_locals {W L A} (m : M L A) : M (W * L) A :=
  fun s =>
    let (r, l') := m (snd s) in (r, (fst s, l')).

(** Run a method with fresh local variables and forget them at the end. *)
Definition with_locals {W L A} (l0 : L) (m : M (W * L) A) : M W A :=
  fun w =>
    let (r, s') := m (w, l0) in (r, fst s').

Declare Scope monad_scope.
Delimit Scope monad_scope with monad.

Notation "x <- m ;; k" := (bind m (fun x => k))
  (at level 61, m at next level, right associativity) : monad_scope.
Notation "m ;;; k" := (bind m (fun _ => k))
  (at level 61, right associativity) : monad_scope.

Local Open Scope monad_scope.

(** [for (const x of l) { f x }] *)
Fixpoint for_each {S A} (l : list A) (f : A -> M S unit) : M S unit :=
  match l with
  | [] => ret tt
  | x :: l' => f x ;;; for_each l' f
  end.

(** A loop that carries a value from one element to the next. *)
Fixpoint fold_each {S A B} (l : list A) (b : B) (f : B -> A -> M S B)
  : M S B :=
  match l with
  | [] => ret b
  | x :: l' => b' <- f b x ;; fold_each l' b' f
  end.

End Effects.
Import Effects.

(* ================================================================== *)
(** * The data of the services *)
(* ================================================================== *)

Module Data.

(** An embedding vector: [number[]]. *)
Definition vector := list float.

(** A field typed [any] that holds a string in every documented reply
    but an object in some: a string or an object. *)
Inductive value := VStr (s : jsstring) | VObj.

(** [if (v)]: an object is truthy. *)
Definition value_truthy (v : value) : bool :=
  match v with VStr s => truthy s | VObj => true end.

(** [a || b] *)
Definition value_or (a b : value) : value :=
  if value_truthy a then a else b.

(** [String(v)] *)
Definition value_to_string (v : value) : jsstring :=
  match v with VStr s => s | VObj => js "[object Object]" end.

(** The [markdown] field of a crawled page: absent, a string, or an
    object with the two variants (an absent variant is the empty
    string, which is as falsy). *)
Inductive Markdown :=
| MdAbsent
| MdString (s : jsstring)
| MdObject (raw_markdown fit_markdown : jsstring).

(** An entry of [links.internal]: a string or an object with [href]. *)
Inductive Link := LinkStr (s : jsstring) | LinkObj (href : jsstring).

(** The [links] field: absent, the object of the backend, or the array
    of a [CrawlResult]. *)
Inductive Links :=
| LinksAbsent
| LinksObject (internal : list Link)
| LinksArray (items : list Link).

(** The entries of [metadata] that the code reads. [title = None] is a
    metadata object without the entry; [Some []] is an entry that holds
    the empty string, which a spread of the object copies like any other.
    Of the entries that [saveCrawlResultAsDocument] writes into the
    metadata of a row itself ([title], [crawl_id], [crawl_status],
    [links_found], [crawled_at], [completed_at], [source]), a metadata
    object of the model holds the title at most. *)
Record Metadata := mkMetadata
  { title : option jsstring;
    page_index : option Z;
    crawled_urls : option (list jsstring) }.

Definition no_metadata : Metadata := mkMetadata None None None.

(** [metadata?.title || fallback] *)
Definition title_or (m : Metadata) (fallback : jsstring) : jsstring :=
  match title m with
  | Some s => or_else s fallback
  | None => fallback
  end.

(** A page as the backend returns it ([result: any]). *)
Record PageResult := mkPageResult
  { pr_url : jsstring;
    pr_success : bool;
    pr_id : jsstring;
    pr_markdown : Markdown;
    pr_cleaned_html : jsstring;
    pr_html : jsstring;
    pr_extracted_content : jsstring;
    pr_content : value;
    pr_links : Links;
    pr_metadata : Metadata;
    pr_error_message : jsstring }.

Inductive Status := pending | crawling | completed | failed.

(** [CrawlResult] of [types/index.ts]. The random identifier is the
    empty string where the code draws one and the two time stamps are
    left out: no property below reads them. *)
Record CrawlResult := mkCrawlResult
  { cr_id : jsstring;
    cr_url : jsstring;
    cr_status : Status;
    cr_content : value;
    cr_markdown : value;
    cr_rawMarkdown : value;
    cr_fitMarkdown : jsstring;
    cr_links : Links;
    cr_metadata : Metadata;
    cr_error : option jsstring }.

(** The failed result that the error paths build. *)
Definition failed_result (url : jsstring) (error : jsstring) : CrawlResult :=
  mkCrawlResult [] url failed (VStr []) (VStr []) (VStr []) []
                LinksAbsent no_metadata (Some error).

(** A row of [crawled_pages]; [doc_embedding = None] is a document
    without the [embedding] field. *)
Record Document := mkDocument
  { doc_url : jsstring;
    doc_chunk_number : Z;
    doc_content : value;
    doc_title : jsstring;
    doc_links_found : Z;
    doc_embedding : option vector }.

(** [response.data] of the backend: the fields of a page at top level
    and, for a multi-page reply, [results]; a null entry of [results] is
    [None]. For a task: [status], [state] and [error]. *)
Record ResponseData := mkResponseData
  { rd_page : PageResult;
    rd_task_id : jsstring;
    rd_results : option (list (option PageResult));
    rd_status : jsstring;
    rd_state : jsstring;
    rd_error : jsstring }.

(** What an HTTP call to the backend gives. *)
Inductive HttpReply := HttpData (d : ResponseData) | HttpFails (e : exn).

(** What [upsert(...).select().single()] resolves to: the row, an error,
    or neither. The row that the table hands back is the document that
    it was sent, so [DbData] carries nothing. *)
Inductive DbReply :=
| DbData
| DbError (e : exn)
| DbNothing.

Inductive SleepReason := PollWait | RetryBackoff | CoolOff | BatchDelay.

(** The events of the service. *)
Inductive CrawlEvent :=
| batch_info (totalUrls totalBatches batchSize : Z)
| batch_start (batchNumber totalBatches : Z) (urls : list jsstring)
| url_crawled (url : jsstring)
| url_failed (url error : jsstring)
| url_skipped (url reason : jsstring)
| urls_discovered (total internal : Z)
| discovery_error (error : jsstring)
| status_update (status : jsstring)
| crawl_complete (totalUrls successfulUrls totalBatches : Z).

(** What a run did, in order. *)
Inductive Action :=
| Post (urls : list jsstring)
| Get (taskId : jsstring)
| Embed (input : jsstring)
| Upsert (doc : Document)
| Sleep (why : SleepReason) (ms : Z)
| Emit (e : CrawlEvent).

(** [import.meta.env], after [parseInt] and the defaults. A variable that
    does not parse as a number (NaN) is outside the model. *)
Record Config := mkConfig
  { openai_configured : bool;
    max_pages : Z;
    batch_size : Z;
    cool_off_delay : Z;
    max_retries : Z }.

Definition default_config : Config := mkConfig true 5000 50 5000 3.

(** The outside world: what the remote services will answer to the next
    calls (a call past the end of a script is a network error), the
    value of the abort flag at its next reads, the table, and the
    journal of the actions so far. *)
Record World := mkWorld
  { config : Config;
    post_replies : list HttpReply;
    get_replies : list HttpReply;
    embed_replies : list (outcome vector);
    db_replies : list DbReply;
    abort_reads : list bool;
    table : list Document;
    journal : list Action }.

Definition network_error : exn := Error (js "Network Error").

Definition log (a : Action) (w : World) : World :=
  mkWorld (config w) (post_replies w) (get_replies w) (embed_replies w)
          (db_replies w) (abort_reads w) (table w) (journal w ++ [a]).

Local Open Scope monad_scope.

(** [this.emit(event, data)]: the event goes to the journal; the
    listeners, which belong to the caller, are outside the model. *)
Definition emit (e : CrawlEvent) : M World unit := modify (log (Emit e)).

(** [await new Promise(resolve => setTimeout(resolve, ms))] *)
Definition sleep (why : SleepReason) (ms : Z) : M World unit :=
  modify (log (Sleep why ms)).

(** [this.client.post('/crawl', { urls, ... })] *)
Definition http_post (urls : list jsstring) : M World ResponseData :=
  fun w =>
    let w1 := log (Post urls) w in
    match post_replies w1 with
    | HttpData d :: rest =>
        (Return d, mkWorld (config w1) rest (get_replies w1)
                           (embed_replies w1) (db_replies w1)
                           (abort_reads w1) (table w1) (journal w1))
    | HttpFails e :: rest =>
        (Throw e, mkWorld (config w1) rest (get_replies w1)
                          (embed_replies w1) (db_replies w1)
                          (abort_reads w1) (table w1) (journal w1))
    | [] => (Throw network_error, w1)
    end.

(** [this.client.get(`/task/${taskId}`)] *)
Definition http_get (taskId : jsstring) : M World ResponseData :=
  fun w =>
    let w1 := log (Get taskId) w in
    match get_replies w1 with
    | HttpData d :: rest =>
        (Return d, mkWorld (config w1) (post_replies w1) rest
                           (embed_replies w1) (db_replies w1)
                           (abort_reads w1) (table w1) (journal w1))
    | HttpFails e :: rest =>
        (Throw e, mkWorld (config w1) (post_replies w1) rest
                          (embed_replies w1) (db_replies w1)
                          (abort_reads w1) (table w1) (journal w1))
    | [] => (Throw network_error, w1)
    end.

(** [this.client.embeddings.create({ input })], then
    [response.data[0].embedding]. *)
Definition embeddings_create (input : jsstring) : M World vector :=
  fun w =>
    let w1 := log (Embed input) w in
    match embed_replies w1 with
    | r :: rest =>
        (r, mkWorld (config w1) (post_replies w1) (get_replies w1) rest
                    (db_replies w1) (abort_reads w1) (table w1)
                    (journal w1))
    | [] => (Throw network_error, w1)
    end.

Definition same_key (a b : Document) : bool :=
  jseqb (doc_url a) (doc_url b) && (doc_chunk_number a =? doc_chunk_number b).

(** The effect of an accepted upsert with [onConflict: 'url,chunk_number']. *)
Fixpoint upsert_row (d : Document) (rows : list Document) : list Document :=
  match rows with
  | [] => [d]
  | r :: rows' => if same_key r d then d :: rows' else r :: upsert_row d rows'
  end.

(** [supabase.from('crawled_pages').upsert([document], ...).select().single()] *)
Definition db_upsert (d : Document) : M World DbReply :=
  fun w =>
    let w1 := log (Upsert d) w in
    match db_replies w1 with
    | DbData :: rest =>
        (Return DbData,
         mkWorld (config w1) (post_replies w1) (get_replies w1)
                 (embed_replies w1) rest (abort_reads w1)
                 (upsert_row d (table w1)) (journal w1))
    | r :: rest =>
        (Return r,
         mkWorld (config w1) (post_replies w1) (get_replies w1)
                 (embed_replies w1) rest (abort_reads w1) (table w1)
                 (journal w1))
    | [] => (Return (DbError network_error), w1)
    end.

(** [signal?.aborted] *)
Definition read_aborted : M World bool :=
  fun w =>
    match abort_reads w with
    | b :: rest =>
        (Return b, mkWorld (config w) (post_replies w) (get_replies w)
                           (embed_replies w) (db_replies w) rest (table w)
                           (journal w))
    | [] => (Return false, w)
    end.

(** A world with the default configuration in which no service answers:
    every remote call is a network error. *)
Definition offline_world : World :=
  mkWorld default_config [] [] [] [] [] [] [].

(** The upserts of a journal. *)
Definition upserts (j : list Action) : list Document :=
  flat_map (fun a => match a with Upsert d => [d] | _ => [] end) j.

End Data.
Import Data.

(* ================================================================== *)
(** * The embeddings service *)
(* ================================================================== *)

Module Embeddings.

(** [estimateTokens]: words + punctuation + whitespace / 4, rounded up.
    [words] and [punctuation] are integers, so the ceiling only rounds
    the quarter of the whitespace count. *)
Definition estimateTokens (text : jsstring) : Z :=
  let words := Z.of_nat (List.length (split_regex_plus is_ws text)) in
  let punctuation := count_class is_punct text in
  let whitespace := count_class is_ws text in
  words + punctuation + (whitespace + 3) / 4.

(** The two variables of the loops of [chunkText]. *)
Record ChunkState := mkChunkState
  { chunks : list jsstring; currentChunk : jsstring }.

Definition push_current (st : ChunkState) : ChunkState :=
  mkChunkState (chunks st ++ [trim (currentChunk st)]) [].

(** [if (currentChunk) { chunks.push(currentChunk.trim()); currentChunk = ''; }] *)
Definition flush (st : ChunkState) : ChunkState :=
  if truthy (currentChunk st) then push_current st else st.

(** [currentChunk + (currentChunk ? sep : '') + piece] *)
Definition extend (cur sep piece : jsstring) : jsstring :=
  cur ++ (if truthy cur then sep else []) ++ piece.

(** The body of [for (const word of words)]. *)
Definition word_step (maxTokens : Z) (st : ChunkState) (word : jsstring)
  : ChunkState :=
  let testWord := extend (currentChunk st) (js " ") word in
  if estimateTokens testWord <=? maxTokens then
    mkChunkState (chunks st) testWord
  else if truthy (currentChunk st) then
    mkChunkState (chunks st ++ [trim (currentChunk st)]) word
  else
    mkChunkState (chunks st) word.

(** The body of [for (const sentence of sentences)]. *)
Definition sentence_step (maxTokens : Z) (st : ChunkState)
  (sentence : jsstring) : ChunkState :=
  let testSentence := extend (currentChunk st) (js ". ") sentence in
  if estimateTokens testSentence <=? maxTokens then
    mkChunkState (chunks st) testSentence
  else
    let st1 := flush st in
    if maxTokens <? estimateTokens sentence then
      fold_left (word_step maxTokens) (split_char SPACE sentence) st1
    else
      mkChunkState (chunks st1) sentence.

(** The body of [for (const paragraph of paragraphs)]. *)
Definition paragraph_step (maxTokens : Z) (st : ChunkState)
  (paragraph : jsstring) : ChunkState :=
  let testChunk := extend (currentChunk st) [LF; LF] paragraph in
  if estimateTokens testChunk <=? maxTokens then
    mkChunkState (chunks st) testChunk
  else
    let st1 := flush st in
    if maxTokens <? estimateTokens paragraph then
      fold_left (sentence_step maxTokens)
                (split_regex_plus is_terminator paragraph) st1
    else
      mkChunkState (chunks st1) paragraph.

Definition chunkText (text : jsstring) (maxTokens : Z) : list jsstring :=
  if estimateTokens text <=? maxTokens then [text]
  else
    let st := fold_left (paragraph_step maxTokens)
                        (split_blank_line text) (mkChunkState [] []) in
    let chunks' :=
      if truthy (trim (currentChunk st))
      then chunks st ++ [trim (currentChunk st)]
      else chunks st in
    List.filter (fun chunk => (0 <? List.length chunk)%nat) chunks'.

(** The default bound of [chunkText]. *)
Definition default_maxTokens : Z := 4500.

(** The final safety check before a remote call: a text estimated above
    7000 tokens is cut to 6000 * 3 code units. *)
Definition truncate_if_large (text : jsstring) : jsstring :=
  if 7000 <? estimateTokens text then substring0 (6000 * 3) text else text.

(** [for (i < embedding.length) avgEmbedding[i] += embedding[i]]: past
    the end of [avgEmbedding] the sum is [undefined + x], which is NaN,
    and the array grows. *)
Fixpoint add_into (avgEmbedding embedding : vector) : vector :=
  match embedding, avgEmbedding with
  | [], _ => avgEmbedding
  | e :: embedding', a :: avg' => PrimFloat.add a e :: add_into avg' embedding'
  | e :: embedding', [] => PrimFloat.nan :: add_into [] embedding'
  end.

(** The number [n] as a binary64. *)
Definition float_of_nat (n : nat) : float :=
  PrimFloat.of_uint63 (Uint63.of_Z (Z.of_nat n)).

(** The averaging of [generateEmbedding]. *)
Definition average (chunkEmbeddings : list vector) : vector :=
  let avgEmbedding :=
    repeat PrimFloat.zero (List.length (hd [] chunkEmbeddings)) in
  let sums := fold_left add_into chunkEmbeddings avgEmbedding in
  List.map (fun x => PrimFloat.div x (float_of_nat (List.length chunkEmbeddings)))
           sums.

Local Open Scope monad_scope.

(** [isConfigured] *)
Definition isConfigured : M World bool :=
  w <- get ;; ret (openai_configured (config w)).

Definition generateEmbedding (text : jsstring) : M World vector :=
  configured <- isConfigured ;;
  if negb configured then
    throw (Error (js "OpenAI API key not configured. Please add VITE_OPENAI_API_KEY to your .env file."))
  else
    try_catch
      (let chunks := chunkText text default_maxTokens in
       if (1 <? List.length chunks)%nat then
         chunkEmbeddings <-
           fold_each chunks []
             (fun acc chunk =>
                embedding <- embeddings_create (truncate_if_large chunk) ;;
                ret (acc ++ [embedding])) ;;
         ret (average chunkEmbeddings)
       else
         embeddings_create (truncate_if_large text))
      (fun error =>
         throw (Error (js "Embedding generation failed: "
                       ++ message_of (js "Unknown error") error))).

(** ** Notions of the specification *)

(** The text without its whitespace. *)
Definition non_whitespace (s : jsstring) : jsstring :=
  List.filter (fun c => negb (is_ws c)) s.

(** The text without its whitespace and without the sentence
    terminators. *)
Definition content_of (s : jsstring) : jsstring :=
  List.filter (fun c => negb (is_ws c || is_terminator c)) s.

(** A piece that [chunkText] cannot divide: its finest splits are
    [paragraph.split(/[.!?]+/)] and [sentence.split(' ')], so the piece
    holds no sentence terminator and no space (U+0020). It may hold a tab
    or a line feed, at which the chunker never splits. *)
Definition indivisible (s : jsstring) : bool :=
  forallb (fun c => negb (char_eqb c SPACE || is_terminator c)) s.

(** Modelled from the spec: a chunk that consists of a single word. A
    word is what [estimateTokens] counts as one, a piece between runs of
    whitespace ([text.split(/\s+/)]); so a single word holds no
    whitespace at all. *)
Definition single_word (s : jsstring) : bool :=
  forallb (fun c => negb (is_ws c)) s.

(** The [i]-th components of the vectors. *)
Definition column (i : nat) (vs : list vector) : list float :=
  List.map (fun v => nth i v PrimFloat.nan) vs.

(** [0 + x1 + ... + xk], added from the left as the loop does. *)
Definition sum_floats (xs : list float) : float :=
  fold_left PrimFloat.add xs PrimFloat.zero.

End Embeddings.
Import Embeddings.

(* ================================================================== *)
(** * The persistence service *)
(* ================================================================== *)

Module Supabase.
Section WithURL.

(** [new URL(s)] of the platform: [None] when it throws. *)
Variable new_URL : jsstring -> option URL.

Local Open Scope monad_scope.

Definition invalid_url : exn := Error (js "Invalid URL").

(** [fitMarkdown || rawMarkdown || markdown || content || ''] *)
Definition markdownContent (crawlResult : CrawlResult) : value :=
  value_or (VStr (cr_fitMarkdown crawlResult))
    (value_or (cr_rawMarkdown crawlResult)
       (value_or (cr_markdown crawlResult)
          (value_or (cr_content crawlResult) (VStr [])))).

(** [[title || '', markdownContent].filter(Boolean).join('\n\n')] *)
Definition textForEmbedding (crawlResult : CrawlResult) : jsstring :=
  join [LF; LF]
       (List.map value_to_string
          (List.filter value_truthy
             [VStr (title_or (cr_metadata crawlResult) []);
              markdownContent crawlResult])).

(** [metadata?.page_index || 1] *)
Definition chunkNumber (crawlResult : CrawlResult) : Z :=
  match page_index (cr_metadata crawlResult) with
  | Some n => if n =? 0 then 1 else n
  | None => 1
  end.

(** [links?.length || 0] *)
Definition links_found (crawlResult : CrawlResult) : Z :=
  match cr_links crawlResult with
  | LinksArray items => Z.of_nat (List.length items)
  | _ => 0
  end.

Definition substring_not_a_function (field : string) : exn :=
  Error (js "crawlResult." ++ js field ++ js ".substring is not a function").

(** [if (v) { console.log(..., v.substring(0, 300)) }], the sample that
    the method logs of a field: only a string has [substring], so a
    field that holds an object makes the statement throw. *)
Definition log_sample {S} (field : string) (v : value) : M S unit :=
  match v with
  | VStr _ => ret tt
  | VObj => throw (substring_not_a_function field)
  end.

(** [{ title: computed, ..., ...crawlResult.metadata }]: the spread comes
    last, so a title entry of the metadata replaces the computed title,
    also when it holds the empty string. *)
Definition spread_title (m : Metadata) (computed : jsstring) : jsstring :=
  match title m with
  | Some s => s
  | None => computed
  end.

Definition saveCrawlResultAsDocument (crawlResult : CrawlResult)
  : M World Document :=
  try_catch
    (log_sample "content" (cr_content crawlResult) ;;;
     log_sample "markdown" (cr_markdown crawlResult) ;;;
     let text := textForEmbedding crawlResult in
     configured <- isConfigured ;;
     embedding <-
       (if configured && truthy (trim text) then
          try_catch (e <- generateEmbedding text ;; ret (Some e))
                    (fun _ => ret None)
        else ret None) ;;
     let actualContent := value_or (markdownContent crawlResult) (VStr []) in
     computed <-
       (if truthy (title_or (cr_metadata crawlResult) [])
        then ret (title_or (cr_metadata crawlResult) [])
        else match new_URL (cr_url crawlResult) with
             | Some u => ret (hostname u)
             | None => throw invalid_url
             end) ;;
     let document :=
       mkDocument (cr_url crawlResult) (chunkNumber crawlResult)
                  actualContent
                  (spread_title (cr_metadata crawlResult) computed)
                  (links_found crawlResult) embedding in
     insertResult <- db_upsert document ;;
     match insertResult with
     | DbData => ret document
     | DbError e => throw e
     | DbNothing =>
         throw (Error (js "Upsert operation completed but returned no data"))
     end)
    (fun error =>
       throw (Error (js "Failed to save to database: "
                     ++ message_of (js "Unknown error") error))).

End WithURL.
End Supabase.
Import Supabase.

(* ================================================================== *)
(** * The crawl service *)
(* ================================================================== *)

Module Crawl4AI.
Section WithURL.

Variable new_URL : jsstring -> option URL.

Local Open Scope monad_scope.

Definition type_error (what : string) : exn := Error (js what).

(** ** Filtering and prioritising the links *)

Definition skipExtensions : list jsstring :=
  List.map js
    [".pdf"; ".doc"; ".docx"; ".xls"; ".xlsx"; ".ppt"; ".pptx";
     ".zip"; ".rar"; ".tar"; ".gz"; ".exe"; ".dmg"; ".pkg";
     ".jpg"; ".jpeg"; ".png"; ".gif"; ".svg"; ".webp";
     ".mp3"; ".mp4"; ".avi"; ".mov"; ".wav"; ".flv"]%string.

(** [/\/(k1|k2|...)/i.test(url)] *)
Definition slash_keyword (keywords : list string) (url : jsstring) : bool :=
  existsb (fun k => includes_ci url (js "/" ++ js k)) keywords.

(** [skipPatterns.some(pattern => pattern.test(url))] *)
Definition matches_skipPatterns (url : jsstring) : bool :=
  slash_keyword ["login"; "register"; "signup"; "signin"; "auth"]%string url
  || slash_keyword ["cart"; "checkout"; "payment"; "billing"]%string url
  || slash_keyword ["admin"; "wp-admin"]%string url
  || includes url (js "#")
  || existsb (fun e => endsWith_ci url (js e))
             [".css"; ".js"; ".json"; ".txt"; ".xml"]%string.

Inductive Verdict :=
| Accepted
| RejectedInvalid
| RejectedDomain
| RejectedExtension
| RejectedPattern.

(** The callback of [urls.filter]. *)
Definition judge (baseDomain : jsstring) (url : jsstring) : Verdict :=
  match new_URL url with
  | None => RejectedInvalid
  | Some parsedUrl =>
      if negb (jseqb (hostname parsedUrl) baseDomain) then RejectedDomain
      else
        let path := toLowerCase (pathname parsedUrl) in
        if existsb (fun ext => endsWith path ext) skipExtensions
        then RejectedExtension
        else if matches_skipPatterns url then RejectedPattern
        else Accepted
  end.

Definition accepted (baseDomain : jsstring) (url : jsstring) : bool :=
  match judge baseDomain url with Accepted => true | _ => false end.

(** The events of the callback. *)
Definition skip_events (baseDomain : jsstring) (url : jsstring)
  : list CrawlEvent :=
  match judge baseDomain url with
  | RejectedExtension => [url_skipped url (js "file_extension")]
  | RejectedPattern => [url_skipped url (js "low_value_pattern")]
  | _ => []
  end.

(** [pathname.split('/').filter(Boolean).length] *)
Definition pathDepth (u : URL) : Z :=
  Z.of_nat (List.length (List.filter truthy (split_char 47%N (pathname u)))).

Definition importantKeywords : list string :=
  ["docs"; "documentation"; "api"; "guide"; "tutorial"; "blog"; "news";
   "product"]%string.

Definition hasImportantKeywords (url : jsstring) : bool :=
  slash_keyword importantKeywords url.

(** The [priority] of the callback of [map]; [None] when [new URL]
    throws there. *)
Definition priority (url : jsstring) : option Z :=
  match new_URL url with
  | Some parsedUrl =>
      Some (if hasImportantKeywords url then pathDepth parsedUrl - 1
            else pathDepth parsedUrl)
  | None => None
  end.

Fixpoint with_priority (urls : list jsstring)
  : option (list (jsstring * Z)) :=
  match urls with
  | [] => Some []
  | url :: rest =>
      match priority url, with_priority rest with
      | Some p, Some items => Some ((url, p) :: items)
      | _, _ => None
      end
  end.

(** [sort((a, b) => a.priority - b.priority)]. The sort of an array is
    stable, and with this comparator a stable sort has one possible
    result: the one of the insertion below. *)
Fixpoint insert_by_priority (x : jsstring * Z) (l : list (jsstring * Z))
  : list (jsstring * Z) :=
  match l with
  | [] => [x]
  | y :: l' =>
      if snd x <=? snd y then x :: l else y :: insert_by_priority x l'
  end.

Definition sort_by_priority (l : list (jsstring * Z)) : list (jsstring * Z) :=
  fold_right insert_by_priority [] l.

(** [a.slice(0, end)] *)
Definition slice0 {A} (a : list A) (end_ : Z) : list A :=
  let len := Z.of_nat (List.length a) in
  let final := if end_ <? 0 then Z.max (len + end_) 0 else Z.min end_ len in
  firstn (Z.to_nat final) a.

(** The value that [filterAndPrioritizeUrls] returns. *)
Definition prioritized (maxUrls : Z) (urls : list jsstring)
  (baseUrl : jsstring) : outcome (list jsstring) :=
  match new_URL baseUrl with
  | None => Throw Supabase.invalid_url
  | Some urlObj =>
      let baseDomain := hostname urlObj in
      let filtered := List.filter (accepted baseDomain) urls in
      match with_priority filtered with
      | None => Throw Supabase.invalid_url
      | Some items =>
          Return (slice0 (List.map fst (sort_by_priority items)) maxUrls)
      end
  end.

Definition filterAndPrioritizeUrls (urls : list jsstring) (baseUrl : jsstring)
  : M World (list jsstring) :=
  match new_URL baseUrl with
  | None => throw Supabase.invalid_url
  | Some urlObj =>
      for_each urls
        (fun url => for_each (skip_events (hostname urlObj) url) emit) ;;;
      w <- get ;;
      match prioritized (max_pages (config w)) urls baseUrl with
      | Return final => ret final
      | Throw e => throw e
      end
  end.

(** The priority key as the specification words it: the depth of the
    path, less one exactly when the path contains one of its high-value
    keywords. *)
Definition spec_keywords : list string :=
  ["docs"; "api"; "guide"; "tutorial"; "blog"; "product"; "reference"]%string.

Definition spec_priority (url : jsstring) : option Z :=
  match new_URL url with
  | Some parsedUrl =>
      Some (if existsb (fun k => includes (pathname parsedUrl) (js k))
                       spec_keywords
            then pathDepth parsedUrl - 1 else pathDepth parsedUrl)
  | None => None
  end.

(** ** Saving the pages *)

(** [result.markdown?.raw_markdown || result.markdown || ''] *)
Definition rawMarkdown_of (result : PageResult) : value :=
  match pr_markdown result with
  | MdAbsent => VStr []
  | MdString s => VStr s
  | MdObject raw _ => if truthy raw then VStr raw else VObj
  end.

(** [result.markdown?.fit_markdown || ''] *)
Definition fitMarkdown_of (result : PageResult) : jsstring :=
  match pr_markdown result with
  | MdObject _ fit => fit
  | _ => []
  end.

(** [fitMarkdown || rawMarkdown || extractedContent || htmlContent || ''] *)
Definition best_content (result : PageResult) : value :=
  let htmlContent := or_else (pr_cleaned_html result) (pr_html result) in
  value_or (VStr (fitMarkdown_of result))
    (value_or (rawMarkdown_of result)
       (value_or (VStr (pr_extracted_content result))
          (value_or (VStr htmlContent) (VStr [])))).

(** [result.links?.internal || []] *)
Definition internal_links (result : PageResult) : list Link :=
  match pr_links result with
  | LinksObject internal => internal
  | _ => []
  end.

Definition not_a_function : exn := type_error "content.trim is not a function".

(** [content.trim()] as a condition; only a string has [trim]. *)
Definition trimmed_truthy {S} (content : value) : M S bool :=
  match content with
  | VStr s => ret (truthy (trim s))
  | VObj => throw not_a_function
  end.

Definition saveIndividualPage (result : PageResult) : M World unit :=
  try_catch
    (if negb (pr_success result) then ret tt
     else
       let content := best_content result in
       has_content <- trimmed_truthy content ;;
       if has_content then
         let pageResult :=
           mkCrawlResult (pr_id result) (pr_url result) completed content
             (rawMarkdown_of result) (rawMarkdown_of result)
             (fitMarkdown_of result) (LinksArray (internal_links result))
             (pr_metadata result) None in
         saveCrawlResultAsDocument new_URL pageResult ;;; ret tt
       else ret tt)
    (fun _ => ret tt).

Definition saveMultiplePages (results : list PageResult) : M World unit :=
  for_each results saveIndividualPage.

(** [result.links || []] *)
Definition links_or_empty (l : Links) : Links :=
  match l with LinksAbsent => LinksArray [] | _ => l end.

(** The loop of [saveIndividualPages], from index [i]. *)
Fixpoint saveIndividualPages_from (i : Z) (results : list (option PageResult))
  : M World unit :=
  match results with
  | [] => ret tt
  | None :: _ => throw (type_error "Cannot read properties of null")
  | Some result :: rest =>
      (if negb (pr_success result) then ret tt
       else
         let content := best_content result in
         has_content <- trimmed_truthy content ;;
         if has_content then
           let m := pr_metadata result in
           let pageResult :=
             mkCrawlResult (pr_id result) (pr_url result) completed content
               (rawMarkdown_of result) (rawMarkdown_of result)
               (fitMarkdown_of result) (links_or_empty (pr_links result))
               (mkMetadata (title m) (Some (i + 1)) (crawled_urls m)) None in
           try_catch (saveCrawlResultAsDocument new_URL pageResult ;;; ret tt)
                     (fun _ => ret tt)
         else ret tt) ;;;
      saveIndividualPages_from (i + 1) rest
  end.

Definition saveIndividualPages (results : list (option PageResult))
  : M World unit :=
  saveIndividualPages_from 0 results.

(** A call that is not awaited: it is run here to its end, and nobody
    sees its failure. *)
Definition detached {S} (m : M S unit) : M S unit :=
  try_catch m (fun _ => ret tt).

(** ** The replies of the backend *)

Definition processMultipleResults (responseData : ResponseData)
  (results : list (option PageResult)) (originalUrl : jsstring)
  : M World CrawlResult :=
  detached (saveIndividualPages results) ;;;
  ret (mkCrawlResult (rd_task_id responseData) originalUrl completed
         (VStr []) (VStr []) (VStr []) [] (LinksArray []) no_metadata None).

Definition processSingleResult (responseData : ResponseData)
  (originalUrl : jsstring) : CrawlResult :=
  let page := rd_page responseData in
  let content :=
    value_or (VStr (pr_extracted_content page))
      (value_or (rawMarkdown_of page)
         (value_or (VStr (pr_cleaned_html page))
            (value_or (pr_content page) (VStr [])))) in
  let markdown :=
    match pr_markdown page with
    | MdAbsent => VStr []
    | MdString s => VStr s
    | MdObject raw fit =>
        if truthy raw then VStr raw
        else if truthy fit then VStr fit else VObj
    end in
  let m := pr_metadata page in
  mkCrawlResult (or_else (rd_task_id responseData) (pr_id page)) originalUrl
    (if pr_success page then completed else failed)
    content markdown (VStr []) [] (links_or_empty (pr_links page))
    (mkMetadata (Some (title_or m (js "Untitled"))) (page_index m)
                (crawled_urls m))
    None.

Definition processResponse (responseData : ResponseData)
  (originalUrl : jsstring) : M World CrawlResult :=
  match rd_results responseData with
  | Some results => processMultipleResults responseData results originalUrl
  | None => ret (processSingleResult responseData originalUrl)
  end.

(** ** Polling a task *)

Definition is_completed (result : ResponseData) : bool :=
  jseqb (rd_status result) (js "completed")
  || jseqb (rd_state result) (js "completed").

Definition is_failed (result : ResponseData) : bool :=
  jseqb (rd_status result) (js "failed")
  || jseqb (rd_state result) (js "failed").

Definition task_failed (result : ResponseData) : exn :=
  Error (js "Task failed: " ++ or_else (rd_error result) (js "Unknown error")).

Definition polling_failed (maxAttempts : Z) : exn :=
  Error (js "Polling failed after " ++ show_Z maxAttempts ++ js " attempts").

Definition polling_timed_out : exn := Error (js "Polling timed out").

(** The loop of [pollForResults] from [attempt] on; [fuel] is the
    number of values of [attempt] that are left up to [maxAttempts].
    [Some r] is [return r] inside the loop. *)
Fixpoint poll_loop (fuel : nat) (attempt maxAttempts : Z)
  (taskId originalUrl : jsstring) : M World CrawlResult :=
  match fuel with
  | O => throw polling_timed_out
  | S fuel' =>
      returned <-
        try_catch
          (result <- http_get taskId ;;
           if is_completed result then
             r <- processResponse result originalUrl ;; ret (Some r)
           else if is_failed result then throw (task_failed result)
           else sleep PollWait 2000 ;;; ret None)
          (fun error =>
             if attempt =? maxAttempts then throw (polling_failed maxAttempts)
             else sleep PollWait 2000 ;;; ret None) ;;
      match returned with
      | Some r => ret r
      | None => poll_loop fuel' (attempt + 1) maxAttempts taskId originalUrl
      end
  end.

Definition pollForResults (taskId originalUrl : jsstring) (maxAttempts : Z)
  : M World CrawlResult :=
  poll_loop (Z.to_nat maxAttempts) 1 maxAttempts taskId originalUrl.

Definition default_maxAttempts : Z := 15.

(** ** The aggregated result *)

Definition link_eqb (a b : Link) : bool :=
  match a, b with
  | LinkStr x, LinkStr y => jseqb x y
  | _, _ => false
  end.

(** [new Set(items)], in insertion order: equal strings are one
    element, two objects never are. *)
Fixpoint set_add_all (items : list Link) (set : list Link) : list Link :=
  match items with
  | [] => set
  | x :: rest =>
      set_add_all rest (if existsb (link_eqb x) set then set else set ++ [x])
  end.

Definition aggregate_separator : jsstring :=
  [LF; LF] ++ js "---" ++ [LF; LF].

Definition forEach_not_a_function : exn :=
  type_error "r.links.forEach is not a function".

(** The loop that gathers the links: only an array has [forEach]. *)
Fixpoint gather_links (results : list PageResult) (allLinks : list Link)
  : outcome (list Link) :=
  match results with
  | [] => Return allLinks
  | r :: rest =>
      match pr_links r with
      | LinksAbsent => gather_links rest allLinks
      | LinksArray items => gather_links rest (set_add_all items allLinks)
      | LinksObject _ => Throw forEach_not_a_function
      end
  end.

Definition createAggregatedResult (results : list PageResult)
  (originalUrl : jsstring) : outcome CrawlResult :=
  let successfulResults :=
    List.filter (fun r => value_truthy (pr_content r)) results in
  let aggregatedContent :=
    join aggregate_separator
         (List.map (fun r => value_to_string (pr_content r)) successfulResults) in
  match gather_links successfulResults [] with
  | Throw e => Throw e
  | Return allLinks =>
      Return (mkCrawlResult [] originalUrl completed
                (VStr aggregatedContent) (VStr aggregatedContent) (VStr []) []
                (LinksArray allLinks)
                (mkMetadata None None (Some (List.map pr_url successfulResults)))
                None)
  end.

Definition lift_outcome {S A} (r : outcome A) : M S A :=
  match r with Return a => ret a | Throw e => throw e end.

(** ** The batch scheduler *)

(** [for (i = 0; i < urls.length; i += size) batches.push(urls.slice(i, i + size))]
    for [1 <= size]; [fuel] bounds the number of batches. (With
    [size <= 0] the loop of the source does not end.) *)
Fixpoint batches_of (fuel : nat) (size : nat) (urls : list jsstring)
  : list (list jsstring) :=
  match fuel with
  | O => []
  | S fuel' =>
      match urls with
      | [] => []
      | _ :: _ => firstn size urls :: batches_of fuel' size (skipn size urls)
      end
  end.

Definition make_batches (size : Z) (urls : list jsstring)
  : list (list jsstring) :=
  batches_of (List.length urls) (Z.to_nat size) urls.

Definition is_some {A} (o : option A) : bool :=
  match o with Some _ => true | None => false end.

Definition unexpected_format (batchNumber : Z) : exn :=
  Error (js "Unexpected response format for batch " ++ show_Z batchNumber).

(** The state of [intelligentBatchCrawl]: the world and [allResults]. *)
Definition BatchState : Type := World * list PageResult.

(** The body of the [try] of the retry loop: one attempt at a batch. *)
Definition attempt_batch (batch : list jsstring) (batchNumber : Z)
  (originalUrl : jsstring) : M BatchState unit :=
  response <- on_world (http_post batch) ;;
  handled <-
    (if truthy (rd_task_id response) && negb (is_some (rd_results response))
     then
       asyncResult <-
         on_world (pollForResults (rd_task_id response) originalUrl
                                  default_maxAttempts) ;;
       ret (is_some (crawled_urls (cr_metadata asyncResult)))
     else ret false) ;;
  if (handled : bool) then ret tt
  else
    match rd_results response with
    | Some results =>
        for_each results
          (fun result =>
             match result with
             | Some r =>
                 if pr_success r then
                   on_world (emit (url_crawled (pr_url r))) ;;;
                   on_world (saveIndividualPage r) ;;;
                   on_locals (modify (fun allResults => allResults ++ [r]))
                 else
                   on_world
                     (emit (url_failed (pr_url r)
                              (or_else (pr_error_message r)
                                       (js "Unknown error"))))
             | None => throw (type_error "Cannot read properties of null")
             end)
    | None => throw (unexpected_format batchNumber)
    end.

(** [while (retryCount < maxRetries && !batchSuccess)]; [fuel] is
    [maxRetries - retryCount]. *)
Fixpoint retry_loop (fuel : nat) (retryCount maxRetries coolOffDelay : Z)
  (attempt : M BatchState unit) : M BatchState unit :=
  match fuel with
  | O => ret tt
  | S fuel' =>
      batchSuccess <-
        try_catch
          (attempt ;;; ret true)
          (fun error =>
             let retryCount' := retryCount + 1 in
             (if retryCount' <? maxRetries
              then on_world (sleep RetryBackoff (coolOffDelay * retryCount'))
              else ret tt) ;;;
             ret false) ;;
      if (batchSuccess : bool) then ret tt
      else retry_loop fuel' (retryCount + 1) maxRetries coolOffDelay attempt
  end.

(** The body of the loop over the batches. *)
Definition process_batch (cfg : Config) (totalBatches batchIndex : Z)
  (batch : list jsstring) (originalUrl : jsstring) : M BatchState unit :=
  let batchNumber := batchIndex + 1 in
  on_world (emit (batch_start batchNumber totalBatches batch)) ;;;
  retry_loop (Z.to_nat (max_retries cfg)) 0 (max_retries cfg)
             (cool_off_delay cfg)
             (attempt_batch batch batchNumber originalUrl) ;;;
  if batchIndex <? totalBatches - 1
  then on_world (sleep CoolOff (cool_off_delay cfg))
  else ret tt.

Fixpoint batch_loop (cfg : Config) (totalBatches batchIndex : Z)
  (batches : list (list jsstring)) (originalUrl : jsstring)
  : M BatchState unit :=
  match batches with
  | [] => ret tt
  | batch :: rest =>
      process_batch cfg totalBatches batchIndex batch originalUrl ;;;
      batch_loop cfg totalBatches (batchIndex + 1) rest originalUrl
  end.

(** The journal of [intelligentBatchCrawl] leaves out the estimated
    time and the success rate of its two summary events. *)
Definition intelligentBatchCrawl (urls : list jsstring)
  (originalUrl : jsstring) : M World CrawlResult :=
  w <- get ;;
  let cfg := config w in
  let batches := make_batches (batch_size cfg) urls in
  let totalBatches := Z.of_nat (List.length batches) in
  emit (batch_info (Z.of_nat (List.length urls)) totalBatches
                   (batch_size cfg)) ;;;
  with_locals []
    (batch_loop cfg totalBatches 0 batches originalUrl ;;;
     allResults <- on_locals get ;;
     on_world
       (emit (crawl_complete (Z.of_nat (List.length urls))
                             (Z.of_nat (List.length allResults))
                             totalBatches)) ;;;
     lift_outcome (createAggregatedResult allResults originalUrl)).

(** ** Discovery and the manual crawl *)

(** [response.data.results?.[0]] when it is truthy. *)
Definition first_result (d : ResponseData) : option PageResult :=
  match rd_results d with
  | Some (Some r :: _) => Some r
  | _ => None
  end.

(** [response.data.results?.[0] || response.data] *)
Definition first_or_data (d : ResponseData) : PageResult :=
  match first_result d with Some r => r | None => rd_page d end.

(** A link where a string is expected. *)
Definition link_string (l : Link) : jsstring :=
  match l with
  | LinkStr s => s
  | LinkObj _ => js "[object Object]"
  end.

Definition discoverUrls (startUrl : jsstring) : M World (list Link) :=
  emit (status_update (js "discovering")) ;;;
  try_catch
    (response <- http_post [startUrl] ;;
     let result := first_or_data response in
     let internalLinks := internal_links result in
     let allUrls := set_add_all (LinkStr startUrl :: internalLinks) [] in
     emit (urls_discovered (Z.of_nat (List.length allUrls))
                           (Z.of_nat (List.length internalLinks))) ;;;
     ret allUrls)
    (fun error =>
       emit (discovery_error (message_of (js "Unknown error") error)) ;;;
       ret [LinkStr startUrl]).

(** A [CrawlResult] where the code reads it as a page: it has no
    [success] field. *)
Definition as_page (r : CrawlResult) : PageResult :=
  mkPageResult (cr_url r) false (cr_id r) MdAbsent [] [] [] (cr_content r)
               (cr_links r) (cr_metadata r) [].

(** [{ ...result, url: url, success: !!result.success }] *)
Definition with_url (url : jsstring) (r : PageResult) : PageResult :=
  mkPageResult url (pr_success r) (pr_id r) (pr_markdown r)
               (pr_cleaned_html r) (pr_html r) (pr_extracted_content r)
               (pr_content r) (pr_links r) (pr_metadata r)
               (pr_error_message r).

(** [{ url, success: false, error_message }] *)
Definition failed_page (url error_message : jsstring) : PageResult :=
  mkPageResult url false [] MdAbsent [] [] [] (VStr []) LinksAbsent
               no_metadata error_message.

(** The callback of [batch.map] in [crawlManyWithBatching]. *)
Definition crawl_one (url : jsstring) : M World PageResult :=
  try_catch
    (response <- http_post [url] ;;
     if truthy (rd_task_id response) && negb (is_some (rd_results response))
     then
       pollResult <- pollForResults (rd_task_id response) url
                                    default_maxAttempts ;;
       ret (as_page pollResult)
     else ret (with_url url (first_or_data response)))
    (fun error => ret (failed_page url (message_of (js "Unknown error") error))).

(** The loop over the batches of five: the requests of a batch are
    taken one after the other. *)
Fixpoint crawl_batches (batches : list (list jsstring))
  (results : list PageResult) : M World (list PageResult) :=
  match batches with
  | [] => ret results
  | batch :: rest =>
      batchResults <-
        fold_each batch []
          (fun acc url => r <- crawl_one url ;; ret (acc ++ [r])) ;;
      (match rest with
       | [] => ret tt
       | _ :: _ => sleep BatchDelay 2000
       end) ;;;
      crawl_batches rest (results ++ batchResults)
  end.

Definition crawlManyWithBatching (urls : list jsstring)
  : M World (list PageResult) :=
  crawl_batches (make_batches 5 urls) [].

Definition smart_crawl_failed (error : exn) : jsstring :=
  js "Smart crawl failed: " ++ message_of (js "Unknown error") error.

(** The four steps inside the [try] of [smartSiteCrawlManual]. *)
Definition manual_steps (url : jsstring) : M World CrawlResult :=
  discoveredUrls <- discoverUrls url ;;
  prioritizedUrls <-
    filterAndPrioritizeUrls (List.map link_string discoveredUrls) url ;;
  crawlResults <- crawlManyWithBatching prioritizedUrls ;;
  saveMultiplePages crawlResults ;;;
  lift_outcome (createAggregatedResult crawlResults url).

Definition smartSiteCrawlManual (url : jsstring) : M World CrawlResult :=
  try_catch
    (manual_steps url)
    (fun error => ret (failed_result url (smart_crawl_failed error))).

(** ** The native crawl and the strategy chain *)

(** [typeof link === 'string' ? link : link.href] *)
Definition href_of (l : Link) : jsstring :=
  match l with LinkStr s => s | LinkObj href => href end.

Definition native_failed (error : exn) : exn :=
  Error (js "Native deep crawl failed: "
         ++ message_of (js "Unknown error") error).

Definition smartSiteCrawlNative (url : jsstring) : M World CrawlResult :=
  try_catch
    (initialResponse <- http_post [url] ;;
     match pr_success (rd_page initialResponse),
           first_result initialResponse with
     | true, Some initialResult =>
         let internalLinkObjects := internal_links initialResult in
         match internalLinkObjects with
         | [] => processResponse initialResponse url
         | _ :: _ =>
             let internalLinks :=
               List.filter
                 (fun href => truthy href && startsWith (js "http") href)
                 (List.map href_of internalLinkObjects) in
             prioritizedUrls <-
               filterAndPrioritizeUrls (url :: internalLinks) url ;;
             if (1 <? List.length prioritizedUrls)%nat
             then intelligentBatchCrawl prioritizedUrls url
             else processResponse initialResponse url
         end
     | _, _ => throw (Error (js "Initial page crawl failed"))
     end)
    (fun error => throw (native_failed error)).

Definition cancelled : exn := Error (js "Crawl was cancelled").

(** The error of the result when both strategies throw. *)
Definition all_methods_failed (nativeError manualError : exn) : jsstring :=
  js "All crawl methods failed. Native: "
  ++ message_of (js "Unknown") nativeError
  ++ js ". Manual: " ++ message_of (js "Unknown") manualError.

Definition smartSiteCrawl (url : jsstring) : M World CrawlResult :=
  try_catch
    (aborted <- read_aborted ;;
     if (aborted : bool) then throw cancelled
     else smartSiteCrawlNative url)
    (fun nativeError =>
       aborted <- read_aborted ;;
       if (aborted : bool) then throw cancelled
       else
         try_catch
           (smartSiteCrawlManual url)
           (fun manualError =>
              ret (failed_result url
                     (all_methods_failed nativeError manualError)))).

End WithURL.
End Crawl4AI.
Import Crawl4AI.

(* ================================================================== *)
(** * The entry point of the service *)
(* ================================================================== *)

Module Service.

Local Open Scope monad_scope.

(** [SimplifiedCrawlConfig] of [types/index.ts]. The crawl type is the
    string that the code compares with the word for a single page. *)
Record SimplifiedCrawlConfig := mkSimplifiedCrawlConfig {
  url : jsstring;
  crawlType : jsstring }.

(** What [healthClient.get('/health')] throws: an error of the HTTP
    client, with the status of the response when there was one, its code
    when it has one and its message, or something else. *)
Inductive HealthError :=
| AxiosError (status : option Z) (code : option jsstring) (message : jsstring)
| OtherError.

Inductive HealthReply := HealthOk | HealthFails (error : HealthError).

(** [{ success, message }] *)
Record HealthStatus := mkHealthStatus {
  success : bool;
  message : jsstring }.

(** The two events of [crawlUrl] itself. *)
Inductive EntryEvent :=
| crawl_start (type url : jsstring)
| crawl_error (error : jsstring).

Inductive EntryAction := HealthGet | EntryEmit (e : EntryEvent).

(** The part of the outside world that only the entry point touches: the
    answers of the health endpoint and what the entry point did there. *)
Record Entry := mkEntry {
  health_replies : list HealthReply;
  entry_journal : list EntryAction }.

Definition entry_log (a : EntryAction) (f : Entry) : Entry :=
  mkEntry (health_replies f) (entry_journal f ++ [a]).

Definition entry_emit (e : EntryEvent) : M Entry unit :=
  modify (entry_log (EntryEmit e)).

(** [await healthClient.get('/health')]: the error, if any, is handed
    over as a value, since the handler reads its fields. A call past the
    end of the script is a network error, which has no response. *)
Definition health_get : M Entry HealthReply :=
  fun f =>
    let f1 := entry_log HealthGet f in
    match health_replies f1 with
    | r :: rest => (Return r, mkEntry rest (entry_journal f1))
    | [] =>
        (Return (HealthFails
                   (AxiosError None (Some (js "ERR_NETWORK"))
                               (js "Network Error"))), f1)
    end.

(** A status as a condition. *)
Definition status_truthy (status : option Z) : bool :=
  match status with Some s => negb (s =? 0) | None => false end.

(** [error.code === 'ECONNABORTED' || error.message.includes('timeout')] *)
Definition isTimeoutError (code : option jsstring) (message : jsstring) : bool :=
  match code with
  | Some c => jseqb c (js "ECONNABORTED")
  | None => false
  end
  || includes message (js "timeout").

(** [error.response?.status || error.code] in a template literal. *)
Definition status_or_code (status : option Z) (code : option jsstring)
  : jsstring :=
  match status with
  | Some s =>
      if negb (s =? 0) then show_Z s
      else match code with Some c => c | None => js "undefined" end
  | None => match code with Some c => c | None => js "undefined" end
  end.

(** The handler of [healthCheck]. *)
Definition on_health_error (error : HealthError) : HealthStatus :=
  match error with
  | AxiosError status code message =>
      match status with
      | Some s =>
          if status_truthy status && (s <? 500)
             && negb (isTimeoutError code message)
          then mkHealthStatus true
                 (js "Service responding (" ++ show_Z s ++ js ")")
          else mkHealthStatus false (js "HTTP " ++ status_or_code status code)
      | None => mkHealthStatus false (js "HTTP " ++ status_or_code status code)
      end
  | OtherError => mkHealthStatus false (js "Unknown error")
  end.

Definition healthCheck : M Entry HealthStatus :=
  reply <- health_get ;;
  match reply with
  | HealthOk => ret (mkHealthStatus true (js "Service is healthy"))
  | HealthFails error => ret (on_health_error error)
  end.

(** [health.message || 'Unknown status'] *)
Definition testConnection : M Entry HealthStatus :=
  health <- healthCheck ;;
  ret (mkHealthStatus (success health)
                      (or_else (message health) (js "Unknown status"))).

Section WithURL.

Variable new_URL : jsstring -> option URL.

Definition is_completed_status (s : Status) : bool :=
  match s with completed => true | _ => false end.

Definition singlePageCrawl (url : jsstring) : M World CrawlResult :=
  emit (status_update (js "crawling")) ;;;
  response <- http_post [url] ;;
  emit (url_crawled url) ;;;
  result <- processResponse new_URL response url ;;
  emit (crawl_complete 1 (if is_completed_status (cr_status result)
                          then 1 else 0) 1) ;;;
  ret result.

Definition crawl_service_failed (error : exn) : jsstring :=
  js "Crawl service failed: " ++ message_of (js "Unknown error") error
  ++ js ". Please check service availability.".

Definition crawlUrl (config : SimplifiedCrawlConfig)
  : M (World * Entry) CrawlResult :=
  on_locals (entry_emit (crawl_start (crawlType config) (url config))) ;;;
  on_world (emit (status_update (js "discovering"))) ;;;
  try_catch
    (aborted <- on_world read_aborted ;;
     (if (aborted : bool) then throw cancelled else ret tt) ;;;
     healthStatus <- on_locals healthCheck ;;
     (if negb (success healthStatus)
      then on_world (emit (status_update (js "service_warning")))
      else ret tt) ;;;
     aborted <- on_world read_aborted ;;
     (if (aborted : bool) then throw cancelled else ret tt) ;;;
     if jseqb (crawlType config) (js "single")
     then on_world (singlePageCrawl (url config))
     else on_world (smartSiteCrawl new_URL (url config)))
    (fun error =>
       on_locals
         (entry_emit (crawl_error (message_of (js "Unknown error") error))) ;;;
       ret (failed_result (url config) (crawl_service_failed error))).

End WithURL.
End Service.

(* ================================================================== *)
(** * Facts about the strings *)
(* ================================================================== *)

Module JsStringFacts.

Lemma jseqb_eq (a b : jsstring) : jseqb a b = true <-> a = b.
Proof.
  revert b; induction a as [|x a IH]; intros [|y b]; simpl;
    try (split; [discriminate | congruence]); try tauto.
  unfold char_eqb. rewrite andb_true_iff, N.eqb_eq, IH.
  split; [intros [-> ->]; reflexivity | intros H; injection H; auto].
Qed.

Lemma jseqb_refl (a : jsstring) : jseqb a a = true.
Proof. apply jseqb_eq; reflexivity. Qed.

Lemma concat_cons_head (c : char) (pieces : list jsstring) :
  List.concat (cons_head c pieces) = c :: List.concat pieces.
Proof. destruct pieces; reflexivity. Qed.

Lemma length_cons_head (c : char) (pieces : list jsstring) :
  pieces <> [] -> List.length (cons_head c pieces) = List.length pieces.
Proof. destruct pieces; [congruence | reflexivity]. Qed.

Lemma Forall_cons_head (Q : jsstring -> Prop) c pieces :
  (forall piece, Q piece -> Q (c :: piece)) -> Q [c] ->
  Forall Q pieces -> Forall Q (cons_head c pieces).
Proof.
  intros Hc H1 HF. destruct HF; simpl; constructor; auto.
Qed.

(** *** What a split keeps *)

Section Kept.
(** [keep] selects code units that no separator contains. *)
Variable keep : char -> bool.

Lemma kept_split_runs p in_run s :
  (forall c, p c = true -> keep c = false) ->
  List.filter keep (List.concat (split_runs p in_run s)) = List.filter keep s.
Proof.
  intros Hp. revert in_run.
  induction s as [|c s IH]; intros in_run; simpl; [reflexivity|].
  destruct (p c) eqn:Hc.
  - rewrite (Hp c Hc). destruct in_run; simpl; apply IH.
  - rewrite concat_cons_head. simpl. rewrite IH. reflexivity.
Qed.

Lemma kept_split_char sep s :
  keep sep = false ->
  List.filter keep (List.concat (split_char sep s)) = List.filter keep s.
Proof.
  intros Hsep. induction s as [|c s IH]; simpl; [reflexivity|].
  unfold char_eqb. destruct (N.eqb_spec c sep) as [->|Hne].
  - rewrite Hsep. simpl. exact IH.
  - rewrite concat_cons_head. simpl. rewrite IH. reflexivity.
Qed.

Lemma split_blank_line_step c d s :
  split_blank_line (c :: d :: s) =
  if char_eqb c LF && char_eqb d LF then [] :: split_blank_line s
  else cons_head c (split_blank_line (d :: s)).
Proof. reflexivity. Qed.

Lemma kept_split_blank_line_aux n :
  keep LF = false ->
  forall s, (List.length s <= n)%nat ->
  List.filter keep (List.concat (split_blank_line s)) = List.filter keep s.
Proof.
  intros HLF. induction n as [|n IH]; intros s Hlen.
  - destruct s; [reflexivity | simpl in Hlen; lia].
  - destruct s as [|c [|d s]]; [reflexivity | reflexivity |].
    rewrite split_blank_line_step.
    destruct (char_eqb c LF && char_eqb d LF) eqn:Hcd.
    + apply andb_true_iff in Hcd. destruct Hcd as [Hc Hd].
      apply N.eqb_eq in Hc, Hd. subst c d.
      cbn [List.concat app List.filter]. rewrite HLF.
      apply IH. simpl in Hlen. lia.
    + rewrite concat_cons_head. cbn [List.filter].
      rewrite (IH (d :: s)); [reflexivity | simpl in *; lia].
Qed.

Lemma kept_split_blank_line s :
  keep LF = false ->
  List.filter keep (List.concat (split_blank_line s)) = List.filter keep s.
Proof. intros H. apply (kept_split_blank_line_aux H (n := List.length s)). lia. Qed.

End Kept.

(** *** What the pieces of a split are made of *)

Lemma pieces_split_runs (q : char -> bool) p in_run s :
  forallb q s = true ->
  Forall (fun piece => forallb q piece = true) (split_runs p in_run s).
Proof.
  revert in_run. induction s as [|c s IH]; intros in_run Hq; simpl.
  - constructor; [reflexivity | constructor].
  - simpl in Hq. apply andb_true_iff in Hq. destruct Hq as [Hc Hs].
    destruct (p c).
    + destruct in_run; [apply IH; assumption|].
      constructor; [reflexivity | apply IH; assumption].
    + apply Forall_cons_head; [| simpl; rewrite Hc; reflexivity | apply IH; assumption].
      intros piece Hp. simpl. rewrite Hc, Hp. reflexivity.
Qed.

Lemma pieces_split_runs_free p in_run s :
  Forall (fun piece => forallb (fun c => negb (p c)) piece = true)
         (split_runs p in_run s).
Proof.
  revert in_run. induction s as [|c s IH]; intros in_run; simpl.
  - constructor; [reflexivity | constructor].
  - destruct (p c) eqn:Hc.
    + destruct in_run; [apply IH|]. constructor; [reflexivity | apply IH].
    + apply Forall_cons_head; [| simpl; rewrite Hc; reflexivity | apply IH].
      intros piece Hp. simpl. rewrite Hc, Hp. reflexivity.
Qed.

Lemma pieces_split_char (q : char -> bool) sep s :
  forallb q s = true ->
  Forall (fun piece => forallb q piece = true) (split_char sep s).
Proof.
  induction s as [|c s IH]; intros Hq; simpl.
  - constructor; [reflexivity | constructor].
  - simpl in Hq. apply andb_true_iff in Hq. destruct Hq as [Hc Hs].
    destruct (char_eqb c sep).
    + constructor; [reflexivity | apply IH; assumption].
    + apply Forall_cons_head; [| simpl; rewrite Hc; reflexivity | apply IH; assumption].
      intros piece Hp. simpl. rewrite Hc, Hp. reflexivity.
Qed.

Lemma pieces_split_char_free sep s :
  Forall (fun piece => forallb (fun c => negb (char_eqb c sep)) piece = true)
         (split_char sep s).
Proof.
  induction s as [|c s IH]; simpl.
  - constructor; [reflexivity | constructor].
  - destruct (char_eqb c sep) eqn:Hc.
    + constructor; [reflexivity | apply IH].
    + apply Forall_cons_head; [| simpl; rewrite Hc; reflexivity | apply IH].
      intros piece Hp. simpl. rewrite Hc, Hp. reflexivity.
Qed.

(** *** Trimming *)

Lemma trimStart_split s :
  exists pre, s = pre ++ trimStart s /\ forallb is_ws pre = true.
Proof.
  induction s as [|c s IH]; simpl.
  - exists []. split; reflexivity.
  - destruct (is_ws c) eqn:Hc.
    + destruct IH as [pre [Heq Hpre]].
      exists (c :: pre). split; [simpl; congruence | simpl; rewrite Hc; exact Hpre].
    + exists []. split; reflexivity.
Qed.

Lemma forallb_rev {A} (f : A -> bool) l :
  forallb f (rev l) = forallb f l.
Proof.
  induction l as [|x l IH]; simpl; [reflexivity|].
  rewrite forallb_app, IH. simpl. rewrite andb_true_r. apply andb_comm.
Qed.

Lemma trimEnd_split s :
  exists post, s = trimEnd s ++ post /\ forallb is_ws post = true.
Proof.
  unfold trimEnd. destruct (trimStart_split (rev s)) as [pre [Heq Hpre]].
  exists (rev pre). split.
  - rewrite <- rev_app_distr, <- Heq, rev_involutive. reflexivity.
  - rewrite forallb_rev. exact Hpre.
Qed.

(** A string is its trimmed form between two runs of whitespace. *)
Lemma trim_split s :
  exists pre post,
    s = pre ++ trim s ++ post
    /\ forallb is_ws pre = true /\ forallb is_ws post = true.
Proof.
  unfold trim. destruct (trimStart_split s) as [pre [Heq Hpre]].
  destruct (trimEnd_split (trimStart s)) as [post [Heq' Hpost]].
  exists pre, post. split; [|split; assumption].
  rewrite <- Heq'. exact Heq.
Qed.

Lemma filter_none {A} (keep d : A -> bool) (l : list A) :
  (forall c, d c = true -> keep c = false) ->
  forallb d l = true -> List.filter keep l = [].
Proof.
  intros H. induction l as [|c l IH]; simpl; [reflexivity|].
  intros Hd. apply andb_true_iff in Hd. destruct Hd as [Hc Hl].
  rewrite (H c Hc). apply IH; assumption.
Qed.

Lemma kept_trim (keep : char -> bool) s :
  (forall c, is_ws c = true -> keep c = false) ->
  List.filter keep (trim s) = List.filter keep s.
Proof.
  intros H. destruct (trim_split s) as [pre [post [Heq [Hpre Hpost]]]].
  rewrite Heq at 2. rewrite !filter_app.
  rewrite (filter_none keep is_ws pre H Hpre).
  rewrite (filter_none keep is_ws post H Hpost).
  rewrite app_nil_r. reflexivity.
Qed.

Lemma forallb_trim (q : char -> bool) s :
  forallb q s = true -> forallb q (trim s) = true.
Proof.
  intros Hq. destruct (trim_split s) as [pre [post [Heq _]]].
  rewrite Heq in Hq. rewrite !forallb_app in Hq.
  apply andb_true_iff in Hq. destruct Hq as [_ Hq].
  apply andb_true_iff in Hq. tauto.
Qed.

End JsStringFacts.
Import JsStringFacts.

(* ================================================================== *)
(** * The chunker: bounds and content *)
(* ================================================================== *)

Module ChunkerFacts.

(** ** The estimate grows with the text *)

Section Runs.
Variable p : char -> bool.

Let pieces (in_run : bool) (s : jsstring) : nat :=
  List.length (split_runs p in_run s).

Lemma pieces_cons in_run c s :
  pieces in_run (c :: s) =
  if p c then (if in_run then pieces true s else S (pieces true s))
  else pieces false s.
Proof.
  unfold pieces. simpl. destruct (p c); [destruct in_run; reflexivity|].
  destruct (split_runs p false s) eqn:E; [|reflexivity].
  exfalso. destruct s as [|d s]; simpl in E; [discriminate|].
  destruct (p d); [discriminate|].
  destruct (split_runs p false s); discriminate.
Qed.

Lemma pieces_nil in_run : pieces in_run [] = 1%nat.
Proof. reflexivity. Qed.

Lemma pieces_pos in_run s : (1 <= pieces in_run s)%nat.
Proof.
  revert in_run. induction s as [|c s IH]; intros in_run.
  - rewrite pieces_nil. lia.
  - rewrite pieces_cons. destruct (p c); [destruct in_run|];
      try apply IH. specialize (IH true). lia.
Qed.

Lemma pieces_run_le s :
  (pieces true s <= pieces false s <= S (pieces true s))%nat.
Proof.
  destruct s as [|c s]; [rewrite !pieces_nil; lia|].
  rewrite !pieces_cons. destruct (p c); lia.
Qed.

Lemma pieces_app_l in_run a b :
  (pieces in_run a <= pieces in_run (a ++ b))%nat.
Proof.
  revert in_run. induction a as [|c a IH]; intros in_run.
  - rewrite pieces_nil. apply pieces_pos.
  - rewrite <- app_comm_cons, !pieces_cons.
    destruct (p c); [destruct in_run|]; try apply IH.
    specialize (IH true). lia.
Qed.

Lemma pieces_app_run in_run a b :
  (pieces true b <= pieces in_run (a ++ b))%nat.
Proof.
  revert in_run. induction a as [|c a IH]; intros in_run.
  - simpl. destruct in_run; [lia|]. apply pieces_run_le.
  - rewrite <- app_comm_cons, pieces_cons.
    destruct (p c); [destruct in_run|]; try apply IH.
    specialize (IH true). lia.
Qed.

Lemma pieces_app_r a b :
  (pieces false b <= pieces false (a ++ b))%nat.
Proof.
  induction a as [|c a IH]; [simpl; lia|].
  rewrite <- app_comm_cons, pieces_cons. destruct (p c); [|exact IH].
  pose proof (pieces_app_run true a b). pose proof (pieces_run_le b). lia.
Qed.

End Runs.

Lemma count_class_app p a b :
  count_class p (a ++ b) = count_class p a + count_class p b.
Proof. unfold count_class. rewrite filter_app, length_app. lia. Qed.

Lemma count_class_nonneg p a : 0 <= count_class p a.
Proof. unfold count_class. lia. Qed.

Lemma estimateTokens_app_l a b :
  estimateTokens a <= estimateTokens (a ++ b).
Proof.
  unfold estimateTokens, split_regex_plus. rewrite !count_class_app.
  pose proof (pieces_app_l is_ws false a b).
  pose proof (count_class_nonneg is_punct b).
  pose proof (count_class_nonneg is_ws b).
  assert ((count_class is_ws a + 3) / 4
          <= (count_class is_ws a + count_class is_ws b + 3) / 4)
    by (apply Z.div_le_mono; lia).
  lia.
Qed.

Lemma estimateTokens_app_r a b :
  estimateTokens b <= estimateTokens (a ++ b).
Proof.
  unfold estimateTokens, split_regex_plus. rewrite !count_class_app.
  pose proof (pieces_app_r is_ws a b).
  pose proof (count_class_nonneg is_punct a).
  pose proof (count_class_nonneg is_ws a).
  assert ((count_class is_ws b + 3) / 4
          <= (count_class is_ws a + count_class is_ws b + 3) / 4)
    by (apply Z.div_le_mono; lia).
  lia.
Qed.

(** Trimming never raises the estimate. *)
Lemma estimateTokens_trim s : estimateTokens (trim s) <= estimateTokens s.
Proof.
  destruct (trim_split s) as [pre [post [Heq _]]].
  rewrite Heq at 2.
  pose proof (estimateTokens_app_r pre (trim s ++ post)).
  pose proof (estimateTokens_app_l (trim s) post). lia.
Qed.

(** ** Every chunk is within the bound or is indivisible *)

Section Bound.
Variable maxTokens : Z.

Definition fits (c : jsstring) : Prop :=
  estimateTokens c <= maxTokens \/ indivisible c = true.

Definition bounded (st : ChunkState) : Prop :=
  Forall fits (chunks st) /\ fits (currentChunk st).

Lemma fits_trim c : fits c -> fits (trim c).
Proof.
  intros [H|H]; [left | right].
  - pose proof (estimateTokens_trim c). lia.
  - apply forallb_trim. exact H.
Qed.

Lemma fits_nil : fits [].
Proof. right. reflexivity. Qed.

Lemma bounded_push chunks0 cur next :
  Forall fits chunks0 -> fits cur -> fits next ->
  bounded (mkChunkState (chunks0 ++ [trim cur]) next).
Proof.
  intros Hc Hcur Hnext. split; simpl; [|exact Hnext].
  apply Forall_app. split; [exact Hc|].
  constructor; [apply fits_trim; exact Hcur | constructor].
Qed.

Lemma bounded_flush st : bounded st -> bounded (flush st).
Proof.
  intros [Hc Hcur]. unfold flush, push_current.
  destruct (truthy (currentChunk st)); [|split; assumption].
  apply bounded_push; auto using fits_nil.
Qed.

Lemma bounded_word_step st word :
  bounded st -> indivisible word = true ->
  bounded (word_step maxTokens st word).
Proof.
  intros [Hc Hcur] Hw. unfold word_step.
  destruct (Z.leb_spec (estimateTokens
              (extend (currentChunk st) (js " ") word)) maxTokens).
  - split; simpl; [exact Hc | left; assumption].
  - destruct (truthy (currentChunk st)).
    + apply bounded_push; auto. right; exact Hw.
    + split; simpl; [exact Hc | right; exact Hw].
Qed.

Lemma bounded_words words : forall st,
  bounded st -> Forall (fun w => indivisible w = true) words ->
  bounded (fold_left (word_step maxTokens) words st).
Proof.
  induction words as [|w words IH]; intros st Hst Hw; simpl; [exact Hst|].
  inversion Hw; subst. apply IH; [apply bounded_word_step|]; assumption.
Qed.

(** The pieces of a sentence without terminators, split at the space,
    are indivisible. *)
Lemma words_indivisible sentence :
  forallb (fun c => negb (is_terminator c)) sentence = true ->
  Forall (fun w => indivisible w = true) (split_char SPACE sentence).
Proof.
  intros Hs.
  pose proof (pieces_split_char _ SPACE sentence Hs) as H1.
  pose proof (pieces_split_char_free SPACE sentence) as H2.
  rewrite Forall_forall in *. intros w Hw.
  specialize (H1 w Hw). specialize (H2 w Hw). cbv beta in H1, H2.
  unfold indivisible. rewrite forallb_forall in *.
  intros c Hc. specialize (H1 c Hc). specialize (H2 c Hc).
  rewrite negb_orb, H1, H2. reflexivity.
Qed.

Lemma bounded_sentence_step st sentence :
  bounded st ->
  forallb (fun c => negb (is_terminator c)) sentence = true ->
  bounded (sentence_step maxTokens st sentence).
Proof.
  intros Hst Hs. unfold sentence_step.
  destruct (Z.leb_spec (estimateTokens
              (extend (currentChunk st) (js ". ") sentence)) maxTokens).
  - destruct Hst. split; simpl; [assumption | left; assumption].
  - pose proof (bounded_flush Hst) as Hf.
    destruct (Z.ltb_spec maxTokens (estimateTokens sentence)).
    + apply bounded_words; [exact Hf | apply words_indivisible; exact Hs].
    + destruct Hf. split; simpl; [assumption | left; assumption].
Qed.

Lemma bounded_sentences sentences : forall st,
  bounded st ->
  Forall (fun s => forallb (fun c => negb (is_terminator c)) s = true)
         sentences ->
  bounded (fold_left (sentence_step maxTokens) sentences st).
Proof.
  induction sentences as [|s sentences IH]; intros st Hst Hs; simpl;
    [exact Hst|].
  inversion Hs; subst. apply IH; [apply bounded_sentence_step|]; assumption.
Qed.

Lemma bounded_paragraph_step st paragraph :
  bounded st -> bounded (paragraph_step maxTokens st paragraph).
Proof.
  intros Hst. unfold paragraph_step.
  destruct (Z.leb_spec (estimateTokens
              (extend (currentChunk st) [LF; LF] paragraph)) maxTokens).
  - destruct Hst. split; simpl; [assumption | left; assumption].
  - pose proof (bounded_flush Hst) as Hf.
    destruct (Z.ltb_spec maxTokens (estimateTokens paragraph)).
    + apply bounded_sentences; [exact Hf|].
      apply pieces_split_runs_free.
    + destruct Hf. split; simpl; [assumption | left; assumption].
Qed.

Lemma bounded_paragraphs paragraphs : forall st,
  bounded st ->
  bounded (fold_left (paragraph_step maxTokens) paragraphs st).
Proof.
  induction paragraphs as [|p paragraphs IH]; intros st Hst; simpl;
    [exact Hst|].
  apply IH, bounded_paragraph_step, Hst.
Qed.

Lemma chunkText_fits text :
  maxTokens < estimateTokens text ->
  Forall fits (chunkText text maxTokens).
Proof.
  intros Hlt. unfold chunkText.
  destruct (Z.leb_spec (estimateTokens text) maxTokens); [lia|].
  assert (Hb : bounded (fold_left (paragraph_step maxTokens)
                          (split_blank_line text) (mkChunkState [] []))).
  { apply bounded_paragraphs. split; simpl; [constructor | apply fits_nil]. }
  destruct Hb as [Hc Hcur].
  rewrite Forall_forall. intros c Hin.
  apply filter_In in Hin. destruct Hin as [Hin _].
  destruct (truthy (trim (currentChunk _))).
  - apply in_app_or in Hin. destruct Hin as [Hin|[<-|[]]].
    + rewrite Forall_forall in Hc. apply Hc, Hin.
    + apply fits_trim, Hcur.
  - rewrite Forall_forall in Hc. apply Hc, Hin.
Qed.

End Bound.

(** ** What the chunks keep of the text *)

(** The text that a state of the loops holds. *)
Definition text_of (st : ChunkState) : jsstring :=
  List.concat (chunks st) ++ currentChunk st.

Section Content.

Variable maxTokens : Z.

(** The code units that are looked at: no whitespace among them. *)
Variable keep : char -> bool.
Hypothesis keep_ws : forall c, is_ws c = true -> keep c = false.

Let kept (s : jsstring) : jsstring := List.filter keep s.

Lemma kept_app a b : kept (a ++ b) = kept a ++ kept b.
Proof. apply filter_app. Qed.

Lemma kept_trimmed s : kept (trim s) = kept s.
Proof. apply kept_trim. exact keep_ws. Qed.

Lemma kept_extend cur sep piece :
  kept sep = [] -> kept (extend cur sep piece) = kept cur ++ kept piece.
Proof.
  intros Hsep. unfold extend. rewrite !kept_app.
  destruct (truthy cur); [rewrite Hsep|]; reflexivity.
Qed.

Lemma kept_space : kept (js " ") = [].
Proof. unfold kept. simpl. rewrite (keep_ws 32%N eq_refl). reflexivity. Qed.

Lemma kept_blank_line : kept [LF; LF] = [].
Proof. unfold kept. simpl. rewrite (keep_ws LF eq_refl). reflexivity. Qed.

Lemma kept_pushed chunks0 cur next :
  kept (text_of (mkChunkState (chunks0 ++ [trim cur]) next))
  = kept (List.concat chunks0 ++ cur) ++ kept next.
Proof.
  unfold text_of. simpl. rewrite concat_app. simpl.
  rewrite app_nil_r, !kept_app, kept_trimmed. reflexivity.
Qed.

Lemma kept_flush st : kept (text_of (flush st)) = kept (text_of st).
Proof.
  unfold flush, push_current. destruct (truthy (currentChunk st)); [|reflexivity].
  rewrite kept_pushed. apply app_nil_r.
Qed.

Lemma currentChunk_flush st : currentChunk (flush st) = [].
Proof.
  unfold flush, push_current.
  destruct (currentChunk st) eqn:E; simpl; [exact E | reflexivity].
Qed.

(** The three outcomes of a step: the piece joins the current chunk ... *)
Lemma kept_joined st sep piece :
  kept sep = [] ->
  kept (text_of (mkChunkState (chunks st) (extend (currentChunk st) sep piece)))
  = kept (text_of st) ++ kept piece.
Proof.
  intros Hsep. unfold text_of. simpl.
  rewrite !kept_app, kept_extend by exact Hsep. apply app_assoc.
Qed.

(** ... or it starts a new one after the current chunk was pushed. *)
Lemma kept_replaced st piece :
  kept (text_of (mkChunkState (chunks (flush st)) piece))
  = kept (text_of st) ++ kept piece.
Proof.
  rewrite <- (kept_flush st). unfold text_of.
  rewrite currentChunk_flush, app_nil_r. simpl. apply kept_app.
Qed.

Lemma kept_word_step st word :
  kept (text_of (word_step maxTokens st word))
  = kept (text_of st) ++ kept word.
Proof.
  unfold word_step.
  destruct (estimateTokens _ <=? maxTokens); [apply kept_joined, kept_space|].
  destruct (currentChunk st) eqn:E; simpl.
  - unfold text_of. simpl. rewrite E, app_nil_r. apply kept_app.
  - rewrite kept_pushed. unfold text_of. rewrite E. reflexivity.
Qed.

Lemma kept_words words : forall st,
  kept (text_of (fold_left (word_step maxTokens) words st))
  = kept (text_of st) ++ kept (List.concat words).
Proof.
  induction words as [|w words IH]; intros st; simpl.
  - symmetry. apply app_nil_r.
  - rewrite IH, kept_word_step, kept_app, app_assoc. reflexivity.
Qed.

(** A paragraph within the bound is never split into sentences. *)
Lemma kept_paragraph_step_fit st paragraph :
  estimateTokens paragraph <= maxTokens ->
  kept (text_of (paragraph_step maxTokens st paragraph))
  = kept (text_of st) ++ kept paragraph.
Proof.
  intros Hfit. unfold paragraph_step.
  destruct (estimateTokens _ <=? maxTokens);
    [apply kept_joined, kept_blank_line|].
  destruct (Z.ltb_spec maxTokens (estimateTokens paragraph)); [lia|].
  apply kept_replaced.
Qed.

Lemma kept_paragraphs_fit paragraphs : forall st,
  Forall (fun p => estimateTokens p <= maxTokens) paragraphs ->
  kept (text_of (fold_left (paragraph_step maxTokens) paragraphs st))
  = kept (text_of st) ++ kept (List.concat paragraphs).
Proof.
  induction paragraphs as [|p paragraphs IH]; intros st HF; simpl.
  - symmetry. apply app_nil_r.
  - inversion HF; subst.
    rewrite IH, kept_paragraph_step_fit, kept_app, app_assoc by assumption.
    reflexivity.
Qed.

(** Below the paragraphs, the sentence terminators must be left out too. *)
Hypothesis keep_terminator : forall c, is_terminator c = true -> keep c = false.

Lemma kept_full_stop : kept (js ". ") = [].
Proof.
  unfold kept. simpl.
  rewrite (keep_terminator 46%N eq_refl), (keep_ws 32%N eq_refl). reflexivity.
Qed.

Lemma kept_sentence_step st sentence :
  kept (text_of (sentence_step maxTokens st sentence))
  = kept (text_of st) ++ kept sentence.
Proof.
  unfold sentence_step.
  destruct (estimateTokens _ <=? maxTokens); [apply kept_joined, kept_full_stop|].
  destruct (maxTokens <? estimateTokens sentence); [|apply kept_replaced].
  rewrite kept_words, kept_flush. f_equal.
  apply kept_split_char. apply keep_ws. reflexivity.
Qed.

Lemma kept_sentences sentences : forall st,
  kept (text_of (fold_left (sentence_step maxTokens) sentences st))
  = kept (text_of st) ++ kept (List.concat sentences).
Proof.
  induction sentences as [|s sentences IH]; intros st; simpl.
  - symmetry. apply app_nil_r.
  - rewrite IH, kept_sentence_step, kept_app, app_assoc. reflexivity.
Qed.

Lemma kept_paragraph_step st paragraph :
  kept (text_of (paragraph_step maxTokens st paragraph))
  = kept (text_of st) ++ kept paragraph.
Proof.
  unfold paragraph_step.
  destruct (estimateTokens _ <=? maxTokens);
    [apply kept_joined, kept_blank_line|].
  destruct (maxTokens <? estimateTokens paragraph); [|apply kept_replaced].
  rewrite kept_sentences, kept_flush. f_equal.
  apply kept_split_runs. exact keep_terminator.
Qed.

Lemma kept_paragraphs paragraphs : forall st,
  kept (text_of (fold_left (paragraph_step maxTokens) paragraphs st))
  = kept (text_of st) ++ kept (List.concat paragraphs).
Proof.
  induction paragraphs as [|p paragraphs IH]; intros st; simpl.
  - symmetry. apply app_nil_r.
  - rewrite IH, kept_paragraph_step, kept_app, app_assoc. reflexivity.
Qed.

End Content.

Lemma concat_nonempty (l : list jsstring) :
  List.concat (List.filter (fun chunk => (0 <? List.length chunk)%nat) l)
  = List.concat l.
Proof.
  induction l as [|c l IH]; simpl; [reflexivity|].
  destruct c; simpl; [exact IH | rewrite IH; reflexivity].
Qed.

(** From the loop over the paragraphs to the chunks that are returned. *)
Lemma chunkText_keeps (keep : char -> bool) (text : jsstring) (maxTokens : Z) :
  (forall c, is_ws c = true -> keep c = false) ->
  (maxTokens < estimateTokens text ->
   List.filter keep
     (text_of (fold_left (paragraph_step maxTokens) (split_blank_line text)
                         (mkChunkState [] [])))
   = List.filter keep (List.concat (split_blank_line text))) ->
  List.filter keep (List.concat (chunkText text maxTokens))
  = List.filter keep text.
Proof.
  intros Hws Hloop. unfold chunkText.
  destruct (Z.leb_spec (estimateTokens text) maxTokens).
  - simpl. rewrite app_nil_r. reflexivity.
  - rewrite concat_nonempty. specialize (Hloop H).
    rewrite kept_split_blank_line in Hloop by (apply Hws; reflexivity).
    rewrite <- Hloop. unfold text_of. rewrite filter_app.
    set (st := fold_left _ _ _).
    destruct (trim (currentChunk st)) eqn:E; simpl.
    + rewrite <- (kept_trim keep (currentChunk st) Hws), E.
      rewrite app_nil_r. reflexivity.
    + rewrite concat_app. simpl. rewrite app_nil_r, filter_app.
      rewrite <- E, (kept_trim keep (currentChunk st) Hws). reflexivity.
Qed.

End ChunkerFacts.
Import ChunkerFacts.

Module ChunkerSpec.

(** C7, as amended. If the estimate of the text is within the bound,
    [chunkText] returns the text as its one chunk. Otherwise every chunk
    that it returns has an estimate within the bound, except that a chunk
    may exceed the bound when it is a single piece that the chunker
    cannot divide, one that holds no space (U+0020) and no sentence
    terminator, whose own estimate exceeds the bound. *)
Theorem chunkText_bound (text : jsstring) (maxTokens : Z) :
  (estimateTokens text <= maxTokens -> chunkText text maxTokens = [text])
  /\ (maxTokens < estimateTokens text ->
      forall chunk, In chunk (chunkText text maxTokens) ->
        estimateTokens chunk <= maxTokens
        \/ (maxTokens < estimateTokens chunk /\ indivisible chunk = true)).
Proof.
  split.
  - intros Hle. unfold chunkText.
    destruct (Z.leb_spec (estimateTokens text) maxTokens); [reflexivity | lia].
  - intros Hlt chunk Hin.
    pose proof (@chunkText_fits maxTokens text Hlt) as HF.
    rewrite Forall_forall in HF. destruct (HF chunk Hin) as [H|H].
    + left; exact H.
    + destruct (Z.le_gt_cases (estimateTokens chunk) maxTokens);
        [left | right]; auto.
Qed.

(** C2, as amended. With the whitespace and the sentence terminators
    (full stop, exclamation mark, question mark) left out, the chunks of
    [chunkText], one after the other, are the text: nothing else is lost,
    added or moved. And when no paragraph of the text (a piece between
    blank lines) is estimated above the bound, the chunks reproduce all of
    its non-whitespace content. *)
Theorem chunkText_content (text : jsstring) (maxTokens : Z) :
  content_of (List.concat (chunkText text maxTokens)) = content_of text
  /\ (Forall (fun paragraph => estimateTokens paragraph <= maxTokens)
             (split_blank_line text) ->
      non_whitespace (List.concat (chunkText text maxTokens))
      = non_whitespace text).
Proof.
  assert (Hws : forall c, is_ws c = true
                          -> negb (is_ws c || is_terminator c) = false)
    by (intros c ->; reflexivity).
  split.
  - apply chunkText_keeps; [exact Hws|]. intros _.
    rewrite kept_paragraphs; [reflexivity | exact Hws|].
    intros c Hc. rewrite Hc, orb_true_r. reflexivity.
  - intros Hfit. apply chunkText_keeps; [intros c ->; reflexivity|].
    intros _. rewrite kept_paragraphs_fit; [reflexivity | | exact Hfit].
    intros c ->. reflexivity.
Qed.

End ChunkerSpec.

Module ChunkerExamples.

Lemma chunkText_bound_witness :
  chunkText (js "Hello, world!") 10 = [js "Hello, world!"]
  /\ (forall chunk, In chunk (chunkText (js "one two,,,, three") 2) ->
        estimateTokens chunk <= 2
        \/ (2 < estimateTokens chunk /\ indivisible chunk = true)).
Proof.
  split.
  - apply (proj1 (ChunkerSpec.chunkText_bound (js "Hello, world!") 10)).
    vm_compute. discriminate.
  - apply (proj2 (ChunkerSpec.chunkText_bound (js "one two,,,, three") 2)).
    vm_compute. reflexivity.
Defined.

(** The run of the second part of the witness: the word of five
    estimated tokens is a chunk of its own. *)
Example chunkText_long_word :
  chunkText (js "one two,,,, three") 2 = [js "one"; js "two,,,,"; js "three"].
Proof. vm_compute. reflexivity. Qed.

(** C7 as stated fails. The chunker splits a sentence at the space
    (U+0020) only, while the estimate counts a word at every run of
    whitespace. The text of four letters with a tab between each two is
    estimated at five tokens (four words and a quarter of three tabs,
    rounded up), above the bound of two; the chunker returns it whole, as
    one chunk above the bound that is four words and not a single one. *)
Lemma chunkText_splits_at_spaces_only :
  let text := [97; 9; 98; 9; 99; 9; 100]%N in
  2 < estimateTokens text
  /\ chunkText text 2 = [text]
  /\ List.length (split_regex_plus is_ws text) = 4%nat
  /\ single_word text = false
  /\ indivisible text = true.
Proof. vm_compute. repeat split. Qed.

(** Two short paragraphs and a bound that the text exceeds but no
    paragraph does. *)
Definition two_paragraphs : jsstring := js "a!b" ++ [LF; LF] ++ js "c".

Lemma chunkText_content_witness :
  chunkText two_paragraphs 3 = [js "a!b"; js "c"]
  /\ content_of (List.concat (chunkText two_paragraphs 3))
     = content_of two_paragraphs
  /\ non_whitespace (List.concat (chunkText two_paragraphs 3))
     = non_whitespace two_paragraphs.
Proof.
  split; [vm_compute; reflexivity|].
  destruct (ChunkerSpec.chunkText_content two_paragraphs 3) as [Hall Hfit].
  split; [exact Hall|]. apply Hfit.
  repeat constructor; vm_compute; discriminate.
Defined.

(** C2 as stated fails: a paragraph above the bound is split at its
    runs of sentence terminators and rejoined with a full stop and a
    space, so the one chunk of this text is [a. b], whose non-whitespace
    content is not that of the text. *)
Lemma chunkText_rewrites_terminators :
  chunkText (js "a!!!!b") 4 = [js "a. b"]
  /\ non_whitespace (List.concat (chunkText (js "a!!!!b") 4))
     <> non_whitespace (js "a!!!!b").
Proof. split; [vm_compute; reflexivity | vm_compute; discriminate]. Qed.

End ChunkerExamples.

(* ================================================================== *)
(** * The averaged embedding *)
(* ================================================================== *)

Module EmbeddingFacts.

Local Open Scope monad_scope.

(** The loop over the chunks of [generateEmbedding]. *)
Definition embed_chunks (chunks : list jsstring) (acc : list vector)
  : M World (list vector) :=
  fold_each chunks acc
    (fun acc chunk =>
       embedding <- embeddings_create (truncate_if_large chunk) ;;
       ret (acc ++ [embedding])).

(** When the backend answers every call with a vector, the loop
    gathers the vectors in order. *)
Lemma embed_chunks_returns chunks : forall vs rest acc w,
  List.length vs = List.length chunks ->
  embed_replies w = List.map Return vs ++ rest ->
  exists w', embed_chunks chunks acc w = (Return (acc ++ vs), w')
             /\ embed_replies w' = rest /\ table w' = table w.
Proof.
  induction chunks as [|chunk chunks IH]; intros vs rest acc w Hlen Hrep.
  - destruct vs; [|discriminate]. exists w. simpl in *.
    rewrite app_nil_r. auto.
  - destruct vs as [|v vs]; [discriminate|].
    simpl in Hlen. injection Hlen as Hlen.
    unfold embed_chunks. cbn [fold_each]. unfold bind at 1.
    unfold bind at 1, embeddings_create at 1. cbn [log embed_replies].
    rewrite Hrep. cbn [List.map app]. unfold ret at 1.
    match goal with |- context [fold_each chunks ?a ?f ?w1] =>
      destruct (IH vs rest a w1 Hlen eq_refl) as [w' [Hrun [Hrest Htab]]]
    end.
    exists w'. unfold embed_chunks in Hrun. rewrite Hrun.
    rewrite <- app_assoc. auto.
Qed.

Lemma length_add_into avg emb :
  List.length emb = List.length avg ->
  List.length (add_into avg emb) = List.length avg.
Proof.
  revert avg. induction emb as [|e emb IH]; intros [|a avg] H; simpl in *;
    try reflexivity; try discriminate.
  rewrite IH; [reflexivity | congruence].
Qed.

Lemma nth_add_into i : forall avg emb,
  List.length emb = List.length avg -> (i < List.length avg)%nat ->
  nth i (add_into avg emb) PrimFloat.nan
  = PrimFloat.add (nth i avg PrimFloat.nan) (nth i emb PrimFloat.nan).
Proof.
  induction i as [|i IH]; intros [|a avg] [|e emb] Hlen Hi; simpl in *;
    try lia; try discriminate; try reflexivity.
  apply IH; lia.
Qed.

(** The sums of the loop, component by component. *)
Lemma nth_sums i vs : forall avg,
  Forall (fun v => List.length v = List.length avg) vs ->
  (i < List.length avg)%nat ->
  List.length (fold_left add_into vs avg) = List.length avg
  /\ nth i (fold_left add_into vs avg) PrimFloat.nan
     = fold_left PrimFloat.add (column i vs) (nth i avg PrimFloat.nan).
Proof.
  induction vs as [|v vs IH]; intros avg HF Hi; simpl; [auto|].
  inversion HF as [|? ? Hv HF']; subst.
  pose proof (length_add_into avg v Hv) as Hlen.
  destruct (IH (add_into avg v)) as [IH1 IH2].
  - rewrite Hlen. exact HF'.
  - rewrite Hlen. exact Hi.
  - split; [congruence|]. rewrite IH2, nth_add_into by assumption.
    reflexivity.
Qed.

Lemma nth_zeros i D :
  (i < D)%nat -> nth i (repeat PrimFloat.zero D) PrimFloat.nan = PrimFloat.zero.
Proof.
  revert i. induction D as [|D IH]; intros [|i] H; simpl; try lia; auto.
  apply IH. lia.
Qed.

(** The result of the averaging: every component is the sum of the
    column divided by the number of vectors. *)
Lemma average_mean (D : nat) (v : vector) (vs : list vector) :
  Forall (fun v => List.length v = D) (v :: vs) ->
  List.length (average (v :: vs)) = D
  /\ forall i, (i < D)%nat ->
       nth i (average (v :: vs)) PrimFloat.nan
       = PrimFloat.div (sum_floats (column i (v :: vs)))
                       (float_of_nat (List.length (v :: vs))).
Proof.
  intros HF. unfold average. cbn [hd].
  assert (Hv : List.length v = D) by (inversion HF; assumption).
  rewrite Hv.
  assert (HF' : Forall (fun u => List.length u
                          = List.length (repeat PrimFloat.zero D)) (v :: vs))
    by (rewrite repeat_length; exact HF).
  split.
  - rewrite length_map.
    destruct D as [|D].
    + clear HF'. rewrite Forall_forall in HF.
      assert (H0 : forall us avg, (forall u, In u us -> List.length u = 0%nat) ->
                fold_left add_into us avg = avg).
      { induction us as [|u us IHus]; intros avg Hus; [reflexivity|].
        simpl. rewrite (proj1 (length_zero_iff_nil u)) by (apply Hus; left; reflexivity).
        destruct avg; simpl; apply IHus; intros; apply Hus; right; assumption. }
      rewrite H0 by exact HF. reflexivity.
    + destruct (@nth_sums 0 (v :: vs) _ HF') as [Hl _];
        [rewrite repeat_length; lia|].
      rewrite Hl, repeat_length. reflexivity.
  - intros i Hi.
    destruct (@nth_sums i (v :: vs) _ HF') as [Hl Hn];
      [rewrite repeat_length; exact Hi|].
    rewrite repeat_length in Hl.
    rewrite (nth_indep _ PrimFloat.nan
               (PrimFloat.div PrimFloat.nan
                  (float_of_nat (List.length (v :: vs)))))
      by (rewrite length_map, Hl; exact Hi).
    rewrite (map_nth (fun x => PrimFloat.div x
                                 (float_of_nat (List.length (v :: vs))))).
    rewrite Hn, nth_zeros by exact Hi. reflexivity.
Qed.

End EmbeddingFacts.
Import EmbeddingFacts.

Module EmbeddingSpec.

(** C6. When the chunking of the text yields [k > 1] chunks and the
    remote call answers them with vectors [v_1 .. v_k] of one dimension
    [D], [generateEmbedding] returns the vector of dimension [D] whose
    [i]-th component is [(v_1[i] + ... + v_k[i]) / k], the sum and the
    quotient being those of the binary64 numbers, taken from the left. *)
Theorem generateEmbedding_mean (text : jsstring) (w : World)
  (vs : list vector) (rest : list (outcome vector)) (D : nat) :
  openai_configured (config w) = true ->
  (1 < List.length (chunkText text default_maxTokens))%nat ->
  List.length vs = List.length (chunkText text default_maxTokens) ->
  Forall (fun v => List.length v = D) vs ->
  embed_replies w = List.map Return vs ++ rest ->
  exists result w',
    generateEmbedding text w = (Return result, w')
    /\ List.length result = D
    /\ forall i, (i < D)%nat ->
         nth i result PrimFloat.nan
         = PrimFloat.div (sum_floats (column i vs))
                         (float_of_nat (List.length vs)).
Proof.
  intros Hcfg Hk Hlen HD Hrep.
  destruct (embed_chunks_returns (chunkText text default_maxTokens)
              vs rest [] w Hlen Hrep) as [w' [Hrun _]].
  destruct vs as [|v vs]; [simpl in Hlen; lia|].
  destruct (average_mean HD) as [HlenA Hmean].
  exists (average (v :: vs)), w'. split; [|split; assumption].
  unfold generateEmbedding, isConfigured, bind at 1, bind at 1, get, ret at 1.
  rewrite Hcfg. cbn [negb]. unfold try_catch.
  apply Nat.ltb_lt in Hk. rewrite Hk.
  unfold bind at 1. unfold embed_chunks in Hrun. rewrite Hrun.
  reflexivity.
Qed.

(** Two paragraphs of 2300 commas each: 4603 estimated tokens. *)
Definition long_text : jsstring :=
  let paragraph := repeat 44%N (Z.to_nat 2300) in
  paragraph ++ [LF; LF] ++ paragraph.

Definition two_vectors : list vector :=
  [[1%float; 2%float]; [3%float; 5%float]].

Definition embedding_world : World :=
  mkWorld default_config [] [] (List.map Return two_vectors) [] [] [] [].

Lemma generateEmbedding_mean_witness :
  exists result w',
    generateEmbedding long_text embedding_world = (Return result, w')
    /\ List.length result = 2%nat
    /\ forall i, (i < 2)%nat ->
         nth i result PrimFloat.nan
         = PrimFloat.div (sum_floats (column i two_vectors))
                         (float_of_nat (List.length two_vectors)).
Proof.
  apply (@generateEmbedding_mean long_text embedding_world two_vectors [] 2).
  - reflexivity.
  - apply Nat.ltb_lt. vm_compute. reflexivity.
  - vm_compute. reflexivity.
  - repeat constructor.
  - reflexivity.
Defined.

End EmbeddingSpec.

(* ================================================================== *)
(** * Saving a page when the embedding fails *)
(* ================================================================== *)

Module SupabaseFacts.

Local Open Scope monad_scope.

(** What an embedding call leaves as it was: the configuration, the
    answers that the table will give, the table and the upserts so far. *)
Definition same_store (w w' : World) : Prop :=
  config w' = config w
  /\ db_replies w' = db_replies w
  /\ table w' = table w
  /\ upserts (journal w') = upserts (journal w).

Lemma same_store_refl w : same_store w w.
Proof. repeat split. Qed.

Lemma same_store_trans w1 w2 w3 :
  same_store w1 w2 -> same_store w2 w3 -> same_store w1 w3.
Proof.
  unfold same_store. intros [A [B [C D]]] [A' [B' [C' D']]].
  repeat split; congruence.
Qed.

Lemma upserts_app j1 j2 : upserts (j1 ++ j2) = upserts j1 ++ upserts j2.
Proof. unfold upserts. apply flat_map_app. Qed.

Lemma embeddings_create_store input w :
  same_store w (snd (embeddings_create input w)).
Proof.
  unfold embeddings_create. cbn [log embed_replies].
  destruct (embed_replies w) as [|r rest]; cbn [snd];
    repeat split; cbn [journal log]; rewrite upserts_app; apply app_nil_r.
Qed.

Lemma embed_chunks_store chunks : forall acc w,
  same_store w (snd (embed_chunks chunks acc w)).
Proof.
  induction chunks as [|chunk chunks IH]; intros acc w.
  - apply same_store_refl.
  - unfold embed_chunks. cbn [fold_each]. unfold bind at 1. unfold bind at 1.
    pose proof (embeddings_create_store (truncate_if_large chunk) w) as H1.
    destruct (embeddings_create (truncate_if_large chunk) w) as [[v|e] w1];
      cbn [snd] in *; [|exact H1].
    unfold ret at 1.
    eapply same_store_trans; [exact H1 | apply IH].
Qed.

Lemma generateEmbedding_store text w :
  same_store w (snd (generateEmbedding text w)).
Proof.
  unfold generateEmbedding, isConfigured, bind at 1, bind at 1, get, ret at 1.
  destruct (openai_configured (config w)); cbn [negb];
    [|apply same_store_refl].
  unfold try_catch.
  destruct (1 <? List.length (chunkText text default_maxTokens))%nat.
  - unfold bind at 1.
    pose proof (embed_chunks_store (chunkText text default_maxTokens) [] w) as H.
    unfold embed_chunks in H.
    destruct (fold_each _ _ _ w) as [[vs|e] w1]; exact H.
  - pose proof (embeddings_create_store (truncate_if_large text) w) as H.
    destruct (embeddings_create _ w) as [[v|e] w1]; exact H.
Qed.

End SupabaseFacts.
Import SupabaseFacts.

Module SupabaseSpec.
Local Open Scope monad_scope.
Section WithURL.

Variable new_URL : jsstring -> option URL.

(** A field of which the method can log a sample: a string, or nothing. *)
Definition readable (v : value) : bool :=
  match v with VStr _ => true | VObj => false end.

(** The document that [saveCrawlResultAsDocument] builds when it has no
    embedding. *)
Definition plain_document (crawlResult : CrawlResult) : Document :=
  mkDocument (cr_url crawlResult) (chunkNumber crawlResult)
    (markdownContent crawlResult)
    (spread_title (cr_metadata crawlResult)
       (if truthy (title_or (cr_metadata crawlResult) [])
        then title_or (cr_metadata crawlResult) []
        else match new_URL (cr_url crawlResult) with
             | Some u => hostname u
             | None => []
             end))
    (links_found crawlResult) None.

(** The last step of [saveCrawlResultAsDocument]: the upsert of the
    document and the reading of its answer. *)
Definition send_document (document : Document) : M World Document :=
  try_catch
    (insertResult <- db_upsert document ;;
     match insertResult with
     | DbData => ret document
     | DbError e => throw e
     | DbNothing =>
         throw (Error (js "Upsert operation completed but returned no data"))
     end)
    (fun error =>
       throw (Error (js "Failed to save to database: "
                     ++ message_of (js "Unknown error") error))).

Lemma try_catch_bind_return {S A B} (m : M S A) (k : A -> M S B)
  (h : exn -> M S B) (s s1 : S) (a : A) :
  m s = (Return a, s1) ->
  try_catch (bind m k) h s = try_catch (k a) h s1.
Proof. intros H. unfold try_catch, bind. rewrite H. reflexivity. Qed.

Lemma markdownContent_or_empty crawlResult :
  value_or (markdownContent crawlResult) (VStr []) = markdownContent crawlResult.
Proof.
  unfold value_or at 1.
  destruct (value_truthy (markdownContent crawlResult)) eqn:E; [reflexivity|].
  destruct (markdownContent crawlResult) as [s|]; [|discriminate].
  destruct s; [reflexivity | discriminate].
Qed.

(** The attempt at an embedding of [saveCrawlResultAsDocument], when the
    embedding call throws: no embedding, and the store is as it was. *)
Lemma embedding_attempt_fails (crawlResult : CrawlResult) (w : World)
  (error : exn) :
  fst (generateEmbedding (textForEmbedding crawlResult) w) = Throw error ->
  exists w1,
    (if openai_configured (config w)
        && truthy (trim (textForEmbedding crawlResult))
     then try_catch
            (e <- generateEmbedding (textForEmbedding crawlResult) ;; ret (Some e))
            (fun _ => ret None)
     else ret None) w = (Return None, w1) /\ same_store w w1.
Proof.
  intros Hfail.
  destruct (openai_configured (config w)
            && truthy (trim (textForEmbedding crawlResult))).
  - unfold try_catch, bind.
    pose proof (generateEmbedding_store (textForEmbedding crawlResult) w) as Hs.
    destruct (generateEmbedding (textForEmbedding crawlResult) w)
      as [[v|e] w1]; cbn [fst snd] in *; [discriminate|].
    exists w1. split; [reflexivity | exact Hs].
  - exists w. split; [reflexivity | apply same_store_refl].
Qed.

(** The two samples that the method logs first pass when both fields
    are readable. *)
Lemma log_samples_pass {A} (crawlResult : CrawlResult) (k : M World A)
  (h : exn -> M World A) (w : World) :
  readable (cr_content crawlResult) = true ->
  readable (cr_markdown crawlResult) = true ->
  try_catch (log_sample "content" (cr_content crawlResult) ;;;
             log_sample "markdown" (cr_markdown crawlResult) ;;; k) h w
  = try_catch k h w.
Proof.
  intros Hc Hm.
  destruct (cr_content crawlResult); [|discriminate].
  destruct (cr_markdown crawlResult); [|discriminate].
  reflexivity.
Qed.

(** A sample of a field that holds an object ends the method before it
    does anything. *)
Lemma log_sample_throws (crawlResult : CrawlResult) (w : World) :
  readable (cr_content crawlResult) = true ->
  cr_markdown crawlResult = VObj ->
  saveCrawlResultAsDocument new_URL crawlResult w
  = (Throw (Error (js "Failed to save to database: "
                   ++ js "crawlResult.markdown.substring is not a function")),
     w).
Proof.
  intros Hc Hm. unfold saveCrawlResultAsDocument. cbv zeta.
  destruct (cr_content crawlResult); [|discriminate].
  rewrite Hm. reflexivity.
Qed.

(** When the embedding call throws, the method comes down to sending the
    document without embedding. *)
Lemma save_reduces (crawlResult : CrawlResult) (w : World) (error : exn) :
  readable (cr_content crawlResult) = true ->
  readable (cr_markdown crawlResult) = true ->
  fst (generateEmbedding (textForEmbedding crawlResult) w) = Throw error ->
  truthy (title_or (cr_metadata crawlResult) []) = true
  \/ new_URL (cr_url crawlResult) <> None ->
  exists w1,
    same_store w w1
    /\ saveCrawlResultAsDocument new_URL crawlResult w
       = send_document (plain_document crawlResult) w1.
Proof.
  intros Hc Hm Hfail Hurl.
  destruct (embedding_attempt_fails crawlResult w Hfail) as [w1 [Hrun Hstore]].
  exists w1. split; [exact Hstore|].
  unfold saveCrawlResultAsDocument. cbv zeta.
  rewrite (log_samples_pass crawlResult _ _ w Hc Hm).
  rewrite (@try_catch_bind_return _ _ _ isConfigured _ _ w w
             (openai_configured (config w)) eq_refl).
  rewrite (@try_catch_bind_return _ _ _ _ _ _ _ _ _ Hrun).
  assert (Htitle :
    (if truthy (title_or (cr_metadata crawlResult) [])
     then ret (title_or (cr_metadata crawlResult) [])
     else match new_URL (cr_url crawlResult) with
          | Some u => ret (hostname u)
          | None => throw invalid_url
          end) w1
    = (Return (if truthy (title_or (cr_metadata crawlResult) [])
               then title_or (cr_metadata crawlResult) []
               else match new_URL (cr_url crawlResult) with
                    | Some u => hostname u
                    | None => []
                    end), w1)).
  { destruct (truthy (title_or (cr_metadata crawlResult) [])); [reflexivity|].
    destruct (new_URL (cr_url crawlResult)); [reflexivity|].
    destruct Hurl; [discriminate | congruence]. }
  rewrite (@try_catch_bind_return _ _ _ _ _ _ _ _ _ Htitle).
  rewrite markdownContent_or_empty. reflexivity.
Qed.

(** The condition on the address is needed: for a page without title
    whose address does not parse, building the document throws before the
    upsert. *)
Lemma save_without_address (crawlResult : CrawlResult) (w : World)
  (error : exn) :
  readable (cr_content crawlResult) = true ->
  readable (cr_markdown crawlResult) = true ->
  fst (generateEmbedding (textForEmbedding crawlResult) w) = Throw error ->
  truthy (title_or (cr_metadata crawlResult) []) = false ->
  new_URL (cr_url crawlResult) = None ->
  fst (saveCrawlResultAsDocument new_URL crawlResult w)
  = Throw (Error (js "Failed to save to database: Invalid URL"))
  /\ upserts (journal (snd (saveCrawlResultAsDocument new_URL crawlResult w)))
     = upserts (journal w).
Proof.
  intros Hc Hm Hfail Htitle Hurl.
  destruct (embedding_attempt_fails crawlResult w Hfail)
    as [w1 [Hrun [_ [_ [_ Hups]]]]].
  unfold saveCrawlResultAsDocument. cbv zeta.
  rewrite (log_samples_pass crawlResult _ _ w Hc Hm).
  rewrite (@try_catch_bind_return _ _ _ isConfigured _ _ w w
             (openai_configured (config w)) eq_refl).
  rewrite (@try_catch_bind_return _ _ _ _ _ _ _ _ _ Hrun).
  unfold try_catch, bind. rewrite Htitle, Hurl.
  unfold throw. cbn [fst snd]. split; [reflexivity | exact Hups].
Qed.

(** C8, as amended. For every crawl result (with non-empty content or
    not) whose [content] and [markdown] fields are strings or absent, and
    whose address is one (the page has a title that is not empty, or its
    address parses), if the embedding call throws,
    [saveCrawlResultAsDocument] still issues the upsert, and the document
    that it sends has no embedding, the content of the page and, for its
    title, the title entry of the metadata when there is one and the
    computed title otherwise; when the table accepts the upsert, the
    document is stored and returned. *)
Theorem save_when_embedding_fails (crawlResult : CrawlResult) (w : World)
  (error : exn) :
  readable (cr_content crawlResult) = true ->
  readable (cr_markdown crawlResult) = true ->
  truthy (title_or (cr_metadata crawlResult) []) = true
  \/ new_URL (cr_url crawlResult) <> None ->
  fst (generateEmbedding (textForEmbedding crawlResult) w) = Throw error ->
  let doc := plain_document crawlResult in
  let w' := snd (saveCrawlResultAsDocument new_URL crawlResult w) in
  doc_embedding doc = None
  /\ doc_content doc = markdownContent crawlResult
  /\ doc_title doc
     = match title (cr_metadata crawlResult) with
       | Some s => s
       | None =>
           match new_URL (cr_url crawlResult) with
           | Some u => hostname u
           | None => []
           end
       end
  /\ upserts (journal w') = upserts (journal w) ++ [doc]
  /\ (hd_error (db_replies w) = Some DbData ->
      fst (saveCrawlResultAsDocument new_URL crawlResult w) = Return doc
      /\ table w' = upsert_row doc (table w)).
Proof.
  intros Hc Hm Hurl Hfail doc w'. split; [reflexivity|]. split; [reflexivity|].
  split.
  { unfold doc, plain_document, spread_title, title_or. cbn [doc_title].
    destruct (title (cr_metadata crawlResult)) as [s|]; reflexivity. }
  destruct (save_reduces crawlResult w Hc Hm Hfail Hurl)
    as [w1 [[Hcfg [Hdb [Htab Hups]]] Hrun]].
  subst w'. rewrite Hrun. fold doc.
  unfold send_document, try_catch, bind, db_upsert.
  cbn [log db_replies journal table]. rewrite Hdb, Htab.
  destruct (db_replies w) as [|[| |] rest];
    unfold throw, ret; cbn [fst snd journal table log hd_error].
  all: rewrite upserts_app, Hups; (split; [reflexivity|]); intros H;
    try discriminate.
  split; reflexivity.
Qed.

End WithURL.

(** A page with content and a title, an embedding backend that is down,
    and a table that accepts the upsert. *)
Definition hello_page : CrawlResult :=
  mkCrawlResult (js "id-1") (js "https://example.com/a") completed
    (VStr (js "hello")) (VStr []) (VStr []) [] (LinksArray [])
    (mkMetadata (Some (js "Hello")) None None) None.

Definition backend_down : World :=
  mkWorld default_config [] [] [Throw network_error] [DbData] [] [] [].

Lemma save_when_embedding_fails_witness :
  let doc := plain_document simple_parse hello_page in
  let w' := snd (saveCrawlResultAsDocument simple_parse hello_page backend_down) in
  doc_embedding doc = None
  /\ doc_content doc = VStr (js "hello")
  /\ doc_title doc = js "Hello"
  /\ upserts (journal w') = [doc]
  /\ (hd_error (db_replies backend_down) = Some DbData ->
      fst (saveCrawlResultAsDocument simple_parse hello_page backend_down)
      = Return doc
      /\ table w' = upsert_row doc (table backend_down)).
Proof.
  apply (@save_when_embedding_fails simple_parse hello_page backend_down
           (Error (js "Embedding generation failed: Network Error"))).
  - reflexivity.
  - reflexivity.
  - left. reflexivity.
  - reflexivity.
Defined.

(** The page that [saveIndividualPage] hands over for a result whose
    [markdown] is an object with the fitted variant only: the content is
    the fitted text, and the markdown field is the object itself. *)
Definition object_markdown_page : CrawlResult :=
  mkCrawlResult (js "id-2") (js "https://example.com/b") completed
    (VStr (js "hello")) VObj VObj (js "hello") (LinksArray [])
    (mkMetadata (Some (js "Hello")) None None) None.

(** A page with content, without title, whose address is no URL. *)
Definition no_address_page : CrawlResult :=
  mkCrawlResult (js "id-3") (js "example.com") completed
    (VStr (js "hello")) (VStr []) (VStr []) [] (LinksArray [])
    no_metadata None.

(** C8 as stated fails. Both pages have content that is not empty, the
    embedding backend is down and the table would accept an upsert; yet
    [saveCrawlResultAsDocument] throws and issues no upsert. For the
    first page the sample that the method logs of the markdown field
    throws before anything else is done (the field holds an object); for
    the second the title falls back to the host of an address that does
    not parse. *)
Lemma save_fails_before_upsert :
  let embedding_failed :=
    Throw (Error (js "Embedding generation failed: Network Error")) in
  let run1 := saveCrawlResultAsDocument simple_parse object_markdown_page
                                        backend_down in
  let run2 := saveCrawlResultAsDocument simple_parse no_address_page
                                        backend_down in
  fst (generateEmbedding (textForEmbedding object_markdown_page) backend_down)
  = embedding_failed
  /\ fst run1
     = Throw (Error (js "Failed to save to database: crawlResult.markdown.substring is not a function"))
  /\ journal (snd run1) = []
  /\ table (snd run1) = []
  /\ fst (generateEmbedding (textForEmbedding no_address_page) backend_down)
     = embedding_failed
  /\ fst run2 = Throw (Error (js "Failed to save to database: Invalid URL"))
  /\ upserts (journal (snd run2)) = []
  /\ table (snd run2) = [].
Proof. cbv zeta. repeat split; vm_compute; reflexivity. Qed.

End SupabaseSpec.

(* ================================================================== *)
(** * The link filter and prioritiser *)
(* ================================================================== *)

Module PrioritiserFacts.

(** ** The stable sort *)

Definition by_priority (a b : jsstring * Z) : Prop := snd a <= snd b.

Lemma insert_perm x l : Permutation (x :: l) (insert_by_priority x l).
Proof.
  induction l as [|y l IH]; simpl; [apply Permutation_refl|].
  destruct (snd x <=? snd y); [apply Permutation_refl|].
  eapply perm_trans; [apply perm_swap | apply perm_skip, IH].
Qed.

Lemma sort_perm l : Permutation l (sort_by_priority l).
Proof.
  induction l as [|x l IH]; simpl; [constructor|].
  eapply perm_trans; [apply perm_skip, IH | apply insert_perm].
Qed.

Lemma insert_sorted x l :
  StronglySorted by_priority l ->
  StronglySorted by_priority (insert_by_priority x l).
Proof.
  induction 1 as [|y l Hl IH Hy]; simpl.
  - constructor; constructor.
  - destruct (Z.leb_spec (snd x) (snd y)).
    + constructor; [constructor; assumption|].
      constructor; [assumption|].
      rewrite Forall_forall in *. intros z Hz. specialize (Hy z Hz).
      unfold by_priority in *. lia.
    + constructor; [exact IH|].
      rewrite Forall_forall in *. intros z Hz.
      apply (Permutation_in _ (Permutation_sym (insert_perm x l))) in Hz.
      destruct Hz as [<-|Hz]; [unfold by_priority; lia | apply Hy, Hz].
Qed.

Lemma sort_sorted l : StronglySorted by_priority (sort_by_priority l).
Proof.
  induction l as [|x l IH]; simpl; [constructor | apply insert_sorted, IH].
Qed.

(** Stability: the items of one priority stay in the order that they had. *)
Lemma insert_stable k x l :
  List.filter (fun a => snd a =? k) (insert_by_priority x l)
  = List.filter (fun a => snd a =? k) (x :: l).
Proof.
  induction l as [|y l IH]; [reflexivity|].
  cbn [insert_by_priority].
  destruct (Z.leb_spec (snd x) (snd y)); [reflexivity|].
  cbn [List.filter] in *. rewrite IH.
  destruct (Z.eqb_spec (snd x) k), (Z.eqb_spec (snd y) k); try reflexivity.
  lia.
Qed.

Lemma sort_stable k l :
  List.filter (fun a => snd a =? k) (sort_by_priority l)
  = List.filter (fun a => snd a =? k) l.
Proof.
  induction l as [|x l IH]; [reflexivity|].
  cbn [sort_by_priority fold_right]. rewrite insert_stable.
  cbn [List.filter]. fold (sort_by_priority l). rewrite IH. reflexivity.
Qed.

(** ** The prefix that [slice] keeps *)

Lemma slice0_prefix {A} (a : list A) (end_ : Z) :
  exists n, slice0 a end_ = firstn n a.
Proof. unfold slice0. eexists. reflexivity. Qed.

Lemma slice0_length {A} (a : list A) (end_ : Z) :
  0 <= end_ -> Z.of_nat (List.length (slice0 a end_)) <= end_.
Proof.
  intros H. unfold slice0. destruct (Z.ltb_spec end_ 0); [lia|].
  rewrite length_firstn. lia.
Qed.

Lemma firstn_In {A} n (l : list A) x : In x (firstn n l) -> In x l.
Proof. intros H. rewrite <- (firstn_skipn n l). apply in_or_app. left; exact H. Qed.

Lemma firstn_NoDup {A} n (l : list A) : NoDup l -> NoDup (firstn n l).
Proof.
  intros H. rewrite <- (firstn_skipn n l) in H.
  apply NoDup_app_remove_r in H. exact H.
Qed.

Lemma firstn_sorted {A} (R : A -> A -> Prop) n (l : list A) :
  StronglySorted R l -> StronglySorted R (firstn n l).
Proof.
  revert n. induction l as [|x l IH]; intros [|n] H; simpl; try constructor.
  - apply IH. inversion H; assumption.
  - inversion H as [|? ? _ HF]; subst.
    rewrite Forall_forall in *. intros y Hy. apply HF, (firstn_In _ _ _ Hy).
Qed.

Lemma firstn_filter_prefix {A} (f : A -> bool) n (l : list A) :
  exists rest, List.filter f l = List.filter f (firstn n l) ++ rest.
Proof.
  exists (List.filter f (skipn n l)).
  rewrite <- filter_app, firstn_skipn. reflexivity.
Qed.

Section WithURL.

Variable new_URL : jsstring -> option URL.

(** The priority of an address that parses. *)
Definition priority_key (url : jsstring) : Z :=
  match priority new_URL url with Some p => p | None => 0 end.

Lemma accepted_parses baseDomain url :
  accepted new_URL baseDomain url = true ->
  exists u, new_URL url = Some u /\ hostname u = baseDomain.
Proof.
  unfold accepted, judge. destruct (new_URL url) as [u|]; [|discriminate].
  destruct (jseqb (hostname u) baseDomain) eqn:E; [|discriminate].
  intros _. exists u. split; [reflexivity | apply jseqb_eq, E].
Qed.

(** Every address that passed the filter gets its priority. *)
Lemma with_priority_filtered baseDomain urls :
  exists items,
    with_priority new_URL (List.filter (accepted new_URL baseDomain) urls)
    = Some items
    /\ List.map fst items = List.filter (accepted new_URL baseDomain) urls
    /\ Forall (fun a => snd a = priority_key (fst a)) items.
Proof.
  induction urls as [|url urls [items [H1 [H2 H3]]]]; simpl.
  - exists []. repeat split. constructor.
  - destruct (accepted new_URL baseDomain url) eqn:E;
      [|exists items; auto].
    destruct (accepted_parses _ _ E) as [u [Hu _]].
    cbn [with_priority]. rewrite H1.
    assert (Hp : priority new_URL url
                 = Some (priority_key url)).
    { unfold priority_key, priority. rewrite Hu. reflexivity. }
    rewrite Hp. exists ((url, priority_key url) :: items).
    split; [reflexivity|]. split; [simpl; congruence|].
    constructor; [reflexivity | exact H3].
Qed.

Lemma map_fst_sorted (items : list (jsstring * Z)) :
  Forall (fun a => snd a = priority_key (fst a)) items ->
  StronglySorted by_priority items ->
  StronglySorted (fun a b => priority_key a <= priority_key b)
                 (List.map fst items).
Proof.
  intros HF HS. induction HS as [|x l Hl IH Hx]; simpl; [constructor|].
  inversion HF as [|? ? Hkx HF']; subst.
  constructor; [apply IH, HF'|].
  rewrite Forall_forall in *. intros y Hy.
  apply in_map_iff in Hy. destruct Hy as [z [<- Hz]].
  specialize (Hx z Hz). specialize (HF' z Hz). unfold by_priority in Hx.
  cbv beta in HF'. lia.
Qed.

Lemma map_fst_filter_key k (items : list (jsstring * Z)) :
  Forall (fun a => snd a = priority_key (fst a)) items ->
  List.filter (fun url => priority_key url =? k) (List.map fst items)
  = List.map fst (List.filter (fun a => snd a =? k) items).
Proof.
  induction 1 as [|x l Hx HF IH]; simpl; [reflexivity|].
  rewrite <- Hx, IH. destruct (snd x =? k); reflexivity.
Qed.

Lemma Forall_perm {A} (P : A -> Prop) l l' :
  Permutation l l' -> Forall P l -> Forall P l'.
Proof.
  intros Hp HF. rewrite Forall_forall in *. intros x Hx.
  apply HF, (Permutation_in _ (Permutation_sym Hp) Hx).
Qed.

(** What [filterAndPrioritizeUrls] returns when the base address parses:
    a prefix of the accepted addresses sorted by priority. *)
Lemma prioritized_returns maxUrls urls baseUrl base :
  new_URL baseUrl = Some base ->
  exists items n,
    prioritized new_URL maxUrls urls baseUrl
    = Return (slice0 (List.map fst (sort_by_priority items)) maxUrls)
    /\ slice0 (List.map fst (sort_by_priority items)) maxUrls
       = firstn n (List.map fst (sort_by_priority items))
    /\ List.map fst items
       = List.filter (accepted new_URL (hostname base)) urls
    /\ Forall (fun a => snd a = priority_key (fst a)) items.
Proof.
  intros Hbase. unfold prioritized. rewrite Hbase.
  destruct (with_priority_filtered (hostname base) urls)
    as [items [H1 [H2 H3]]].
  rewrite H1.
  destruct (slice0_prefix (List.map fst (sort_by_priority items)) maxUrls)
    as [n Hn].
  exists items, n. auto.
Qed.

(** The events of the filter leave the configuration as it was. *)
Lemma emit_all_config (events : list CrawlEvent) (w : World) :
  exists w', for_each events emit w = (Return tt, w') /\ config w' = config w.
Proof.
  revert w. induction events as [|e events IH]; intros w.
  - exists w. split; reflexivity.
  - cbn [for_each]. unfold bind, emit at 1, modify.
    destruct (IH (log (Emit e) w)) as [w' [H1 H2]].
    exists w'. split; [exact H1 | exact H2].
Qed.

Lemma skip_events_config baseDomain (urls : list jsstring) (w : World) :
  exists w',
    for_each urls
      (fun url => for_each (skip_events new_URL baseDomain url) emit) w
    = (Return tt, w') /\ config w' = config w.
Proof.
  revert w. induction urls as [|url urls IH]; intros w.
  - exists w. split; reflexivity.
  - cbn [for_each]. unfold bind.
    destruct (emit_all_config (skip_events new_URL baseDomain url) w)
      as [w1 [H1 H2]].
    rewrite H1. destruct (IH w1) as [w' [H3 H4]].
    exists w'. split; [exact H3 | congruence].
Qed.

(** The method returns the value [prioritized]. *)
Lemma filterAndPrioritizeUrls_returns urls baseUrl base w :
  new_URL baseUrl = Some base ->
  exists w',
    filterAndPrioritizeUrls new_URL urls baseUrl w
    = (prioritized new_URL (max_pages (config w)) urls baseUrl, w')
    /\ config w' = config w.
Proof.
  intros Hbase.
  destruct (prioritized_returns (max_pages (config w)) urls Hbase)
    as [items [n [Hret _]]].
  unfold filterAndPrioritizeUrls. rewrite Hbase. unfold bind at 1.
  destruct (skip_events_config (hostname base) urls w) as [w' [H1 H2]].
  rewrite H1. unfold bind, get. rewrite H2, Hret.
  exists w'. split; [reflexivity | exact H2].
Qed.

End WithURL.
End PrioritiserFacts.
Import PrioritiserFacts.

Module PrioritiserSpec.
Section WithURL.

Variable new_URL : jsstring -> option URL.

(** C1, as amended. When the base address parses,
    [filterAndPrioritizeUrls] returns a list of addresses of the link
    list, each with the host name of the base address; the list is at most
    as long as the configured maximum when that is not negative; and it has
    no duplicate whenever the link list has none (the method itself removes
    no duplicate). *)
Theorem filterAndPrioritizeUrls_invariant (urls : list jsstring)
  (baseUrl : jsstring) (base : URL) (w : World) :
  new_URL baseUrl = Some base ->
  exists final,
    fst (filterAndPrioritizeUrls new_URL urls baseUrl w) = Return final
    /\ (forall url, In url final ->
          In url urls
          /\ exists u, new_URL url = Some u /\ hostname u = hostname base)
    /\ (0 <= max_pages (config w) ->
        Z.of_nat (List.length final) <= max_pages (config w))
    /\ (NoDup urls -> NoDup final).
Proof.
  intros Hbase.
  destruct (@filterAndPrioritizeUrls_returns new_URL urls baseUrl base w Hbase)
    as [w' [Hrun _]].
  destruct (@prioritized_returns new_URL (max_pages (config w)) urls baseUrl
              base Hbase)
    as [items [n [Hret [Hn [Hmap _]]]]].
  rewrite Hrun, Hret. cbn [fst]. eexists. split; [reflexivity|].
  assert (Hperm : Permutation
                    (List.filter (accepted new_URL (hostname base)) urls)
                    (List.map fst (sort_by_priority items))).
  { rewrite <- Hmap. apply Permutation_map, sort_perm. }
  split; [|split].
  - intros url Hin. rewrite Hn in Hin. apply firstn_In in Hin.
    apply (Permutation_in _ (Permutation_sym Hperm)) in Hin.
    apply filter_In in Hin. destruct Hin as [Hin Hacc].
    split; [exact Hin | apply (@accepted_parses new_URL _ _ Hacc)].
  - apply slice0_length.
  - intros Hnd. rewrite Hn. apply firstn_NoDup.
    apply (Permutation_NoDup Hperm), NoDup_filter, Hnd.
Qed.

(** C9, as amended. The result of [filterAndPrioritizeUrls] is in
    ascending order of the priority key, where the key of an address is
    the depth of its path, less one exactly when the address (the whole
    string) contains a slash followed by one of docs, documentation, api,
    guide, tutorial, blog, news, product, in any case; addresses of equal
    key keep the order in which the link list had them. *)
Theorem filterAndPrioritizeUrls_order (urls : list jsstring)
  (baseUrl : jsstring) (base : URL) (w : World) :
  new_URL baseUrl = Some base ->
  exists final,
    fst (filterAndPrioritizeUrls new_URL urls baseUrl w) = Return final
    /\ StronglySorted
         (fun a b => priority_key new_URL a <= priority_key new_URL b) final
    /\ (forall url u, In url final -> new_URL url = Some u ->
          priority_key new_URL url
          = if slash_keyword importantKeywords url
            then pathDepth u - 1 else pathDepth u)
    /\ (forall k, exists rest,
          List.filter (fun url => priority_key new_URL url =? k)
                      (List.filter (accepted new_URL (hostname base)) urls)
          = List.filter (fun url => priority_key new_URL url =? k) final
            ++ rest).
Proof.
  intros Hbase.
  destruct (@filterAndPrioritizeUrls_returns new_URL urls baseUrl base w Hbase)
    as [w' [Hrun _]].
  destruct (@prioritized_returns new_URL (max_pages (config w)) urls baseUrl
              base Hbase)
    as [items [n [Hret [Hn [Hmap Hkeys]]]]].
  rewrite Hrun, Hret. cbn [fst]. eexists. split; [reflexivity|].
  assert (Hkeys' : Forall (fun a => snd a = priority_key new_URL (fst a))
                          (sort_by_priority items))
    by (apply (Forall_perm (sort_perm items)), Hkeys).
  split; [|split].
  - rewrite Hn. apply firstn_sorted, map_fst_sorted;
      [exact Hkeys' | apply sort_sorted].
  - intros url u _ Hu. unfold priority_key, priority, hasImportantKeywords.
    rewrite Hu. reflexivity.
  - intros k. rewrite Hn, <- Hmap.
    rewrite (@map_fst_filter_key new_URL k _ Hkeys), <- (sort_stable k items).
    rewrite <- (@map_fst_filter_key new_URL k _ Hkeys').
    apply firstn_filter_prefix.
Qed.

End WithURL.

Definition sample_links : list jsstring :=
  [site "/a/b"; site "/news/x/y"; site "/"; js "https://other.org/";
   site "/a.pdf"; site "/login"; site "/docs"].

(** The run on the sample: the root and the boosted page first, then the
    pages of key two in the order of the link list. *)
Example filterAndPrioritizeUrls_sample :
  fst (filterAndPrioritizeUrls simple_parse sample_links (site "/") offline_world)
  = Return [site "/"; site "/docs"; site "/a/b"; site "/news/x/y"].
Proof. vm_compute. reflexivity. Qed.

Lemma filterAndPrioritizeUrls_invariant_witness :
  exists final,
    fst (filterAndPrioritizeUrls simple_parse sample_links (site "/") offline_world)
    = Return final
    /\ (forall url, In url final ->
          In url sample_links
          /\ exists u, simple_parse url = Some u /\ hostname u = js "e.com")
    /\ Z.of_nat (List.length final) <= 5000
    /\ NoDup final.
Proof.
  destruct (@filterAndPrioritizeUrls_invariant simple_parse sample_links
              (site "/") (mkURL (js "e.com") (js "/")) offline_world eq_refl)
    as [final [Hrun [Hin [Hlen Hnd]]]].
  exists final. split; [exact Hrun|]. split; [exact Hin|].
  split; [apply Hlen; vm_compute; discriminate|].
  apply Hnd. unfold sample_links.
  repeat (constructor; [simpl; intros H;
    repeat (destruct H as [H|H]; [vm_compute in H; discriminate H|]); exact H|]).
  constructor.
Defined.

Lemma filterAndPrioritizeUrls_order_witness :
  exists final,
    fst (filterAndPrioritizeUrls simple_parse sample_links (site "/") offline_world)
    = Return final
    /\ StronglySorted
         (fun a b => priority_key simple_parse a <= priority_key simple_parse b)
         final
    /\ (forall url u, In url final -> simple_parse url = Some u ->
          priority_key simple_parse url
          = if slash_keyword importantKeywords url
            then pathDepth u - 1 else pathDepth u)
    /\ (forall k, exists rest,
          List.filter (fun url => priority_key simple_parse url =? k)
                      (List.filter (accepted simple_parse (js "e.com"))
                                   sample_links)
          = List.filter (fun url => priority_key simple_parse url =? k) final
            ++ rest).
Proof.
  exact (@filterAndPrioritizeUrls_order simple_parse sample_links
           (site "/") (mkURL (js "e.com") (js "/")) offline_world eq_refl).
Defined.

(** C1 as stated fails: a link that is there twice is returned twice. *)
Lemma filterAndPrioritizeUrls_keeps_duplicates :
  fst (filterAndPrioritizeUrls simple_parse [site "/a"; site "/a"] (site "/")
                               offline_world)
  = Return [site "/a"; site "/a"]
  /\ ~ NoDup [site "/a"; site "/a"].
Proof.
  split; [vm_compute; reflexivity|].
  intros H. inversion H as [|? ? Hnot _]. apply Hnot. left. reflexivity.
Qed.

(** C9 as stated fails: with the keywords of the specification, the page
    under [/reference] has key one and the page [/a/b] key two, but the
    code gives both the key two and leaves them in the order of the link
    list. *)
Lemma filterAndPrioritizeUrls_ignores_reference :
  fst (filterAndPrioritizeUrls simple_parse
         [site "/a/b"; site "/reference/x"] (site "/") offline_world)
  = Return [site "/a/b"; site "/reference/x"]
  /\ spec_priority simple_parse (site "/a/b") = Some 2
  /\ spec_priority simple_parse (site "/reference/x") = Some 1.
Proof. repeat split; vm_compute; reflexivity. Qed.

End PrioritiserSpec.

(* ================================================================== *)
(** * Saving a page without content *)
(* ================================================================== *)

Module PageSavingSpec.
Section WithURL.

Variable new_URL : jsstring -> option URL.

(** C10. When the best available content of a crawl result (the fit
    markdown, else the raw markdown, else the extracted content, else the
    HTML) is empty or only whitespace, [saveIndividualPage] returns
    without an error and leaves the world as it was: no upsert, no
    embedding call, the table unchanged. *)
Theorem saveIndividualPage_blank (result : PageResult) (s : jsstring)
  (w : World) :
  best_content result = VStr s ->
  trim s = [] ->
  saveIndividualPage new_URL result w = (Return tt, w).
Proof.
  intros Hbest Hblank. unfold saveIndividualPage, try_catch.
  destruct (pr_success result); [|reflexivity].
  cbn [negb]. rewrite Hbest. unfold bind, trimmed_truthy, ret.
  rewrite Hblank. reflexivity.
Qed.

(** The same holds when the content is no string at all: the failure of
    [trim] is caught. *)
Lemma saveIndividualPage_object (result : PageResult) (w : World) :
  best_content result = VObj ->
  saveIndividualPage new_URL result w = (Return tt, w).
Proof.
  intros Hbest. unfold saveIndividualPage, try_catch.
  destruct (pr_success result); [|reflexivity].
  cbn [negb]. rewrite Hbest. reflexivity.
Qed.

(** [saveIndividualPages] has the same guard: a reply whose pages are
    all blank leaves the world as it was. *)
Lemma saveIndividualPages_blank (results : list (option PageResult))
  (w : World) :
  Forall (fun entry => exists page s,
            entry = Some page /\ best_content page = VStr s /\ trim s = [])
         results ->
  saveIndividualPages new_URL results w = (Return tt, w).
Proof.
  unfold saveIndividualPages. generalize 0.
  induction results as [|entry results IH]; intros i HF; [reflexivity|].
  inversion HF as [|? ? [page [s [-> [Hbest Hblank]]]] HF']; subst.
  cbn [saveIndividualPages_from]. unfold bind at 1.
  destruct (pr_success page); cbn [negb].
  - rewrite Hbest. unfold bind at 1, trimmed_truthy, ret at 1.
    rewrite Hblank. cbn [truthy]. unfold ret at 1. apply IH, HF'.
  - unfold ret at 1. apply IH, HF'.
Qed.

End WithURL.

(** A page whose markdown is blanks and a line feed, and a world whose
    services would all answer. *)
Definition blank_page : PageResult :=
  mkPageResult (js "https://example.com/empty") true (js "id-2")
    (MdObject (js "  " ++ [LF]) []) [] [] [] (VStr []) LinksAbsent
    no_metadata [].

Definition ready_world : World :=
  mkWorld default_config [] [] [Return [1%float]] [DbData] [] [] [].

Lemma saveIndividualPage_blank_witness :
  saveIndividualPage simple_parse blank_page ready_world
  = (Return tt, ready_world).
Proof.
  apply (@saveIndividualPage_blank simple_parse blank_page (js "  " ++ [LF])
           ready_world).
  - reflexivity.
  - reflexivity.
Defined.

(** The same page with text is saved: the guard is what keeps the blank
    one out. *)
Example saveIndividualPage_with_text :
  let page := mkPageResult (js "https://example.com/full") true (js "id-3")
                (MdString (js "text")) [] [] [] (VStr []) LinksAbsent
                no_metadata [] in
  upserts (journal (snd (saveIndividualPage simple_parse page ready_world)))
  = [mkDocument (js "https://example.com/full") 1 (VStr (js "text"))
       (js "example.com") 0 (Some [1%float])].
Proof. vm_compute. reflexivity. Qed.

End PageSavingSpec.

(* ================================================================== *)
(** * The task poller *)
(* ================================================================== *)

Module PollerSpec.
Local Open Scope monad_scope.

(** The world after a poll that was answered and the wait that follows. *)
Definition after_poll (taskId : jsstring) (rest : list HttpReply) (w : World)
  : World :=
  mkWorld (config w) (post_replies w) rest (embed_replies w) (db_replies w)
          (abort_reads w) (table w)
          (journal w ++ [Get taskId; Sleep PollWait 2000]).

Section WithURL.

Variable new_URL : jsstring -> option URL.

(** A reply with the terminal state [failed] does not stop the poller
    before the last attempt: the error that the code throws for it is
    caught by the handler of the same attempt, which waits and goes on. *)
Lemma poll_loop_after_failed (fuel : nat) (attempt maxAttempts : Z)
  (taskId originalUrl : jsstring) (d : ResponseData) (rest : list HttpReply)
  (w : World) :
  get_replies w = HttpData d :: rest ->
  is_completed d = false ->
  is_failed d = true ->
  attempt <> maxAttempts ->
  poll_loop new_URL (S fuel) attempt maxAttempts taskId originalUrl w
  = poll_loop new_URL fuel (attempt + 1) maxAttempts taskId originalUrl
              (after_poll taskId rest w).
Proof.
  intros Hget Hc Hf Hne. cbn [poll_loop].
  unfold bind at 1, try_catch at 1, bind at 1, http_get.
  cbn [log get_replies]. rewrite Hget, Hc, Hf. unfold throw at 1.
  destruct (Z.eqb_spec attempt maxAttempts) as [Heq|_]; [contradiction|].
  unfold bind at 1, sleep, modify, ret, log, after_poll.
  cbn [config post_replies get_replies embed_replies db_replies abort_reads
       table journal].
  rewrite <- app_assoc. reflexivity.
Qed.

(** On the last attempt the same reply ends the poller, with the error of
    the exhausted poller and not with the cause of the task. *)
Lemma poll_loop_last_failed (fuel : nat) (maxAttempts : Z)
  (taskId originalUrl : jsstring) (d : ResponseData) (rest : list HttpReply)
  (w : World) :
  get_replies w = HttpData d :: rest ->
  is_completed d = false ->
  is_failed d = true ->
  fst (poll_loop new_URL (S fuel) maxAttempts maxAttempts taskId originalUrl w)
  = Throw (polling_failed maxAttempts).
Proof.
  intros Hget Hc Hf. cbn [poll_loop].
  unfold bind at 1, try_catch at 1, bind at 1, http_get.
  cbn [log get_replies]. rewrite Hget, Hc, Hf. unfold throw at 1.
  rewrite Z.eqb_refl. reflexivity.
Qed.

(** A reply that is not terminal makes the poller wait and go on. *)
Lemma poll_loop_after_pending (fuel : nat) (attempt maxAttempts : Z)
  (taskId originalUrl : jsstring) (d : ResponseData) (rest : list HttpReply)
  (w : World) :
  get_replies w = HttpData d :: rest ->
  is_completed d = false ->
  is_failed d = false ->
  poll_loop new_URL (S fuel) attempt maxAttempts taskId originalUrl w
  = poll_loop new_URL fuel (attempt + 1) maxAttempts taskId originalUrl
              (after_poll taskId rest w).
Proof.
  intros Hget Hc Hf. cbn [poll_loop].
  unfold bind at 1, try_catch at 1, bind at 1, http_get.
  cbn [log get_replies]. rewrite Hget, Hc, Hf.
  unfold bind at 1, sleep, modify, ret, log, after_poll.
  cbn [config post_replies get_replies embed_replies db_replies abort_reads
       table journal].
  rewrite <- app_assoc. reflexivity.
Qed.

(** The second half of C3 holds: after [maxAttempts] replies that are
    not terminal the poller has polled [maxAttempts] times and throws the
    error of the timed-out poller. *)
Lemma poll_loop_all_pending (ds : list ResponseData) : forall attempt
  maxAttempts taskId originalUrl rest w,
  get_replies w = List.map HttpData ds ++ rest ->
  Forall (fun d => is_completed d = false /\ is_failed d = false) ds ->
  exists w',
    poll_loop new_URL (List.length ds) attempt maxAttempts taskId originalUrl w
    = (Throw polling_timed_out, w')
    /\ journal w'
       = journal w
         ++ List.concat (repeat [Get taskId; Sleep PollWait 2000]
                                (List.length ds)).
Proof.
  induction ds as [|d ds IH]; intros attempt maxAttempts taskId originalUrl
    rest w Hget HF.
  - exists w. split; [reflexivity|]. simpl. symmetry. apply app_nil_r.
  - inversion HF as [|? ? [Hc Hf] HF']; subst.
    cbn [List.length]. simpl in Hget.
    rewrite (@poll_loop_after_pending (List.length ds) attempt maxAttempts
               taskId originalUrl d _ w Hget Hc Hf).
    destruct (IH (attempt + 1) maxAttempts taskId originalUrl rest
                 (after_poll taskId (List.map HttpData ds ++ rest) w)
                 eq_refl HF') as [w' [Hrun Hj]].
    exists w'. split; [exact Hrun|].
    rewrite Hj. cbn [after_poll journal repeat List.concat].
    rewrite <- !app_assoc. reflexivity.
Qed.

Lemma pollForResults_exhausted (ds : list ResponseData)
  (taskId originalUrl : jsstring) (rest : list HttpReply) (w : World) :
  get_replies w = List.map HttpData ds ++ rest ->
  Forall (fun d => is_completed d = false /\ is_failed d = false) ds ->
  exists w',
    pollForResults new_URL taskId originalUrl (Z.of_nat (List.length ds)) w
    = (Throw polling_timed_out, w')
    /\ journal w'
       = journal w
         ++ List.concat (repeat [Get taskId; Sleep PollWait 2000]
                                (List.length ds)).
Proof.
  intros Hget HF. unfold pollForResults. rewrite Nat2Z.id.
  apply (@poll_loop_all_pending ds 1 (Z.of_nat (List.length ds)) taskId
           originalUrl rest w Hget HF).
Qed.

End WithURL.

Definition task_reply (status error : string) : HttpReply :=
  HttpData (mkResponseData
              (mkPageResult [] true [] (MdString (js "done")) [] [] []
                            (VStr []) LinksAbsent no_metadata [])
              [] None (js status) [] (js error)).

(** The backend reports the task as failed, then as completed. *)
Definition failed_then_completed : World :=
  mkWorld default_config []
          [task_reply "failed" "boom"; task_reply "completed" ""]
          [] [] [] [] [].

(** C3 fails on the code. The first reply has the terminal state
    [failed], yet the poller waits, polls a second time and returns the
    result of the second reply instead of failing with the cause of the
    task. *)
Theorem pollForResults_polls_after_failed :
  let run := pollForResults simple_parse (js "t1") (js "https://e.com/")
                            default_maxAttempts failed_then_completed in
  (exists r, fst run = Return r /\ cr_status r = completed)
  /\ fst run <> Throw (Error (js "Task failed: boom"))
  /\ journal (snd run)
     = [Get (js "t1"); Sleep PollWait 2000; Get (js "t1")].
Proof.
  cbv zeta. split; [|split].
  - eexists. split; vm_compute; reflexivity.
  - vm_compute. discriminate.
  - vm_compute. reflexivity.
Qed.

End PollerSpec.

(* ================================================================== *)
(** * The strategy chain of the smart site crawl *)
(* ================================================================== *)

Module StrategySpec.
Local Open Scope monad_scope.

Section WithURL.

Variable new_URL : jsstring -> option URL.

(** The manual strategy never throws: a failure of its steps becomes a
    failed result. *)
Lemma smartSiteCrawlManual_returns (url : jsstring) (w : World) :
  exists r, fst (smartSiteCrawlManual new_URL url w) = Return r.
Proof.
  unfold smartSiteCrawlManual, try_catch.
  destruct (manual_steps new_URL url w) as [[r|e] w'];
    eexists; reflexivity.
Qed.

(** So when the native strategy throws and then the steps of the manual
    strategy throw, the result is the failed result of the manual strategy
    alone; the handler that joins both causes is never reached. *)
Lemma smartSiteCrawl_both_fail (url : jsstring) (w w1 w2 : World)
  (nativeError manualError : exn) :
  abort_reads w = [] ->
  abort_reads w1 = [] ->
  smartSiteCrawlNative new_URL url w = (Throw nativeError, w1) ->
  manual_steps new_URL url w1 = (Throw manualError, w2) ->
  smartSiteCrawl new_URL url w
  = (Return (failed_result url (smart_crawl_failed manualError)), w2).
Proof.
  intros Ha Ha1 Hnative Hmanual.
  unfold smartSiteCrawl, try_catch at 1, bind at 1, read_aborted at 1.
  rewrite Ha, Hnative.
  unfold bind at 1, read_aborted at 1. rewrite Ha1.
  unfold try_catch at 1, smartSiteCrawlManual, try_catch at 1.
  rewrite Hmanual. reflexivity.
Qed.

End WithURL.

(** The backend answers no call. *)
Definition backend_unreachable : World :=
  mkWorld default_config
          [HttpFails (Error (js "Request failed with status code 500"));
           HttpFails (Error (js "Request failed with status code 500"))]
          [] [] [] [] [] [].

(** C5 fails on the code. For the seed [example.com] and a backend that
    answers no call, the native strategy fails (the request) and the
    manual strategy fails (the seed is no URL); the crawl returns a failed
    result, but its error is the message of the manual strategy alone, not
    the message that joins the native and the manual cause. *)
Theorem smartSiteCrawl_drops_native_cause :
  let url := js "example.com" in
  let native := Error (js "Native deep crawl failed: Request failed with status code 500") in
  let manual := Error (js "Invalid URL") in
  fst (smartSiteCrawlNative simple_parse url backend_unreachable) = Throw native
  /\ fst (manual_steps simple_parse url
            (snd (smartSiteCrawlNative simple_parse url backend_unreachable)))
     = Throw manual
  /\ fst (smartSiteCrawl simple_parse url backend_unreachable)
     = Return (failed_result url (js "Smart crawl failed: Invalid URL"))
  /\ js "Smart crawl failed: Invalid URL" <> all_methods_failed native manual.
Proof.
  cbv zeta. repeat split; try (vm_compute; reflexivity).
  vm_compute. discriminate.
Qed.

End StrategySpec.

(* ================================================================== *)
(** * The batch scheduler *)
(* ================================================================== *)

Module SchedulerFacts.
Local Open Scope monad_scope.

(** ** What a computation respects *)

Section Respects.

Variables (S : Type) (R : S -> S -> Prop).
Hypothesis R_refl : forall s, R s s.
Hypothesis R_trans : forall s1 s2 s3, R s1 s2 -> R s2 s3 -> R s1 s3.

(** Whatever [m] returns, it takes a state to a state related to it. *)
Definition respects {A} (m : M S A) : Prop := forall s, R s (snd (m s)).

Lemma respects_ret {A} (a : A) : respects (ret a).
Proof. intros s. apply R_refl. Qed.

Lemma respects_throw {A} (e : exn) : respects (@throw S A e).
Proof. intros s. apply R_refl. Qed.

Lemma respects_get : respects (@get S).
Proof. intros s. apply R_refl. Qed.

Lemma respects_bind {A B} (m : M S A) (k : A -> M S B) :
  respects m -> (forall a, respects (k a)) -> respects (bind m k).
Proof.
  intros Hm Hk s. unfold bind. specialize (Hm s).
  destruct (m s) as [[a|e] s1]; cbn [snd] in *; [|exact Hm].
  eapply R_trans; [exact Hm | apply Hk].
Qed.

Lemma respects_try_catch {A} (m : M S A) (h : exn -> M S A) :
  respects m -> (forall e, respects (h e)) -> respects (try_catch m h).
Proof.
  intros Hm Hh s. unfold try_catch. specialize (Hm s).
  destruct (m s) as [[a|e] s1]; cbn [snd] in *; [exact Hm|].
  eapply R_trans; [exact Hm | apply Hh].
Qed.

Lemma respects_for_each {A} (l : list A) (f : A -> M S unit) :
  (forall x, respects (f x)) -> respects (for_each l f).
Proof.
  intros Hf. induction l as [|x l IH]; cbn [for_each].
  - apply respects_ret.
  - apply respects_bind; [apply Hf | intros _; exact IH].
Qed.

Lemma respects_fold_each {A B} (l : list A) (f : B -> A -> M S B) :
  (forall b x, respects (f b x)) -> forall b, respects (fold_each l b f).
Proof.
  intros Hf. induction l as [|x l IH]; intros b; cbn [fold_each].
  - apply respects_ret.
  - apply respects_bind; [apply Hf | intros b'; apply IH].
Qed.

End Respects.

(** ** The actions inside an attempt *)

(** The actions of the scheduler itself: a request for a batch, a wait
    before a retry or between two batches, and the start of a batch. All
    others happen inside an attempt. *)
Definition internal (a : Action) : bool :=
  match a with
  | Post _ => false
  | Sleep RetryBackoff _ => false
  | Sleep CoolOff _ => false
  | Emit (batch_start _ _ _) => false
  | _ => true
  end.

(** The journal as the scheduler sees it. *)
Definition schedule (j : list Action) : list Action :=
  List.filter (fun a => negb (internal a)) j.

Lemma schedule_app j1 j2 : schedule (j1 ++ j2) = schedule j1 ++ schedule j2.
Proof. apply filter_app. Qed.

(** [w'] is [w] after some internal actions. *)
Definition advances (w w' : World) : Prop :=
  schedule (journal w') = schedule (journal w).

Lemma advances_refl w : advances w w.
Proof. reflexivity. Qed.

Lemma advances_trans w1 w2 w3 : advances w1 w2 -> advances w2 w3 -> advances w1 w3.
Proof. unfold advances. congruence. Qed.

(** A computation whose actions are all internal. *)
Definition quiet {A} (m : M World A) : Prop := respects advances m.

Ltac quiet_step :=
  unfold quiet;
  first
    [ apply (respects_ret advances advances_refl)
    | apply (respects_throw advances advances_refl)
    | apply (respects_get advances advances_refl)
    | apply (respects_bind advances_trans); [|intros ?]
    | apply (respects_try_catch advances_trans); [|intros ?]
    | apply (respects_for_each advances_refl advances_trans); intros ?
    | apply (respects_fold_each advances_refl advances_trans); intros ? ? ].

Lemma quiet_log (a : Action) :
  internal a = true -> quiet (modify (log a)).
Proof.
  intros Ha w. unfold advances, modify, log. cbn [snd journal].
  rewrite schedule_app. unfold schedule at 2. cbn [List.filter].
  rewrite Ha. apply app_nil_r.
Qed.

Lemma quiet_http_get taskId : quiet (http_get taskId).
Proof.
  intros w. unfold http_get.
  pose proof (@quiet_log (Get taskId) eq_refl w) as H.
  unfold advances, modify in *. cbn [snd] in H.
  destruct (get_replies (log (Get taskId) w)) as [|[d|e] rest];
    cbn [snd journal] in *; exact H.
Qed.

Lemma quiet_embeddings_create input : quiet (embeddings_create input).
Proof.
  intros w. unfold embeddings_create.
  pose proof (@quiet_log (Embed input) eq_refl w) as H.
  unfold advances, modify in *. cbn [snd] in H.
  destruct (embed_replies (log (Embed input) w)) as [|r rest];
    cbn [snd journal] in *; exact H.
Qed.

Lemma quiet_db_upsert d : quiet (db_upsert d).
Proof.
  intros w. unfold db_upsert.
  pose proof (@quiet_log (Upsert d) eq_refl w) as H.
  unfold advances, modify in *. cbn [snd] in H.
  destruct (db_replies (log (Upsert d) w)) as [|[|e|] rest];
    cbn [snd journal] in *; exact H.
Qed.

Lemma quiet_generateEmbedding text : quiet (generateEmbedding text).
Proof.
  unfold generateEmbedding, isConfigured.
  quiet_step; [repeat quiet_step|].
  destruct (negb _); [quiet_step|].
  quiet_step; [|quiet_step].
  destruct (1 <? _)%nat; [|apply quiet_embeddings_create].
  quiet_step; [|quiet_step].
  quiet_step. quiet_step; [apply quiet_embeddings_create | quiet_step].
Qed.

Section WithURL.

Variable new_URL : jsstring -> option URL.

Lemma quiet_saveCrawlResultAsDocument crawlResult :
  quiet (saveCrawlResultAsDocument new_URL crawlResult).
Proof.
  unfold saveCrawlResultAsDocument, isConfigured, log_sample. cbv zeta.
  quiet_step; [|quiet_step].
  quiet_step; [destruct (cr_content crawlResult); quiet_step|].
  quiet_step; [destruct (cr_markdown crawlResult); quiet_step|].
  quiet_step; [repeat quiet_step|].
  quiet_step.
  { destruct (_ && _); [|quiet_step].
    quiet_step; [|quiet_step].
    quiet_step; [apply quiet_generateEmbedding | quiet_step]. }
  quiet_step.
  { destruct (truthy _); [quiet_step|].
    destruct (new_URL _); quiet_step. }
  quiet_step; [apply quiet_db_upsert|].
  match goal with a : DbReply |- _ => destruct a end; quiet_step.
Qed.

Lemma quiet_trimmed_truthy content : quiet (@trimmed_truthy World content).
Proof. destruct content; quiet_step. Qed.

Lemma quiet_saveIndividualPage result :
  quiet (saveIndividualPage new_URL result).
Proof.
  unfold saveIndividualPage. quiet_step; [|quiet_step].
  destruct (negb _); [quiet_step|]. cbv zeta.
  quiet_step; [apply quiet_trimmed_truthy|].
  match goal with b : bool |- _ => destruct b end; [|quiet_step].
  quiet_step; [apply quiet_saveCrawlResultAsDocument | quiet_step].
Qed.

Lemma quiet_saveIndividualPages_from results : forall i,
  quiet (saveIndividualPages_from new_URL i results).
Proof.
  induction results as [|[result|] results IH]; intros i;
    cbn [saveIndividualPages_from]; try quiet_step; [|apply IH].
  destruct (negb _); [quiet_step|]. cbv zeta.
  quiet_step; [apply quiet_trimmed_truthy|].
  match goal with b : bool |- _ => destruct b end; [|quiet_step].
  quiet_step; [|quiet_step].
  quiet_step; [apply quiet_saveCrawlResultAsDocument | quiet_step].
Qed.

Lemma quiet_processResponse responseData originalUrl :
  quiet (processResponse new_URL responseData originalUrl).
Proof.
  unfold processResponse. destruct (rd_results responseData); [|quiet_step].
  unfold processMultipleResults, detached, saveIndividualPages.
  quiet_step; [|quiet_step].
  quiet_step; [apply quiet_saveIndividualPages_from | quiet_step].
Qed.

Lemma quiet_poll_loop fuel : forall attempt maxAttempts taskId originalUrl,
  quiet (poll_loop new_URL fuel attempt maxAttempts taskId originalUrl).
Proof.
  induction fuel as [|fuel IH]; intros attempt maxAttempts taskId originalUrl;
    cbn [poll_loop]; [quiet_step|].
  quiet_step.
  - quiet_step.
    + quiet_step; [apply quiet_http_get|].
      destruct (is_completed _).
      * quiet_step; [apply quiet_processResponse | quiet_step].
      * destruct (is_failed _); [quiet_step|].
        quiet_step; [apply (@quiet_log (Sleep PollWait 2000) eq_refl) | quiet_step].
    + destruct (_ =? _); [quiet_step|].
      quiet_step; [apply (@quiet_log (Sleep PollWait 2000) eq_refl) | quiet_step].
  - match goal with o : option CrawlResult |- _ => destruct o end;
      [quiet_step | apply IH].
Qed.

Lemma quiet_pollForResults taskId originalUrl maxAttempts :
  quiet (pollForResults new_URL taskId originalUrl maxAttempts).
Proof. unfold pollForResults. apply quiet_poll_loop. Qed.

(** ** The state of the scheduler *)

Definition successful (r : PageResult) : Prop := pr_success r = true.

(** [s'] is [s] after some internal actions, and [allResults] has gained
    no failed result. *)
Definition proceeds (s s' : BatchState) : Prop :=
  advances (fst s) (fst s')
  /\ (Forall successful (snd s) -> Forall successful (snd s')).

Lemma proceeds_refl s : proceeds s s.
Proof. split; [reflexivity | auto]. Qed.

Lemma proceeds_trans s1 s2 s3 : proceeds s1 s2 -> proceeds s2 s3 -> proceeds s1 s3.
Proof.
  intros [A B] [A' B']. split; [eapply advances_trans; eassumption | auto].
Qed.

Lemma proceeds_on_world {A} (m : M World A) :
  quiet m -> respects proceeds (@on_world World (list PageResult) A m).
Proof.
  intros Hm s. unfold on_world. specialize (Hm (fst s)).
  destruct (m (fst s)) as [r w']. cbn [snd fst] in *. split; [exact Hm | auto].
Qed.

Lemma proceeds_push (r : PageResult) :
  successful r ->
  respects proceeds
    (@on_locals World _ _ (modify (fun allResults => allResults ++ [r]))).
Proof.
  intros Hr s. unfold on_locals, modify. cbn [snd fst].
  split; [reflexivity|]. intros H. apply Forall_app. split; [exact H|].
  constructor; [exact Hr | constructor].
Qed.

Ltac sched_step :=
  first
    [ apply (respects_ret proceeds proceeds_refl)
    | apply (respects_throw proceeds proceeds_refl)
    | apply (respects_bind proceeds_trans); [|intros ?]
    | apply (respects_for_each proceeds_refl proceeds_trans); intros ? ].

(** What follows the request in an attempt. *)
Definition after_post (batch : list jsstring) (batchNumber : Z)
  (originalUrl : jsstring) (response : ResponseData) : M BatchState unit :=
  handled <-
    (if truthy (rd_task_id response) && negb (is_some (rd_results response))
     then
       asyncResult <-
         on_world (pollForResults new_URL (rd_task_id response) originalUrl
                                  default_maxAttempts) ;;
       ret (is_some (crawled_urls (cr_metadata asyncResult)))
     else ret false) ;;
  if (handled : bool) then ret tt
  else
    match rd_results response with
    | Some results =>
        for_each results
          (fun result =>
             match result with
             | Some r =>
                 if pr_success r then
                   on_world (emit (url_crawled (pr_url r))) ;;;
                   on_world (saveIndividualPage new_URL r) ;;;
                   on_locals (modify (fun allResults => allResults ++ [r]))
                 else
                   on_world
                     (emit (url_failed (pr_url r)
                              (or_else (pr_error_message r)
                                       (js "Unknown error"))))
             | None => throw (type_error "Cannot read properties of null")
             end)
    | None => throw (unexpected_format batchNumber)
    end.

Lemma attempt_batch_unfold batch batchNumber originalUrl :
  attempt_batch new_URL batch batchNumber originalUrl
  = (response <- on_world (http_post batch) ;;
     after_post batch batchNumber originalUrl response).
Proof. reflexivity. Qed.

Lemma proceeds_after_post batch batchNumber originalUrl response :
  respects proceeds (after_post batch batchNumber originalUrl response).
Proof.
  unfold after_post. sched_step.
  - destruct (_ && _); [|sched_step].
    sched_step; [|sched_step].
    apply proceeds_on_world, quiet_pollForResults.
  - match goal with b : bool |- _ => destruct b end; [sched_step|].
    destruct (rd_results response) as [results|]; [|sched_step].
    sched_step.
    match goal with o : option PageResult |- _ => destruct o as [r|] end;
      [|sched_step].
    destruct (pr_success r) eqn:Hr.
    + sched_step;
        [apply proceeds_on_world, (@quiet_log (Emit (url_crawled (pr_url r))) eq_refl)|].
      sched_step; [apply proceeds_on_world, quiet_saveIndividualPage|].
      apply proceeds_push. exact Hr.
    + apply proceeds_on_world.
      apply (@quiet_log (Emit (url_failed (pr_url r) _)) eq_refl).
Qed.

Lemma on_world_http_post batch (s : BatchState) :
  exists o w1,
    @on_world World (list PageResult) _ (http_post batch) s = (o, (w1, snd s))
    /\ schedule (journal w1) = schedule (journal (fst s)) ++ [Post batch].
Proof.
  unfold on_world, http_post.
  assert (Hlog : schedule (journal (log (Post batch) (fst s)))
                 = schedule (journal (fst s)) ++ [Post batch]).
  { unfold log. cbn [journal]. apply schedule_app. }
  destruct (post_replies (log (Post batch) (fst s))) as [|[d|e] rest];
    eexists; eexists; (split; [reflexivity | exact Hlog]).
Qed.

(** An attempt is one request for the batch and then internal actions
    only; it adds no failed result to [allResults]. *)
Lemma attempt_batch_schedule batch batchNumber originalUrl (s : BatchState) :
  let s' := snd (attempt_batch new_URL batch batchNumber originalUrl s) in
  schedule (journal (fst s')) = schedule (journal (fst s)) ++ [Post batch]
  /\ (Forall successful (snd s) -> Forall successful (snd s')).
Proof.
  cbv zeta. rewrite attempt_batch_unfold. unfold bind.
  destruct (on_world_http_post batch s) as [o [w1 [Hrun Hlog]]].
  rewrite Hrun. destruct o as [d|e]; cbn [snd fst]; [|auto].
  destruct (proceeds_after_post batch batchNumber originalUrl d (w1, snd s))
    as [H1 H2].
  cbn [fst snd] in H1, H2. unfold advances in H1.
  split; [rewrite H1; exact Hlog | exact H2].
Qed.

End WithURL.
End SchedulerFacts.
Import SchedulerFacts.

Module SchedulerSpec.
Local Open Scope monad_scope.

(** The state after the handler of a failed attempt: the wait grows with
    the number of the attempt, and there is none after the last one. *)
Definition backed_off (retryCount maxRetries coolOffDelay : Z)
  (s : BatchState) : BatchState :=
  if retryCount <? maxRetries
  then (log (Sleep RetryBackoff (coolOffDelay * retryCount)) (fst s), snd s)
  else s.

(** The next [n] attempts of the retry loop all throw. *)
Fixpoint fails_every_attempt (n : nat) (retryCount maxRetries coolOffDelay : Z)
  (attempt : M BatchState unit) (s : BatchState) : Prop :=
  match n with
  | O => True
  | S n' =>
      exists error s1,
        attempt s = (Throw error, s1)
        /\ fails_every_attempt n' (retryCount + 1) maxRetries coolOffDelay
             attempt
             (backed_off (retryCount + 1) maxRetries coolOffDelay s1)
  end.

(** A request that the backend refuses or that does not reach it. *)
Definition refused (r : HttpReply) : Prop :=
  match r with HttpFails _ => True | HttpData _ => False end.

(** The next [n] requests all fail: each gets a refusal, or no answer at
    all when the script of the replies has ended. *)
Definition requests_fail (n : nat) (w : World) : Prop :=
  Forall refused (firstn n (post_replies w)).

(** [n] requests for the batch with the waits between them, the wait
    after the [k]-th attempt being [k] times the cool-off delay. *)
Fixpoint linear_backoff (batch : list jsstring) (coolOffDelay k : Z) (n : nat)
  : list Action :=
  match n with
  | O => []
  | S O => [Post batch]
  | S n' =>
      Post batch :: Sleep RetryBackoff (coolOffDelay * k)
        :: linear_backoff batch coolOffDelay (k + 1) n'
  end.

(** The schedule of the retry loop as the code makes it. *)
Fixpoint retry_schedule (batch : list jsstring)
  (coolOffDelay maxRetries retryCount : Z) (n : nat) : list Action :=
  match n with
  | O => []
  | S n' =>
      Post batch
        :: (if retryCount + 1 <? maxRetries
            then [Sleep RetryBackoff (coolOffDelay * (retryCount + 1))]
            else [])
        ++ retry_schedule batch coolOffDelay maxRetries (retryCount + 1) n'
  end.

Lemma retry_schedule_linear batch coolOffDelay maxRetries n : forall retryCount,
  retryCount + Z.of_nat n = maxRetries ->
  retry_schedule batch coolOffDelay maxRetries retryCount n
  = linear_backoff batch coolOffDelay (retryCount + 1) n.
Proof.
  induction n as [|n IH]; intros retryCount H; [reflexivity|].
  cbn [retry_schedule]. rewrite IH by lia.
  destruct n as [|n].
  - destruct (Z.ltb_spec (retryCount + 1) maxRetries); [lia | reflexivity].
  - destruct (Z.ltb_spec (retryCount + 1) maxRetries); [reflexivity | lia].
Qed.

(** The schedule has exactly [n] requests. *)
Lemma linear_backoff_attempts batch coolOffDelay n : forall k,
  List.length (List.filter (fun a => match a with Post _ => true | _ => false end)
                           (linear_backoff batch coolOffDelay k n)) = n.
Proof.
  induction n as [|n IH]; intros k; [reflexivity|].
  destruct n as [|n]; [reflexivity|].
  change (linear_backoff batch coolOffDelay k (S (S n)))
    with (Post batch :: Sleep RetryBackoff (coolOffDelay * k)
            :: linear_backoff batch coolOffDelay (k + 1) (S n)).
  cbn [List.filter List.length]. rewrite IH. reflexivity.
Qed.

Section WithURL.

Variable new_URL : jsstring -> option URL.

Lemma schedule_backed_off retryCount maxRetries coolOffDelay (s : BatchState) :
  schedule (journal (fst (backed_off retryCount maxRetries coolOffDelay s)))
  = schedule (journal (fst s))
    ++ (if retryCount <? maxRetries
        then [Sleep RetryBackoff (coolOffDelay * retryCount)] else [])
  /\ snd (backed_off retryCount maxRetries coolOffDelay s) = snd s.
Proof.
  unfold backed_off. destruct (retryCount <? maxRetries); cbn [fst snd].
  - split; [|reflexivity]. unfold log. cbn [journal]. apply schedule_app.
  - split; [|reflexivity]. symmetry. apply app_nil_r.
Qed.

(** The retry loop on a batch whose attempts all fail. *)
Lemma retry_loop_fails batch batchNumber originalUrl maxRetries coolOffDelay
  (n : nat) : forall retryCount (s : BatchState),
  let attempt := attempt_batch new_URL batch batchNumber originalUrl in
  fails_every_attempt n retryCount maxRetries coolOffDelay attempt s ->
  exists s',
    retry_loop n retryCount maxRetries coolOffDelay attempt s = (Return tt, s')
    /\ schedule (journal (fst s'))
       = schedule (journal (fst s))
         ++ retry_schedule batch coolOffDelay maxRetries retryCount n
    /\ (Forall successful (snd s) -> Forall successful (snd s')).
Proof.
  cbv zeta. induction n as [|n IH]; intros retryCount s Hfail.
  - exists s. split; [reflexivity|]. split; [|auto].
    simpl. symmetry. apply app_nil_r.
  - destruct Hfail as [error [s1 [Hthrow Hrest]]].
    pose proof (attempt_batch_schedule new_URL batch batchNumber originalUrl s)
      as Hatt.
    cbv zeta in Hatt. rewrite Hthrow in Hatt. cbn [snd] in Hatt.
    destruct Hatt as [Hsched Hsucc].
    destruct (schedule_backed_off (retryCount + 1) maxRetries coolOffDelay s1)
      as [Hb1 Hb2].
    destruct (IH (retryCount + 1) _ Hrest) as [s' [Hrun [Hs' Hsucc']]].
    exists s'. split; [|split].
    + cbn [retry_loop]. unfold bind at 1, try_catch at 1, bind at 1.
      rewrite Hthrow. unfold bind at 1.
      unfold backed_off in Hrun.
      destruct (retryCount + 1 <? maxRetries);
        unfold on_world, sleep, modify, ret; cbn [fst snd]; exact Hrun.
    + rewrite Hs', Hb1, Hsched. cbn [retry_schedule].
      rewrite <- !app_assoc. reflexivity.
    + intros H. apply Hsucc'. rewrite Hb2. apply Hsucc, H.
Qed.

(** An attempt whose request fails throws with nothing done but the
    request. *)
Lemma attempt_batch_refused batch batchNumber originalUrl (s : BatchState) :
  Forall refused (firstn 1 (post_replies (fst s))) ->
  exists e w1,
    attempt_batch new_URL batch batchNumber originalUrl s
    = (Throw e, (w1, snd s))
    /\ journal w1 = journal (fst s) ++ [Post batch]
    /\ post_replies w1 = tl (post_replies (fst s))
    /\ table w1 = table (fst s).
Proof.
  intros Href. rewrite attempt_batch_unfold.
  unfold bind, on_world, http_post. cbn [log post_replies].
  destruct (post_replies (fst s)) as [|[d|e] replies] eqn:Hp.
  - eexists. eexists. split; [reflexivity|]. repeat split.
    cbn [log post_replies]. exact Hp.
  - inversion Href as [|? ? Hd _]. destruct Hd.
  - eexists. eexists. split; [reflexivity|]. repeat split.
Qed.

(** The retry loop on a batch whose requests all fail: the requests and
    the waits, and nothing else. *)
Lemma retry_loop_refused batch batchNumber originalUrl maxRetries coolOffDelay
  (n : nat) : forall retryCount (s : BatchState),
  requests_fail n (fst s) ->
  exists s',
    retry_loop n retryCount maxRetries coolOffDelay
               (attempt_batch new_URL batch batchNumber originalUrl) s
    = (Return tt, s')
    /\ journal (fst s')
       = journal (fst s)
         ++ retry_schedule batch coolOffDelay maxRetries retryCount n
    /\ snd s' = snd s
    /\ table (fst s') = table (fst s).
Proof.
  unfold requests_fail.
  induction n as [|n IH]; intros retryCount s Href.
  - exists s. split; [reflexivity|]. split; [|split; reflexivity].
    cbn. symmetry. apply app_nil_r.
  - destruct (@attempt_batch_refused batch batchNumber originalUrl s)
      as [e [w1 [Hthrow [Hj [Hreplies Htab]]]]].
    { destruct (post_replies (fst s)) as [|r replies]; [constructor|].
      inversion Href; subst. constructor; [assumption | constructor]. }
    set (s1 := backed_off (retryCount + 1) maxRetries coolOffDelay
                          (w1, snd s)).
    assert (Hs1 : post_replies (fst s1) = tl (post_replies (fst s))
                  /\ table (fst s1) = table (fst s)
                  /\ snd s1 = snd s
                  /\ journal (fst s1)
                     = journal (fst s) ++ Post batch
                       :: (if retryCount + 1 <? maxRetries
                           then [Sleep RetryBackoff
                                   (coolOffDelay * (retryCount + 1))]
                           else [])).
    { unfold s1, backed_off. destruct (retryCount + 1 <? maxRetries);
        cbn [fst snd log post_replies table journal];
        rewrite Hj, <- ?app_assoc; repeat split; assumption. }
    destruct Hs1 as [Hr1 [Ht1 [Hl1 Hj1]]].
    destruct (IH (retryCount + 1) s1) as [s' [Hrun [Hj' [Hl' Ht']]]].
    { rewrite Hr1. destruct (post_replies (fst s)) as [|r replies];
        [rewrite firstn_nil; constructor|].
      inversion Href; subst. assumption. }
    exists s'. split; [|split; [|split]].
    + cbn [retry_loop]. unfold bind at 1, try_catch at 1, bind at 1.
      rewrite Hthrow. unfold bind at 1.
      unfold s1, backed_off in Hrun.
      destruct (retryCount + 1 <? maxRetries);
        unfold on_world, sleep, modify, ret; cbn [fst snd]; exact Hrun.
    + rewrite Hj', Hj1. cbn [retry_schedule].
      rewrite <- app_assoc. reflexivity.
    + rewrite Hl'. exact Hl1.
    + rewrite Ht'. exact Ht1.
Qed.

(** C4, as amended. A batch whose every attempt fails is requested
    exactly [maxRetries] times (for [maxRetries >= 0]), with a wait of the
    cool-off delay times the number of the failed attempt between two
    attempts; the scheduler then goes on with the next batch: the loop
    over the batches continues from the state that the failed batch left.
    The addresses of the batch are not recorded as failed results. Apart
    from what the attempts did before they threw, the scheduler adds only
    the start event, the requests and the waits to the journal; the list
    of results never receives a page without the success flag; and when
    every attempt fails at its request, the journal gains exactly the
    start event, the requests and the waits, and the list of results and
    the table are as they were. *)
Theorem failed_batch_is_retried_then_skipped (cfg : Config)
  (totalBatches batchIndex : Z) (batch : list jsstring)
  (rest : list (list jsstring)) (originalUrl : jsstring) (s : BatchState) :
  0 <= max_retries cfg ->
  fails_every_attempt (Z.to_nat (max_retries cfg)) 0 (max_retries cfg)
    (cool_off_delay cfg)
    (attempt_batch new_URL batch (batchIndex + 1) originalUrl)
    (log (Emit (batch_start (batchIndex + 1) totalBatches batch)) (fst s),
     snd s) ->
  let plan :=
    Emit (batch_start (batchIndex + 1) totalBatches batch)
      :: linear_backoff batch (cool_off_delay cfg) 1
                        (Z.to_nat (max_retries cfg))
      ++ (if batchIndex <? totalBatches - 1
          then [Sleep CoolOff (cool_off_delay cfg)] else []) in
  exists s',
    process_batch new_URL cfg totalBatches batchIndex batch originalUrl s
    = (Return tt, s')
    /\ schedule (journal (fst s')) = schedule (journal (fst s)) ++ plan
    /\ List.length
         (List.filter (fun a => match a with Post _ => true | _ => false end)
            (linear_backoff batch (cool_off_delay cfg) 1
                            (Z.to_nat (max_retries cfg))))
       = Z.to_nat (max_retries cfg)
    /\ (Forall successful (snd s) -> Forall successful (snd s'))
    /\ (requests_fail (Z.to_nat (max_retries cfg)) (fst s) ->
        journal (fst s') = journal (fst s) ++ plan
        /\ snd s' = snd s
        /\ table (fst s') = table (fst s))
    /\ batch_loop new_URL cfg totalBatches batchIndex (batch :: rest)
                  originalUrl s
       = batch_loop new_URL cfg totalBatches (batchIndex + 1) rest
                    originalUrl s'.
Proof.
  intros Hmax Hfail plan.
  destruct (@retry_loop_fails batch (batchIndex + 1) originalUrl
              (max_retries cfg) (cool_off_delay cfg)
              (Z.to_nat (max_retries cfg)) 0 _ Hfail)
    as [s1 [Hrun [Hsched Hsucc]]].
  rewrite retry_schedule_linear in Hsched by lia.
  cbn [fst snd] in Hsched, Hsucc.
  set (s' := if batchIndex <? totalBatches - 1
             then (log (Sleep CoolOff (cool_off_delay cfg)) (fst s1), snd s1)
             else s1).
  assert (Hproc : process_batch new_URL cfg totalBatches batchIndex batch
                                originalUrl s = (Return tt, s')).
  { unfold process_batch. cbv zeta. unfold bind at 1, on_world at 1, emit, modify.
    cbn [fst snd]. unfold bind at 1. rewrite Hrun. unfold s'.
    destruct (batchIndex <? totalBatches - 1); [|reflexivity].
    unfold on_world, sleep, modify. reflexivity. }
  exists s'. split; [exact Hproc|]. split; [|split; [|split; [|split]]].
  - unfold s', plan. destruct (batchIndex <? totalBatches - 1); cbn [fst].
    + unfold log at 1. cbn [journal]. rewrite schedule_app, Hsched.
      unfold log at 1. cbn [journal]. rewrite schedule_app.
      rewrite <- !app_assoc. reflexivity.
    + rewrite Hsched. unfold log at 1. cbn [journal]. rewrite schedule_app.
      rewrite app_nil_r, <- !app_assoc. reflexivity.
  - apply linear_backoff_attempts.
  - intros H. unfold s'.
    destruct (batchIndex <? totalBatches - 1); cbn [snd]; apply Hsucc, H.
  - intros Href.
    destruct (@retry_loop_refused batch (batchIndex + 1) originalUrl
                (max_retries cfg) (cool_off_delay cfg)
                (Z.to_nat (max_retries cfg)) 0
                (log (Emit (batch_start (batchIndex + 1) totalBatches batch))
                     (fst s), snd s) Href)
      as [s1' [Hrun' [Hj [Hl Ht]]]].
    rewrite Hrun in Hrun'. inversion Hrun'; subst s1'. clear Hrun'.
    rewrite retry_schedule_linear in Hj by lia.
    cbn [fst snd log journal table] in Hj, Hl, Ht.
    unfold s', plan. destruct (batchIndex <? totalBatches - 1);
      cbn [fst snd log journal table]; rewrite Hj, <- ?app_assoc;
      rewrite ?app_nil_r; repeat split; assumption.
  - cbn [batch_loop]. unfold bind at 1. rewrite Hproc. reflexivity.
Qed.

End WithURL.

Definition first_batch : list jsstring := [site "/a"; site "/b"].

Lemma failed_batch_is_retried_then_skipped_witness :
  exists s',
    process_batch simple_parse default_config 2 0 first_batch (site "/")
                  (offline_world, [])
    = (Return tt, s')
    /\ journal (fst s')
       = [Emit (batch_start 1 2 first_batch);
          Post first_batch; Sleep RetryBackoff 5000;
          Post first_batch; Sleep RetryBackoff 10000;
          Post first_batch;
          Sleep CoolOff 5000]
    /\ snd s' = []
    /\ table (fst s') = []
    /\ batch_loop simple_parse default_config 2 0
                  [first_batch; [site "/c"]] (site "/") (offline_world, [])
       = batch_loop simple_parse default_config 2 1 [[site "/c"]] (site "/") s'.
Proof.
  destruct (@failed_batch_is_retried_then_skipped simple_parse default_config
              2 0 first_batch [[site "/c"]] (site "/") (offline_world, []))
    as [s' [Hrun [_ [_ [_ [Hquiet Hnext]]]]]].
  - vm_compute. discriminate.
  - cbn [fails_every_attempt Z.to_nat default_config max_retries Pos.to_nat
         Pos.iter_op Nat.add].
    eexists. eexists. split; [vm_compute; reflexivity|].
    eexists. eexists. split; [vm_compute; reflexivity|].
    eexists. eexists. split; [vm_compute; reflexivity|].
    exact I.
  - destruct Hquiet as [Hj [Hl Ht]]; [constructor|].
    exists s'. split; [exact Hrun|]. split; [exact Hj|].
    split; [exact Hl|]. split; [exact Ht | exact Hnext].
Defined.

(** C4 as stated fails: after the three failed attempts at the only
    batch, the list of results is empty and no event reports its addresses
    as failed; the run ends with a summary that counts no page. *)
Lemma failed_batch_leaves_no_record :
  snd (snd (batch_loop simple_parse default_config 1 0 [first_batch]
                       (site "/") (offline_world, [])))
  = []
  /\ journal (snd (intelligentBatchCrawl simple_parse first_batch (site "/")
                                         offline_world))
     = [Emit (batch_info 2 1 50);
        Emit (batch_start 1 1 first_batch);
        Post first_batch; Sleep RetryBackoff 5000;
        Post first_batch; Sleep RetryBackoff 10000;
        Post first_batch;
        Emit (crawl_complete 2 0 1)].
Proof. split; vm_compute; reflexivity. Qed.

(** A reply that an attempt handles in part: a page that succeeded, a
    page that failed, and a null entry at which the attempt throws. *)
Definition partial_reply : HttpReply :=
  let page ok :=
    mkPageResult (site "/a") ok [] MdAbsent [] [] [] (VStr []) LinksAbsent
                 no_metadata [] in
  HttpData (mkResponseData (page false) [] (Some [Some (page true);
                                                  Some (page false); None])
                           [] [] []).

Definition partial_world : World :=
  mkWorld default_config [partial_reply; partial_reply; partial_reply]
          [] [] [] [] [] [].

(** What the amended claim says of such a batch: every attempt throws,
    after it has added the successful page to the results and reported
    the failed one; the three attempts leave three copies of the
    successful page in the list and three events for the failed page in
    the journal, and nothing records that the batch itself failed. *)
Example partly_handled_batch :
  let s' := snd (process_batch simple_parse default_config 1 0 first_batch
                               (site "/") (partial_world, [])) in
  List.map pr_success (snd s') = [true; true; true]
  /\ schedule (journal (fst s'))
     = [Emit (batch_start 1 1 first_batch);
        Post first_batch; Sleep RetryBackoff 5000;
        Post first_batch; Sleep RetryBackoff 10000;
        Post first_batch]
  /\ List.filter (fun a => match a with
                           | Emit (url_failed _ _) => true
                           | _ => false
                           end) (journal (fst s'))
     = repeat (Emit (url_failed (site "/a") (js "Unknown error"))) 3.
Proof. cbv zeta. repeat split; vm_compute; reflexivity. Qed.

End SchedulerSpec.

(* ================================================================== *)
(** * Further properties of the embeddings service *)
(* ================================================================== *)

Module TrimFacts.

(** A string that does not begin with whitespace. *)
Definition clean_start (s : jsstring) : Prop :=
  match s with [] => True | c :: _ => is_ws c = false end.

Lemma trimStart_clean s : clean_start (trimStart s).
Proof.
  induction s as [|c s IH]; simpl; [exact I|].
  destruct (is_ws c) eqn:E; [exact IH | exact E].
Qed.

Lemma trimStart_fixed s : clean_start s -> trimStart s = s.
Proof. destruct s as [|c s]; simpl; [reflexivity | intros ->; reflexivity]. Qed.

Lemma trimEnd_clean_end s : clean_start (rev (trimEnd s)).
Proof. unfold trimEnd. rewrite rev_involutive. apply trimStart_clean. Qed.

Lemma trimEnd_clean_start s : clean_start s -> clean_start (trimEnd s).
Proof.
  intros H. destruct (trimEnd_split s) as [post [Heq _]].
  destruct (trimEnd s) as [|c t]; [exact I|].
  rewrite Heq in H. exact H.
Qed.

Lemma trimEnd_fixed s : clean_start (rev s) -> trimEnd s = s.
Proof.
  intros H. unfold trimEnd. rewrite (trimStart_fixed _ H). apply rev_involutive.
Qed.

(** [trim] gives a string that [trim] leaves alone. *)
Lemma trim_trim s : trim (trim s) = trim s.
Proof.
  unfold trim at 1.
  rewrite (trimStart_fixed (trim s)).
  - apply trimEnd_fixed. apply trimEnd_clean_end.
  - apply trimEnd_clean_start, trimStart_clean.
Qed.

End TrimFacts.
Import TrimFacts.

Module ChunkerProps.

(** ** Every chunk that the loops push is a trimmed string *)

Section Pushed.

Variable maxTokens : Z.
Variable Q : jsstring -> Prop.
Hypothesis Q_trim : forall x, Q (trim x).

Lemma pushed_word_step st word :
  Forall Q (chunks st) -> Forall Q (chunks (word_step maxTokens st word)).
Proof.
  intros H. unfold word_step.
  destruct (estimateTokens _ <=? maxTokens); [exact H|].
  destruct (truthy (currentChunk st)); [|exact H].
  simpl. apply Forall_app. split; [exact H | constructor; [apply Q_trim | constructor]].
Qed.

Lemma pushed_words words : forall st,
  Forall Q (chunks st) ->
  Forall Q (chunks (fold_left (word_step maxTokens) words st)).
Proof.
  induction words as [|w words IH]; intros st H; simpl; [exact H|].
  apply IH, pushed_word_step, H.
Qed.

Lemma pushed_flush st : Forall Q (chunks st) -> Forall Q (chunks (flush st)).
Proof.
  intros H. unfold flush, push_current.
  destruct (truthy (currentChunk st)); [|exact H].
  simpl. apply Forall_app. split; [exact H | constructor; [apply Q_trim | constructor]].
Qed.

Lemma pushed_sentence_step st sentence :
  Forall Q (chunks st) -> Forall Q (chunks (sentence_step maxTokens st sentence)).
Proof.
  intros H. unfold sentence_step.
  destruct (estimateTokens _ <=? maxTokens); [exact H|].
  destruct (maxTokens <? estimateTokens sentence).
  - apply pushed_words, pushed_flush, H.
  - simpl. apply pushed_flush, H.
Qed.

Lemma pushed_sentences sentences : forall st,
  Forall Q (chunks st) ->
  Forall Q (chunks (fold_left (sentence_step maxTokens) sentences st)).
Proof.
  induction sentences as [|s sentences IH]; intros st H; simpl; [exact H|].
  apply IH, pushed_sentence_step, H.
Qed.

Lemma pushed_paragraph_step st paragraph :
  Forall Q (chunks st) ->
  Forall Q (chunks (paragraph_step maxTokens st paragraph)).
Proof.
  intros H. unfold paragraph_step.
  destruct (estimateTokens _ <=? maxTokens); [exact H|].
  destruct (maxTokens <? estimateTokens paragraph).
  - apply pushed_sentences, pushed_flush, H.
  - simpl. apply pushed_flush, H.
Qed.

Lemma pushed_paragraphs paragraphs : forall st,
  Forall Q (chunks st) ->
  Forall Q (chunks (fold_left (paragraph_step maxTokens) paragraphs st)).
Proof.
  induction paragraphs as [|p paragraphs IH]; intros st H; simpl; [exact H|].
  apply IH, pushed_paragraph_step, H.
Qed.

End Pushed.

(** X1. The estimate of a text is at least one, it never gets smaller
    when text is added before or after, and trimming never raises it. *)
Theorem estimateTokens_grows (a b : jsstring) :
  1 <= estimateTokens a
  /\ estimateTokens a <= estimateTokens (a ++ b)
  /\ estimateTokens b <= estimateTokens (a ++ b)
  /\ estimateTokens (trim a) <= estimateTokens a.
Proof.
  split; [|split; [|split]].
  - unfold estimateTokens, split_regex_plus.
    pose proof (pieces_pos is_ws false a).
    pose proof (count_class_nonneg is_punct a).
    pose proof (count_class_nonneg is_ws a).
    assert (0 <= (count_class is_ws a + 3) / 4) by (apply Z.div_pos; lia).
    lia.
  - apply estimateTokens_app_l.
  - apply estimateTokens_app_r.
  - apply estimateTokens_trim.
Qed.

(** X2. When the text is above the bound, no chunk that [chunkText]
    returns is empty and none begins or ends with whitespace: each is its
    own trimmed form. *)
Theorem chunkText_chunks_trimmed (text : jsstring) (maxTokens : Z)
  (chunk : jsstring) :
  maxTokens < estimateTokens text ->
  In chunk (chunkText text maxTokens) ->
  chunk <> [] /\ trim chunk = chunk.
Proof.
  intros Hlt Hin. unfold chunkText in Hin.
  destruct (Z.leb_spec (estimateTokens text) maxTokens); [lia|].
  apply filter_In in Hin. destruct Hin as [Hin Hlen].
  split.
  - intros ->. discriminate Hlen.
  - set (st := fold_left (paragraph_step maxTokens) (split_blank_line text)
                         (mkChunkState [] [])) in *.
    assert (HF : Forall (fun c => trim c = c) (chunks st)).
    { apply pushed_paragraphs; [intros x; apply trim_trim | constructor]. }
    rewrite Forall_forall in HF.
    destruct (truthy (trim (currentChunk st))); [|apply HF, Hin].
    apply in_app_or in Hin. destruct Hin as [Hin|[<-|[]]];
      [apply HF, Hin | apply trim_trim].
Qed.

Lemma chunkText_chunks_trimmed_witness :
  js "two,,,," <> [] /\ trim (js "two,,,,") = js "two,,,,".
Proof.
  apply (@chunkText_chunks_trimmed (js "  one   two,,,, three  ") 2
           (js "two,,,,")).
  - vm_compute. reflexivity.
  - vm_compute. right. left. reflexivity.
Defined.

End ChunkerProps.

Module EmbeddingProps.
Local Open Scope monad_scope.

(** The world after some calls to the embedding backend. *)
Definition after_embeds (inputs : list jsstring) (rest : list (outcome vector))
  (w : World) : World :=
  mkWorld (config w) (post_replies w) (get_replies w) rest (db_replies w)
          (abort_reads w) (table w) (journal w ++ List.map Embed inputs).

(** The inputs that [generateEmbedding] sends for a text: its chunks when
    there are several, else the text, each cut by the safety check. *)
Definition requests (text : jsstring) : list jsstring :=
  let chunks := chunkText text default_maxTokens in
  if (1 <? List.length chunks)%nat
  then List.map truncate_if_large chunks
  else [truncate_if_large text].

Lemma after_embeds_nil w : after_embeds [] (embed_replies w) w = w.
Proof. unfold after_embeds. simpl. rewrite app_nil_r. destruct w; reflexivity. Qed.

Lemma embeddings_create_run input r rest w :
  embed_replies w = r :: rest ->
  embeddings_create input w = (r, after_embeds [input] rest w).
Proof.
  intros H. unfold embeddings_create. cbn [log embed_replies]. rewrite H.
  reflexivity.
Qed.

Lemma after_embeds_cons input inputs rest rest' w :
  after_embeds inputs rest (after_embeds [input] rest' w)
  = after_embeds (input :: inputs) rest w.
Proof.
  unfold after_embeds. cbn [config post_replies get_replies db_replies
    abort_reads table journal List.map]. rewrite <- app_assoc. reflexivity.
Qed.

(** The loop over the chunks when every call is answered. *)
Lemma embed_chunks_run chunks : forall vs rest acc w,
  List.length vs = List.length chunks ->
  embed_replies w = List.map Return vs ++ rest ->
  embed_chunks chunks acc w
  = (Return (acc ++ vs),
     after_embeds (List.map truncate_if_large chunks) rest w).
Proof.
  induction chunks as [|chunk chunks IH]; intros vs rest acc w Hlen Hrep.
  - destruct vs; [|discriminate]. simpl in Hrep. subst rest.
    cbn [embed_chunks fold_each List.map]. unfold embed_chunks. cbn [fold_each].
    rewrite after_embeds_nil, app_nil_r. reflexivity.
  - destruct vs as [|v vs]; [discriminate|]. injection Hlen as Hlen.
    unfold embed_chunks. cbn [fold_each]. unfold bind at 1, bind at 1.
    rewrite (@embeddings_create_run _ (Return v) (List.map Return vs ++ rest) w Hrep).
    unfold ret at 1.
    pose proof (IH vs rest (acc ++ [v])
                  (after_embeds [truncate_if_large chunk]
                                (List.map Return vs ++ rest) w) Hlen eq_refl)
      as Hrun.
    unfold embed_chunks in Hrun. rewrite Hrun.
    rewrite after_embeds_cons, <- app_assoc. reflexivity.
Qed.

(** The loop stops at the first call that fails. *)
Lemma embed_chunks_stops chunks : forall vs e rest acc w,
  (List.length vs < List.length chunks)%nat ->
  embed_replies w = List.map Return vs ++ Throw e :: rest ->
  embed_chunks chunks acc w
  = (Throw e,
     after_embeds (firstn (S (List.length vs))
                          (List.map truncate_if_large chunks)) rest w).
Proof.
  induction chunks as [|chunk chunks IH]; intros vs e rest acc w Hlen Hrep.
  - simpl in Hlen. lia.
  - unfold embed_chunks. cbn [fold_each]. unfold bind at 1, bind at 1.
    destruct vs as [|v vs].
    + rewrite (@embeddings_create_run _ (Throw e) rest w Hrep). reflexivity.
    + rewrite (@embeddings_create_run _ (Return v)
                 (List.map Return vs ++ Throw e :: rest) w Hrep).
      unfold ret at 1. simpl in Hlen.
      pose proof (IH vs e rest (acc ++ [v])
                    (after_embeds [truncate_if_large chunk]
                       (List.map Return vs ++ Throw e :: rest) w)
                    ltac:(lia) eq_refl) as Hrun.
      unfold embed_chunks in Hrun. rewrite Hrun.
      rewrite after_embeds_cons. reflexivity.
Qed.

Lemma generateEmbedding_unfold text w :
  openai_configured (config w) = true ->
  generateEmbedding text w
  = try_catch
      (if (1 <? List.length (chunkText text default_maxTokens))%nat
       then chunkEmbeddings <- embed_chunks (chunkText text default_maxTokens) [] ;;
            ret (average chunkEmbeddings)
       else embeddings_create (truncate_if_large text))
      (fun error =>
         throw (Error (js "Embedding generation failed: "
                       ++ message_of (js "Unknown error") error))) w.
Proof.
  intros Hcfg. unfold generateEmbedding, isConfigured, bind at 1, bind at 1, get,
    ret at 1. rewrite Hcfg. reflexivity.
Qed.

(** X3. When every call is answered, [generateEmbedding] sends one
    request per chunk, in the order of the chunks (one request with the
    text when there is at most one chunk), and nothing else happens. *)
Theorem generateEmbedding_requests (text : jsstring) (w : World)
  (vs : list vector) (rest : list (outcome vector)) :
  openai_configured (config w) = true ->
  List.length vs = List.length (requests text) ->
  embed_replies w = List.map Return vs ++ rest ->
  exists result,
    generateEmbedding text w
    = (Return result, after_embeds (requests text) rest w).
Proof.
  intros Hcfg Hlen Hrep. rewrite (generateEmbedding_unfold text w Hcfg).
  unfold requests in *. unfold try_catch.
  destruct (1 <? List.length (chunkText text default_maxTokens))%nat.
  - rewrite length_map in Hlen. unfold bind.
    rewrite (embed_chunks_run _ vs rest [] w Hlen Hrep).
    eexists. reflexivity.
  - destruct vs as [|v [|v' vs]]; try discriminate.
    rewrite (@embeddings_create_run _ (Return v) rest w Hrep).
    eexists. reflexivity.
Qed.

(** X4. When one of the calls fails, [generateEmbedding] makes no call
    after it and fails as a whole, with the cause in its message: no
    average of the chunks before the failure is returned. *)
Theorem generateEmbedding_fails_whole (text : jsstring) (w : World)
  (vs : list vector) (e : exn) (rest : list (outcome vector)) :
  openai_configured (config w) = true ->
  (List.length vs < List.length (requests text))%nat ->
  embed_replies w = List.map Return vs ++ Throw e :: rest ->
  generateEmbedding text w
  = (Throw (Error (js "Embedding generation failed: "
                   ++ message_of (js "Unknown error") e)),
     after_embeds (firstn (S (List.length vs)) (requests text)) rest w).
Proof.
  intros Hcfg Hlen Hrep. rewrite (generateEmbedding_unfold text w Hcfg).
  unfold requests in *. unfold try_catch.
  destruct (1 <? List.length (chunkText text default_maxTokens))%nat.
  - rewrite length_map in Hlen. unfold bind.
    rewrite (embed_chunks_stops _ vs e rest [] w Hlen Hrep). reflexivity.
  - destruct vs as [|v vs]; [|simpl in Hlen; lia].
    rewrite (@embeddings_create_run _ (Throw e) rest w Hrep). reflexivity.
Qed.

(** X5. A text within the default bound of 4500 estimated tokens is sent
    to the backend as it is, in one request, and the vector of the backend
    is returned unchanged. *)
Theorem generateEmbedding_short_text (text : jsstring) (w : World)
  (v : vector) (rest : list (outcome vector)) :
  openai_configured (config w) = true ->
  estimateTokens text <= default_maxTokens ->
  embed_replies w = Return v :: rest ->
  generateEmbedding text w = (Return v, after_embeds [text] rest w).
Proof.
  intros Hcfg Hfit Hrep. rewrite (generateEmbedding_unfold text w Hcfg).
  unfold chunkText. unfold default_maxTokens in *.
  destruct (Z.leb_spec (estimateTokens text) 4500); [|lia].
  cbn [List.length Nat.ltb Nat.leb]. unfold try_catch, truncate_if_large.
  destruct (Z.ltb_spec 7000 (estimateTokens text)); [lia|].
  rewrite (@embeddings_create_run _ (Return v) rest w Hrep). reflexivity.
Qed.

Definition hello : jsstring := js "Hello, world!".

Definition one_reply (r : outcome vector) : World :=
  mkWorld default_config [] [] [r] [] [] [] [].

Lemma generateEmbedding_requests_witness :
  exists result,
    generateEmbedding hello (one_reply (Return [1%float]))
    = (Return result,
       after_embeds (requests hello) [] (one_reply (Return [1%float]))).
Proof.
  apply (@generateEmbedding_requests hello (one_reply (Return [1%float]))
           [[1%float]] []); reflexivity.
Defined.

Lemma generateEmbedding_fails_whole_witness :
  generateEmbedding hello (one_reply (Throw network_error))
  = (Throw (Error (js "Embedding generation failed: Network Error")),
     after_embeds [hello] [] (one_reply (Throw network_error))).
Proof.
  apply (@generateEmbedding_fails_whole hello
           (one_reply (Throw network_error)) [] network_error []).
  - reflexivity.
  - vm_compute. lia.
  - reflexivity.
Defined.

Lemma generateEmbedding_short_text_witness :
  generateEmbedding hello (one_reply (Return [1%float]))
  = (Return [1%float], after_embeds [hello] [] (one_reply (Return [1%float]))).
Proof.
  apply (@generateEmbedding_short_text hello (one_reply (Return [1%float]))
           [1%float] []).
  - reflexivity.
  - vm_compute. discriminate.
  - reflexivity.
Defined.

(** X6. The sum of two vectors of different dimensions has the larger
    one; where the running sum had no component yet, the result is NaN,
    and where the new vector has none, the sum keeps its component. *)
Theorem add_into_dimensions (avgEmbedding embedding : vector) :
  List.length (add_into avgEmbedding embedding)
  = Nat.max (List.length avgEmbedding) (List.length embedding)
  /\ (forall i, (List.length avgEmbedding <= i < List.length embedding)%nat ->
        nth i (add_into avgEmbedding embedding) PrimFloat.zero = PrimFloat.nan)
  /\ (forall i, (List.length embedding <= i)%nat ->
        nth i (add_into avgEmbedding embedding) PrimFloat.zero
        = nth i avgEmbedding PrimFloat.zero).
Proof.
  revert avgEmbedding.
  induction embedding as [|e embedding IH]; intros avg.
  - simpl. split; [lia|]. split; [intros i Hi; lia | reflexivity].
  - destruct avg as [|a avg]; cbn [add_into List.length].
    + destruct (IH []) as [H1 [H2 H3]]. simpl in H1.
      split; [simpl; rewrite H1; reflexivity|]. split.
      * intros [|i] Hi; [reflexivity|]. cbn [nth]. apply H2. simpl. lia.
      * intros [|i] Hi; [lia|]. cbn [nth]. rewrite H3 by lia.
        destruct i; reflexivity.
    + destruct (IH avg) as [H1 [H2 H3]].
      split; [simpl; rewrite H1; reflexivity|]. split.
      * intros [|i] Hi; [lia|]. cbn [nth]. apply H2. lia.
      * intros [|i] Hi; [lia|]. cbn [nth]. apply H3. lia.
Qed.

End EmbeddingProps.

(* ================================================================== *)
(** * Further properties of the link filter *)
(* ================================================================== *)

Module PrioritiserProps.

Lemma filter_all {A} (f : A -> bool) (l : list A) :
  Forall (fun x => f x = true) l -> List.filter f l = l.
Proof.
  induction 1 as [|x l Hx _ IH]; simpl; [reflexivity|].
  rewrite Hx, IH. reflexivity.
Qed.

(** Sorting a sorted list changes nothing. *)
Lemma sort_sorted_same (l : list (jsstring * Z)) :
  StronglySorted by_priority l -> sort_by_priority l = l.
Proof.
  induction 1 as [|x l Hl IH Hx]; [reflexivity|].
  cbn [sort_by_priority fold_right]. fold (sort_by_priority l). rewrite IH.
  destruct l as [|y l']; [reflexivity|]. cbn [insert_by_priority].
  inversion Hx as [|? ? Hxy _]; subst. unfold by_priority in Hxy.
  destruct (Z.leb_spec (snd x) (snd y)); [reflexivity | lia].
Qed.

Lemma slice0_all {A} (a : list A) (end_ : Z) :
  Z.of_nat (List.length a) <= end_ -> slice0 a end_ = a.
Proof.
  intros H. unfold slice0. destruct (Z.ltb_spec end_ 0); [lia|].
  rewrite Z.min_r by lia. rewrite Nat2Z.id. apply firstn_all.
Qed.

Section WithURL.

Variable new_URL : jsstring -> option URL.

Lemma with_priority_keys (urls : list jsstring) (items : list (jsstring * Z)) :
  with_priority new_URL urls = Some items ->
  List.map fst items = urls
  /\ Forall (fun a => snd a = priority_key new_URL (fst a)) items.
Proof.
  revert items. induction urls as [|url urls IH]; intros items H.
  - cbn [with_priority] in H. injection H as <-. split; constructor.
  - cbn [with_priority] in H.
    destruct (priority new_URL url) as [p|] eqn:Hp; [|discriminate].
    destruct (with_priority new_URL urls) as [items'|]; [|discriminate].
    injection H as <-. destruct (IH items' eq_refl) as [H1 H2].
    split; [simpl; rewrite H1; reflexivity|].
    constructor; [|exact H2]. cbn [fst snd]. unfold priority_key.
    rewrite Hp. reflexivity.
Qed.

Lemma sorted_by_key_items (items : list (jsstring * Z)) :
  Forall (fun a => snd a = priority_key new_URL (fst a)) items ->
  StronglySorted
    (fun a b => priority_key new_URL a <= priority_key new_URL b)
    (List.map fst items) ->
  StronglySorted by_priority items.
Proof.
  induction items as [|x items IH]; intros HF HS; [constructor|].
  inversion HF as [|? ? Hx HF']; subst.
  cbn [List.map] in HS. inversion HS as [|? ? HS' Hall]; subst.
  constructor; [apply IH; assumption|].
  rewrite Forall_forall in *. intros y Hy.
  specialize (Hall (fst y) (in_map fst _ _ Hy)). specialize (HF' y Hy).
  cbv beta in HF'. unfold by_priority. lia.
Qed.

(** The shape of every result of the method. *)
Lemma filterAndPrioritizeUrls_shape (urls : list jsstring) (baseUrl : jsstring)
  (base : URL) (w : World) (final : list jsstring) :
  new_URL baseUrl = Some base ->
  fst (filterAndPrioritizeUrls new_URL urls baseUrl w) = Return final ->
  exists items n,
    final = firstn n (List.map fst (sort_by_priority items))
    /\ final = slice0 (List.map fst (sort_by_priority items))
                      (max_pages (config w))
    /\ List.map fst items = List.filter (accepted new_URL (hostname base)) urls
    /\ Forall (fun a => snd a = priority_key new_URL (fst a)) items.
Proof.
  intros Hbase Hrun.
  destruct (@filterAndPrioritizeUrls_returns new_URL urls baseUrl base w Hbase)
    as [w' [Hrun' _]].
  destruct (@prioritized_returns new_URL (max_pages (config w)) urls baseUrl
              base Hbase) as [items [n [Hret [Hn [Hmap Hkeys]]]]].
  rewrite Hrun', Hret in Hrun. cbn [fst] in Hrun. injection Hrun as <-.
  exists items, n. auto.
Qed.

Lemma final_accepted (urls : list jsstring) (baseUrl : jsstring)
  (base : URL) (w : World) (final : list jsstring) :
  new_URL baseUrl = Some base ->
  fst (filterAndPrioritizeUrls new_URL urls baseUrl w) = Return final ->
  Forall (fun url => accepted new_URL (hostname base) url = true) final.
Proof.
  intros Hbase Hrun.
  destruct (filterAndPrioritizeUrls_shape urls w Hbase Hrun)
    as [items [n [Hn [_ [Hmap _]]]]].
  rewrite Forall_forall. intros url Hin. rewrite Hn in Hin.
  apply firstn_In in Hin.
  apply (Permutation_in _ (Permutation_sym
           (Permutation_map fst (sort_perm items)))) in Hin.
  rewrite Hmap in Hin. apply filter_In in Hin. tauto.
Qed.


(** X8. Filtering and prioritising is idempotent: applied to its own
    result, with the same base address and the same (non-negative)
    maximum, the method returns the result as it is. *)
Theorem filterAndPrioritizeUrls_idempotent (urls : list jsstring)
  (baseUrl : jsstring) (base : URL) (w w2 : World) (final : list jsstring) :
  new_URL baseUrl = Some base ->
  0 <= max_pages (config w) ->
  config w2 = config w ->
  fst (filterAndPrioritizeUrls new_URL urls baseUrl w) = Return final ->
  fst (filterAndPrioritizeUrls new_URL final baseUrl w2) = Return final.
Proof.
  intros Hbase Hmax Hcfg Hrun.
  pose proof (final_accepted urls w Hbase Hrun) as Hacc.
  destruct (filterAndPrioritizeUrls_shape urls w Hbase Hrun)
    as [items [n [Hn [Hslice [Hmap Hkeys]]]]].
  assert (Hkeys' : Forall (fun a => snd a = priority_key new_URL (fst a))
                          (sort_by_priority items))
    by (apply (Forall_perm (sort_perm items)), Hkeys).
  assert (Hsorted : StronglySorted
            (fun a b => priority_key new_URL a <= priority_key new_URL b) final).
  { rewrite Hn. apply firstn_sorted.
    apply (@map_fst_sorted new_URL _ Hkeys'), sort_sorted. }
  assert (Hlen : Z.of_nat (List.length final) <= max_pages (config w)).
  { rewrite Hslice. apply slice0_length, Hmax. }
  destruct (@filterAndPrioritizeUrls_returns new_URL final baseUrl base w2 Hbase)
    as [w' [Hrun2 _]].
  rewrite Hrun2. cbn [fst]. unfold prioritized. rewrite Hbase, Hcfg.
  rewrite (filter_all _ Hacc).
  destruct (@with_priority_filtered new_URL (hostname base) final)
    as [items2 [H1 _]].
  rewrite (filter_all _ Hacc) in H1. rewrite H1.
  destruct (with_priority_keys final H1) as [Hmap2 Hkeys2].
  rewrite (sort_sorted_same
             (sorted_by_key_items Hkeys2 ltac:(rewrite Hmap2; exact Hsorted))).
  rewrite Hmap2, slice0_all by exact Hlen. reflexivity.
Qed.

(** X9. When the maximum is not reached, nothing that passed the filter
    is dropped: the result is a rearrangement of the accepted links. *)
Theorem filterAndPrioritizeUrls_keeps_all_accepted (urls : list jsstring)
  (baseUrl : jsstring) (base : URL) (w : World) (final : list jsstring) :
  new_URL baseUrl = Some base ->
  Z.of_nat (List.length (List.filter (accepted new_URL (hostname base)) urls))
  <= max_pages (config w) ->
  fst (filterAndPrioritizeUrls new_URL urls baseUrl w) = Return final ->
  Permutation (List.filter (accepted new_URL (hostname base)) urls) final.
Proof.
  intros Hbase Hlen Hrun.
  destruct (filterAndPrioritizeUrls_shape urls w Hbase Hrun)
    as [items [n [_ [Hslice [Hmap _]]]]].
  assert (Hperm : Permutation
                    (List.filter (accepted new_URL (hostname base)) urls)
                    (List.map fst (sort_by_priority items))).
  { rewrite <- Hmap. apply Permutation_map, sort_perm. }
  rewrite Hslice, slice0_all; [exact Hperm|].
  rewrite <- (Permutation_length Hperm). exact Hlen.
Qed.

End WithURL.

Definition mixed_links : list jsstring :=
  [site "/a/b"; site "/x#top"; site "/docs"; site "/a.pdf"; site "/"].

Example filterAndPrioritizeUrls_mixed :
  fst (filterAndPrioritizeUrls simple_parse mixed_links (site "/") offline_world)
  = Return [site "/docs"; site "/"; site "/a/b"].
Proof. vm_compute. reflexivity. Qed.


Lemma filterAndPrioritizeUrls_idempotent_witness :
  fst (filterAndPrioritizeUrls simple_parse
         [site "/docs"; site "/"; site "/a/b"] (site "/") offline_world)
  = Return [site "/docs"; site "/"; site "/a/b"].
Proof.
  apply (@filterAndPrioritizeUrls_idempotent simple_parse mixed_links
           (site "/") (mkURL (js "e.com") (js "/")) offline_world offline_world
           [site "/docs"; site "/"; site "/a/b"]).
  - reflexivity.
  - vm_compute. discriminate.
  - reflexivity.
  - vm_compute. reflexivity.
Defined.

Lemma filterAndPrioritizeUrls_keeps_all_accepted_witness :
  Permutation
    (List.filter (accepted simple_parse (js "e.com")) mixed_links)
    [site "/docs"; site "/"; site "/a/b"].
Proof.
  apply (@filterAndPrioritizeUrls_keeps_all_accepted simple_parse mixed_links
           (site "/") (mkURL (js "e.com") (js "/")) offline_world
           [site "/docs"; site "/"; site "/a/b"]).
  - reflexivity.
  - vm_compute. discriminate.
  - vm_compute. reflexivity.
Defined.

End PrioritiserProps.

(* ================================================================== *)
(** * What the methods add to the journal *)
(* ================================================================== *)

Module TraceFacts.
Local Open Scope monad_scope.

(** [w'] is [w] after some actions that all satisfy [p]. *)
Definition only (p : Action -> bool) (w w' : World) : Prop :=
  exists delta, journal w' = journal w ++ delta /\ forallb p delta = true.

Lemma only_refl p w : only p w w.
Proof. exists []. split; [symmetry; apply app_nil_r | reflexivity]. Qed.

Lemma only_trans p w1 w2 w3 : only p w1 w2 -> only p w2 w3 -> only p w1 w3.
Proof.
  intros [d1 [H1 F1]] [d2 [H2 F2]]. exists (d1 ++ d2). split.
  - rewrite H2, H1, app_assoc. reflexivity.
  - rewrite forallb_app, F1, F2. reflexivity.
Qed.

(** A computation all of whose actions satisfy [p]. *)
Definition acts {A} (p : Action -> bool) (m : M World A) : Prop :=
  respects (only p) m.

Ltac acts_step :=
  unfold acts;
  first
    [ apply (respects_ret (only _) (only_refl _))
    | apply (respects_throw (only _) (only_refl _))
    | apply (respects_get (only _) (only_refl _))
    | apply (respects_bind (@only_trans _)); [|intros ?]
    | apply (respects_try_catch (@only_trans _)); [|intros ?]
    | apply (respects_for_each (only_refl _) (@only_trans _)); intros ?
    | apply (respects_fold_each (only_refl _) (@only_trans _)); intros ? ? ].

Section Only.

Variable p : Action -> bool.

Lemma acts_log (a : Action) : p a = true -> acts p (modify (log a)).
Proof.
  intros Ha w. exists [a]. split; [reflexivity|]. simpl. rewrite Ha. reflexivity.
Qed.

Lemma acts_http_get taskId : p (Get taskId) = true -> acts p (http_get taskId).
Proof.
  intros Ha w. unfold http_get.
  destruct (get_replies (log (Get taskId) w)) as [|[d|e] rest];
    cbn [snd]; apply (acts_log Ha w).
Qed.

Lemma acts_http_post urls : p (Post urls) = true -> acts p (http_post urls).
Proof.
  intros Ha w. unfold http_post.
  destruct (post_replies (log (Post urls) w)) as [|[d|e] rest];
    cbn [snd]; apply (acts_log Ha w).
Qed.

Lemma acts_embeddings_create input :
  p (Embed input) = true -> acts p (embeddings_create input).
Proof.
  intros Ha w. unfold embeddings_create.
  destruct (embed_replies (log (Embed input) w)) as [|r rest];
    cbn [snd]; apply (acts_log Ha w).
Qed.

Lemma acts_db_upsert d : p (Upsert d) = true -> acts p (db_upsert d).
Proof.
  intros Ha w. unfold db_upsert.
  destruct (db_replies (log (Upsert d) w)) as [|[|e|] rest];
    cbn [snd]; apply (acts_log Ha w).
Qed.

Lemma acts_read_aborted : acts p read_aborted.
Proof.
  intros w. unfold read_aborted.
  destruct (abort_reads w); cbn [snd]; exists []; cbn [journal];
    (split; [symmetry; apply app_nil_r | reflexivity]).
Qed.

(** From here on [p] lets through what saving a page does: calls to the
    embedding backend and upserts. *)
Hypothesis p_embed : forall input, p (Embed input) = true.
Hypothesis p_upsert : forall d, p (Upsert d) = true.

Lemma acts_generateEmbedding text : acts p (generateEmbedding text).
Proof.
  unfold generateEmbedding, isConfigured.
  acts_step; [repeat acts_step|].
  destruct (negb _); [acts_step|].
  acts_step; [|acts_step].
  destruct (1 <? _)%nat; [|apply acts_embeddings_create, p_embed].
  acts_step; [|acts_step].
  acts_step. acts_step; [apply acts_embeddings_create, p_embed | acts_step].
Qed.

Section WithURL.

Variable new_URL : jsstring -> option URL.

Lemma acts_saveCrawlResultAsDocument crawlResult :
  acts p (saveCrawlResultAsDocument new_URL crawlResult).
Proof.
  unfold saveCrawlResultAsDocument, isConfigured, log_sample. cbv zeta.
  acts_step; [|acts_step].
  acts_step; [destruct (cr_content crawlResult); acts_step|].
  acts_step; [destruct (cr_markdown crawlResult); acts_step|].
  acts_step; [repeat acts_step|].
  acts_step.
  { destruct (_ && _); [|acts_step].
    acts_step; [|acts_step].
    acts_step; [apply acts_generateEmbedding | acts_step]. }
  acts_step.
  { destruct (truthy _); [acts_step|].
    destruct (new_URL _); acts_step. }
  acts_step; [apply acts_db_upsert, p_upsert|].
  match goal with a : DbReply |- _ => destruct a end; acts_step.
Qed.

Lemma acts_trimmed_truthy content : acts p (@trimmed_truthy World content).
Proof. destruct content; acts_step. Qed.

Lemma acts_saveIndividualPage result :
  acts p (saveIndividualPage new_URL result).
Proof.
  unfold saveIndividualPage. acts_step; [|acts_step].
  destruct (negb _); [acts_step|]. cbv zeta.
  acts_step; [apply acts_trimmed_truthy|].
  match goal with b : bool |- _ => destruct b end; [|acts_step].
  acts_step; [apply acts_saveCrawlResultAsDocument | acts_step].
Qed.

Lemma acts_saveIndividualPages_from results : forall i,
  acts p (saveIndividualPages_from new_URL i results).
Proof.
  induction results as [|[result|] results IH]; intros i;
    cbn [saveIndividualPages_from]; try acts_step; [|apply IH].
  destruct (negb _); [acts_step|]. cbv zeta.
  acts_step; [apply acts_trimmed_truthy|].
  match goal with b : bool |- _ => destruct b end; [|acts_step].
  acts_step; [|acts_step].
  acts_step; [apply acts_saveCrawlResultAsDocument | acts_step].
Qed.

Lemma acts_processResponse responseData originalUrl :
  acts p (processResponse new_URL responseData originalUrl).
Proof.
  unfold processResponse. destruct (rd_results responseData); [|acts_step].
  unfold processMultipleResults, detached, saveIndividualPages.
  acts_step; [|acts_step].
  acts_step; [apply acts_saveIndividualPages_from | acts_step].
Qed.

(** And the polls and the waits of the poller. *)
Hypothesis p_get : forall taskId, p (Get taskId) = true.
Hypothesis p_wait : forall ms, p (Sleep PollWait ms) = true.

Lemma acts_poll_loop fuel : forall attempt maxAttempts taskId originalUrl,
  acts p (poll_loop new_URL fuel attempt maxAttempts taskId originalUrl).
Proof.
  induction fuel as [|fuel IH]; intros attempt maxAttempts taskId originalUrl;
    cbn [poll_loop]; [acts_step|].
  acts_step.
  - acts_step.
    + acts_step; [apply acts_http_get, p_get|].
      destruct (is_completed _).
      * acts_step; [apply acts_processResponse | acts_step].
      * destruct (is_failed _); [acts_step|].
        acts_step; [apply acts_log, p_wait | acts_step].
    + destruct (_ =? _); [acts_step|].
      acts_step; [apply acts_log, p_wait | acts_step].
  - match goal with o : option CrawlResult |- _ => destruct o end;
      [acts_step | apply IH].
Qed.

Lemma acts_pollForResults taskId originalUrl maxAttempts :
  acts p (pollForResults new_URL taskId originalUrl maxAttempts).
Proof. unfold pollForResults. apply acts_poll_loop. Qed.

End WithURL.
End Only.

(** The number of actions of a kind in a journal. *)
Definition count (kind : Action -> bool) (j : list Action) : nat :=
  List.length (List.filter kind j).

Lemma count_app kind j1 j2 : count kind (j1 ++ j2) = (count kind j1 + count kind j2)%nat.
Proof. unfold count. rewrite filter_app, length_app. reflexivity. Qed.

Lemma count_none kind (p : Action -> bool) j :
  (forall a, p a = true -> kind a = false) ->
  forallb p j = true -> count kind j = 0%nat.
Proof.
  intros H Hj. unfold count.
  rewrite (@filter_none _ kind p j H Hj). reflexivity.
Qed.

Definition is_post (a : Action) : bool :=
  match a with Post _ => true | _ => false end.

Definition is_get (a : Action) : bool :=
  match a with Get _ => true | _ => false end.

Definition is_upsert (a : Action) : bool :=
  match a with Upsert _ => true | _ => false end.

Definition is_embed (a : Action) : bool :=
  match a with Embed _ => true | _ => false end.

End TraceFacts.
Import TraceFacts.

(* ================================================================== *)
(** * The poller: cost, errors and results *)
(* ================================================================== *)

Module PollerProps.
Local Open Scope monad_scope.

Definition is_wait (a : Action) : bool :=
  match a with Sleep PollWait _ => true | _ => false end.

(** What saving pages adds to the journal. *)
Definition saving (a : Action) : bool := is_embed a || is_upsert a.

Lemma saving_spec a : saving a = true ->
  is_get a = false /\ is_post a = false /\ is_wait a = false.
Proof. destruct a as [| | | |[] ?|]; simpl; intros H; try discriminate; auto. Qed.

Section WithURL.

Variable new_URL : jsstring -> option URL.

(** One turn of the loop of [pollForResults]. *)
Definition attempt_once (attempt maxAttempts : Z) (taskId originalUrl : jsstring)
  : M World (option CrawlResult) :=
  try_catch
    (result <- http_get taskId ;;
     if is_completed result then
       r <- processResponse new_URL result originalUrl ;; ret (Some r)
     else if is_failed result then throw (task_failed result)
     else sleep PollWait 2000 ;;; ret None)
    (fun error =>
       if attempt =? maxAttempts then throw (polling_failed maxAttempts)
       else sleep PollWait 2000 ;;; ret None).

Lemma poll_loop_turn fuel attempt maxAttempts taskId originalUrl :
  poll_loop new_URL (S fuel) attempt maxAttempts taskId originalUrl
  = (returned <- attempt_once attempt maxAttempts taskId originalUrl ;;
     match returned with
     | Some r => ret r
     | None => poll_loop new_URL fuel (attempt + 1) maxAttempts taskId
                         originalUrl
     end).
Proof. reflexivity. Qed.

Lemma processResponse_returns responseData originalUrl w :
  exists r, fst (processResponse new_URL responseData originalUrl w) = Return r
            /\ cr_url r = originalUrl /\ cr_error r = None.
Proof.
  unfold processResponse. destruct (rd_results responseData) as [results|].
  - unfold processMultipleResults, detached, bind, try_catch.
    destruct (saveIndividualPages new_URL results w) as [[[]|e] w1];
      cbn; eexists; (split; [reflexivity|split; reflexivity]).
  - eexists. split; [reflexivity|split; reflexivity].
Qed.

Lemma http_get_journal taskId w :
  journal (snd (http_get taskId w)) = journal w ++ [Get taskId].
Proof.
  unfold http_get. destruct (get_replies (log (Get taskId) w)) as [|[d|e] rest];
    reflexivity.
Qed.

(** What one turn may do: it has polled once, and then either saved the
    pages of a completed task, or waited once, or stopped on the last
    attempt; it fails only as the exhausted poller, and what it returns is
    a result for [originalUrl]. *)
Definition turn_ok (attempt maxAttempts : Z) (taskId originalUrl : jsstring)
  (w : World) (run : outcome (option CrawlResult) * World) : Prop :=
  (exists d, journal (snd run) = journal w ++ Get taskId :: d
             /\ (forallb saving d = true \/ d = [Sleep PollWait 2000]
                 \/ (d = [] /\ attempt = maxAttempts)))
  /\ (forall e, fst run = Throw e ->
        e = polling_failed maxAttempts /\ attempt = maxAttempts)
  /\ (forall r, fst run = Return (Some r) ->
        cr_url r = originalUrl /\ cr_error r = None).

Lemma attempt_once_spec attempt maxAttempts taskId originalUrl w :
  turn_ok attempt maxAttempts taskId originalUrl w
          (attempt_once attempt maxAttempts taskId originalUrl w).
Proof.
  unfold attempt_once, try_catch, bind at 1.
  pose proof (http_get_journal taskId w) as Hj.
  assert (Hhandler : forall w1, journal w1 = journal w ++ [Get taskId] ->
    turn_ok attempt maxAttempts taskId originalUrl w
      ((if attempt =? maxAttempts
        then throw (polling_failed maxAttempts)
        else sleep PollWait 2000 ;;; ret None) w1)).
  { intros w1 H1. unfold turn_ok.
    destruct (Z.eqb_spec attempt maxAttempts) as [Heq|Hne].
    - split; [|split].
      + exists []. cbn. rewrite H1. split; [reflexivity|]. right. right. auto.
      + cbn. intros e He. inversion He. auto.
      + cbn. intros r Hr. discriminate.
    - split; [|split].
      + exists [Sleep PollWait 2000]. cbn. rewrite H1, <- app_assoc.
        split; [reflexivity|]. right. left. reflexivity.
      + cbn. intros e He. discriminate.
      + cbn. intros r Hr. discriminate. }
  destruct (http_get taskId w) as [[result|e0] w1]; cbn [snd] in Hj;
    [|apply (Hhandler w1 Hj)].
  destruct (is_completed result).
  - unfold bind.
    destruct (processResponse_returns result originalUrl w1) as [r [Hr [Hu He]]].
    destruct (acts_processResponse saving (fun _ => eq_refl)
                (fun _ => eq_refl) new_URL result originalUrl w1)
      as [d [Hd Hs]].
    destruct (processResponse new_URL result originalUrl w1) as [[r'|e'] w2];
      cbn [fst snd] in *; [|discriminate].
    inversion Hr; subst r'. unfold turn_ok. cbn [fst snd ret]. split; [|split].
    + exists d. rewrite Hd, Hj, <- app_assoc. split; [reflexivity|]. left. exact Hs.
    + intros e H. discriminate.
    + intros r0 H. inversion H; subst. auto.
  - destruct (is_failed result).
    + unfold throw at 1. apply (Hhandler w1 Hj).
    + unfold turn_ok. split; [|split].
      * exists [Sleep PollWait 2000]. cbn. rewrite Hj, <- app_assoc.
        split; [reflexivity|]. right. left. reflexivity.
      * cbn. intros e H. discriminate.
      * cbn. intros r H. discriminate.
Qed.

Lemma turn_counts (attempt maxAttempts : Z) (d : list Action) :
  forallb saving d = true \/ d = [Sleep PollWait 2000]
  \/ (d = [] /\ attempt = maxAttempts) ->
  count is_get d = 0%nat /\ count is_post d = 0%nat
  /\ (count is_wait d <= 1)%nat.
Proof.
  intros [H|[H|[H _]]].
  - rewrite (@count_none is_get saving d (fun a Ha => proj1 (saving_spec a Ha)) H).
    rewrite (@count_none is_post saving d
               (fun a Ha => proj1 (proj2 (saving_spec a Ha))) H).
    rewrite (@count_none is_wait saving d
               (fun a Ha => proj2 (proj2 (saving_spec a Ha))) H).
    lia.
  - subst d. cbv. lia.
  - subst d. cbv. lia.
Qed.

Lemma poll_loop_budget fuel : forall attempt maxAttempts taskId originalUrl w,
  exists delta,
    journal (snd (poll_loop new_URL fuel attempt maxAttempts taskId
                            originalUrl w))
    = journal w ++ delta
    /\ (count is_get delta <= fuel)%nat
    /\ count is_post delta = 0%nat
    /\ (count is_wait delta <= count is_get delta)%nat.
Proof.
  induction fuel as [|fuel IH]; intros attempt maxAttempts taskId originalUrl w.
  - exists []. cbn. rewrite app_nil_r. repeat split; lia.
  - rewrite poll_loop_turn. unfold bind.
    destruct (attempt_once_spec attempt maxAttempts taskId originalUrl w)
      as [[d [Hj Hd]] _].
    destruct (turn_counts Hd) as [Hg [Hp Hw]].
    assert (Hone : count is_get (Get taskId :: d) = 1%nat
                   /\ count is_post (Get taskId :: d) = 0%nat
                   /\ (count is_wait (Get taskId :: d) <= 1)%nat).
    { unfold count in *.
      cbn [List.filter is_get is_post is_wait List.length]. lia. }
    destruct Hone as [Hg1 [Hp1 Hw1]].
    destruct (attempt_once attempt maxAttempts taskId originalUrl w)
      as [[[r|]|e] w1]; cbn [fst snd ret] in *.
    + exists (Get taskId :: d). repeat split; [exact Hj|lia|exact Hp1|lia].
    + destruct (IH (attempt + 1) maxAttempts taskId originalUrl w1)
        as [delta [Hj' [Hg' [Hp' Hw']]]].
      exists ((Get taskId :: d) ++ delta). rewrite Hj', Hj, <- app_assoc.
      rewrite !count_app. repeat split; lia.
    + exists (Get taskId :: d). repeat split; [exact Hj|lia|exact Hp1|lia].
Qed.

Lemma poll_loop_outcome fuel : forall attempt maxAttempts taskId originalUrl w,
  match fst (poll_loop new_URL fuel attempt maxAttempts taskId originalUrl w)
  with
  | Return r => cr_url r = originalUrl /\ cr_error r = None
  | Throw e => e = polling_failed maxAttempts \/ e = polling_timed_out
  end.
Proof.
  induction fuel as [|fuel IH]; intros attempt maxAttempts taskId originalUrl w.
  - cbn. right. reflexivity.
  - rewrite poll_loop_turn. unfold bind.
    destruct (attempt_once_spec attempt maxAttempts taskId originalUrl w)
      as [_ [Hthrow Hret]].
    destruct (attempt_once attempt maxAttempts taskId originalUrl w)
      as [[[r|]|e] w1]; cbn [fst snd ret] in *.
    + apply Hret. reflexivity.
    + apply IH.
    + left. apply (Hthrow e eq_refl).
Qed.

(** A poll that fails in transport. *)
Definition fails (r : HttpReply) : Prop :=
  match r with HttpFails _ => True | HttpData _ => False end.

Lemma attempt_once_unreachable attempt maxAttempts taskId originalUrl w :
  Forall fails (get_replies w) ->
  exists w1,
    Forall fails (get_replies w1)
    /\ attempt_once attempt maxAttempts taskId originalUrl w
       = (if attempt =? maxAttempts
          then throw (polling_failed maxAttempts)
          else sleep PollWait 2000 ;;; ret None) w1
    /\ journal w1 = journal w ++ [Get taskId].
Proof.
  intros HF. unfold attempt_once, try_catch, bind at 1, http_get.
  cbn [log get_replies].
  destruct (get_replies w) as [|[d|e] rest] eqn:Hget.
  - eexists. split; [|split; [reflexivity|reflexivity]].
    cbn [log get_replies]. rewrite Hget. constructor.
  - inversion HF as [|? ? Hd _]. destruct Hd.
  - eexists. split; [|split; [reflexivity|reflexivity]].
    cbn [get_replies]. inversion HF; assumption.
Qed.

Lemma poll_loop_unreachable fuel : forall attempt maxAttempts taskId
  originalUrl w,
  Forall fails (get_replies w) ->
  attempt + Z.of_nat fuel = maxAttempts ->
  exists w',
    poll_loop new_URL (S fuel) attempt maxAttempts taskId originalUrl w
    = (Throw (polling_failed maxAttempts), w')
    /\ journal w'
       = journal w
         ++ List.concat (repeat [Get taskId; Sleep PollWait 2000] fuel)
         ++ [Get taskId].
Proof.
  induction fuel as [|fuel IH]; intros attempt maxAttempts taskId originalUrl w
    HF Hsum; rewrite poll_loop_turn; unfold bind at 1;
    destruct (@attempt_once_unreachable attempt maxAttempts taskId originalUrl
                w HF) as [w1 [HF1 [Hrun Hj]]]; rewrite Hrun.
  - destruct (Z.eqb_spec attempt maxAttempts) as [_|Hne];
      [|exfalso; apply Hne; rewrite <- Hsum; cbn; lia].
    exists w1. split; [reflexivity|exact Hj].
  - destruct (Z.eqb_spec attempt maxAttempts) as [Heq|_];
      [exfalso; rewrite <- Hsum in Heq; lia|].
    unfold bind at 1, sleep, modify. cbn [ret].
    destruct (IH (attempt + 1) maxAttempts taskId originalUrl
                 (log (Sleep PollWait 2000) w1)) as [w' [Ho Hj']].
    + exact HF1.
    + lia.
    + exists w'. split; [exact Ho|]. rewrite Hj'.
      cbn [log journal repeat List.concat].
      rewrite Hj, <- !app_assoc. reflexivity.
Qed.

End WithURL.

(** X10. Whatever the backend answers, [pollForResults] polls the task at
    most [maxAttempts] times, sends no crawl request, and waits at most
    once per poll. *)
Theorem pollForResults_budget (new_URL : jsstring -> option URL)
  (taskId originalUrl : jsstring) (maxAttempts : Z) (w : World) :
  exists delta,
    journal (snd (pollForResults new_URL taskId originalUrl maxAttempts w))
    = journal w ++ delta
    /\ (count is_get delta <= Z.to_nat maxAttempts)%nat
    /\ count is_post delta = 0%nat
    /\ (count is_wait delta <= count is_get delta)%nat.
Proof. unfold pollForResults. apply poll_loop_budget. Qed.

(** X11. [pollForResults] fails in two ways only, as the exhausted poller
    or as the timed-out one: the cause of a failed task or of a failed
    poll never reaches the caller.  What it returns is a result for
    [originalUrl] that carries no error. *)
Theorem pollForResults_outcome (new_URL : jsstring -> option URL)
  (taskId originalUrl : jsstring) (maxAttempts : Z) (w : World) :
  match fst (pollForResults new_URL taskId originalUrl maxAttempts w) with
  | Return r => cr_url r = originalUrl /\ cr_error r = None
  | Throw e => e = polling_failed maxAttempts \/ e = polling_timed_out
  end.
Proof. unfold pollForResults. apply poll_loop_outcome. Qed.

(** A task that the first poll finds completed with a single page
    is returned at once: one poll, no wait, and the rest of the replies
    left unread. *)
Theorem pollForResults_first_completed (new_URL : jsstring -> option URL)
  (taskId originalUrl : jsstring) (maxAttempts : Z) (d : ResponseData)
  (rest : list HttpReply) (w : World) :
  1 <= maxAttempts ->
  get_replies w = HttpData d :: rest ->
  is_completed d = true ->
  rd_results d = None ->
  pollForResults new_URL taskId originalUrl maxAttempts w
  = (Return (processSingleResult d originalUrl),
     mkWorld (config w) (post_replies w) rest (embed_replies w)
             (db_replies w) (abort_reads w) (table w)
             (journal w ++ [Get taskId])).
Proof.
  intros Hmax Hget Hc Hres. unfold pollForResults.
  destruct (Z.to_nat maxAttempts) as [|fuel] eqn:Hfuel; [lia|].
  cbn [poll_loop]. unfold bind at 1, try_catch at 1, bind at 1, http_get.
  cbn [log get_replies]. rewrite Hget, Hc. unfold processResponse.
  rewrite Hres. reflexivity.
Qed.

(** X12. When no poll gets through, [pollForResults] polls exactly
    [maxAttempts] times, waits two seconds between two polls but not
    after the last, and fails as the exhausted poller. *)
Theorem pollForResults_unreachable (new_URL : jsstring -> option URL)
  (taskId originalUrl : jsstring) (maxAttempts : Z) (w : World) :
  1 <= maxAttempts ->
  Forall fails (get_replies w) ->
  let run := pollForResults new_URL taskId originalUrl maxAttempts w in
  fst run = Throw (polling_failed maxAttempts)
  /\ journal (snd run)
     = journal w
       ++ List.concat (repeat [Get taskId; Sleep PollWait 2000]
                              (Z.to_nat (maxAttempts - 1)))
       ++ [Get taskId].
Proof.
  intros Hmax HF. unfold pollForResults.
  replace (Z.to_nat maxAttempts) with (S (Z.to_nat (maxAttempts - 1))) by lia.
  destruct (@poll_loop_unreachable new_URL (Z.to_nat (maxAttempts - 1)) 1
              maxAttempts taskId originalUrl w HF) as [w' [Hrun Hj]]; [lia|].
  rewrite Hrun. split; [reflexivity|exact Hj].
Qed.

Definition completed_reply : ResponseData :=
  mkResponseData
    (mkPageResult [] true [] (MdString (js "done")) [] [] []
                  (VStr []) LinksAbsent no_metadata [])
    [] None (js "completed") [] [].

Definition one_poll (r : HttpReply) : World :=
  mkWorld default_config [] [r; r] [] [] [] [] [].

Lemma pollForResults_first_completed_witness :
  pollForResults simple_parse (js "t1") (site "/") default_maxAttempts
                 (one_poll (HttpData completed_reply))
  = (Return (processSingleResult completed_reply (site "/")),
     mkWorld default_config [] [HttpData completed_reply] [] [] [] []
             [Get (js "t1")]).
Proof.
  apply (@pollForResults_first_completed simple_parse (js "t1") (site "/")
           default_maxAttempts completed_reply [HttpData completed_reply]
           (one_poll (HttpData completed_reply))).
  - unfold default_maxAttempts. lia.
  - reflexivity.
  - reflexivity.
  - reflexivity.
Defined.

Lemma pollForResults_unreachable_witness :
  let run := pollForResults simple_parse (js "t1") (site "/") 2
                            (one_poll (HttpFails network_error)) in
  fst run = Throw (polling_failed 2)
  /\ journal (snd run)
     = [Get (js "t1"); Sleep PollWait 2000; Get (js "t1")].
Proof.
  apply (@pollForResults_unreachable simple_parse (js "t1") (site "/") 2
           (one_poll (HttpFails network_error))).
  - lia.
  - repeat constructor.
Defined.

End PollerProps.

(* ================================================================== *)
(** * Saving pages: what is sent to the table and what comes back *)
(* ================================================================== *)

Module SavingProps.
Local Open Scope monad_scope.

Section WithURL.

Variable new_URL : jsstring -> option URL.

(** The title under which a page is stored: the title entry of its
    metadata when there is one, the host of its address otherwise; [None]
    when it has no title that is not empty and the address does not
    parse, so that the method throws. *)
Definition stored_title (crawlResult : CrawlResult) : option jsstring :=
  let m := cr_metadata crawlResult in
  if truthy (title_or m [])
  then Some (spread_title m (title_or m []))
  else match new_URL (cr_url crawlResult) with
       | Some u => Some (spread_title m (hostname u))
       | None => None
       end.

(** The message of the error that the samples of the two fields throw:
    [None] when both are strings or absent. *)
Definition sample_error (crawlResult : CrawlResult) : option jsstring :=
  match cr_content crawlResult, cr_markdown crawlResult with
  | VObj, _ => Some (js "crawlResult.content.substring is not a function")
  | VStr _, VObj =>
      Some (js "crawlResult.markdown.substring is not a function")
  | VStr _, VStr _ => None
  end.

Definition document_of (crawlResult : CrawlResult) (doc_title : jsstring)
  (embedding : option vector) : Document :=
  mkDocument (cr_url crawlResult) (chunkNumber crawlResult)
             (markdownContent crawlResult) doc_title
             (links_found crawlResult) embedding.

(** Whether [saveCrawlResultAsDocument] asks for an embedding. *)
Definition wants_embedding (crawlResult : CrawlResult) (w : World) : bool :=
  openai_configured (config w) && truthy (trim (textForEmbedding crawlResult)).

Definition save_failed (msg : jsstring) : exn :=
  Error (js "Failed to save to database: " ++ msg).

(** The embedding that the method gets: that of the embedding call when
    it is made and returns. *)
Definition attempted (crawlResult : CrawlResult) (w : World) : option vector :=
  if wants_embedding crawlResult w
  then match fst (generateEmbedding (textForEmbedding crawlResult) w) with
       | Return v => Some v
       | Throw _ => None
       end
  else None.

(** The attempt at an embedding never throws, talks to the embedding
    backend only, and leaves the store as it was. *)
Lemma embedding_attempt (crawlResult : CrawlResult) (w : World) :
  exists embedding w1 embeds,
    (if wants_embedding crawlResult w
     then try_catch
            (e <- generateEmbedding (textForEmbedding crawlResult) ;;
             ret (Some e))
            (fun _ => ret None)
     else ret None) w = (Return embedding, w1)
    /\ embedding = attempted crawlResult w
    /\ same_store w w1
    /\ journal w1 = journal w ++ embeds
    /\ forallb is_embed embeds = true
    /\ (wants_embedding crawlResult w = false ->
        embeds = [] /\ embedding = None).
Proof.
  unfold attempted. destruct (wants_embedding crawlResult w).
  - unfold try_catch, bind.
    pose proof (generateEmbedding_store (textForEmbedding crawlResult) w) as Hs.
    destruct (acts_generateEmbedding is_embed (fun _ => eq_refl)
                (textForEmbedding crawlResult) w) as [embeds [Hj He]].
    destruct (generateEmbedding (textForEmbedding crawlResult) w)
      as [[v|e] w1]; cbn [fst snd] in *.
    + exists (Some v), w1, embeds. repeat split; try assumption;
        try apply Hs; discriminate.
    + exists None, w1, embeds. repeat split; try assumption;
        try apply Hs; discriminate.
  - exists None, w, []. repeat split; try reflexivity.
    symmetry. apply app_nil_r.
Qed.

(** A field that holds an object ends [saveCrawlResultAsDocument] before
    it does anything. *)
Lemma save_sample_throws (crawlResult : CrawlResult) (w : World)
  (msg : jsstring) :
  sample_error crawlResult = Some msg ->
  saveCrawlResultAsDocument new_URL crawlResult w
  = (Throw (save_failed msg), w).
Proof.
  unfold sample_error, saveCrawlResultAsDocument. cbv zeta.
  destruct (cr_content crawlResult); [destruct (cr_markdown crawlResult)|];
    intros H; inversion H; reflexivity.
Qed.

(** Otherwise [saveCrawlResultAsDocument] is the attempt at an embedding
    followed by the sending of one document, unless the page has no title
    and no address that parses. *)
Lemma save_decomposes (crawlResult : CrawlResult) (w : World) :
  sample_error crawlResult = None ->
  exists embedding w1 embeds,
    embedding = attempted crawlResult w
    /\ same_store w w1
    /\ journal w1 = journal w ++ embeds
    /\ forallb is_embed embeds = true
    /\ (wants_embedding crawlResult w = false ->
        embeds = [] /\ embedding = None)
    /\ saveCrawlResultAsDocument new_URL crawlResult w
       = match stored_title crawlResult with
         | Some t =>
             SupabaseSpec.send_document (document_of crawlResult t embedding) w1
         | None => (Throw (save_failed (js "Invalid URL")), w1)
         end.
Proof.
  intros Hsample.
  destruct (embedding_attempt crawlResult w)
    as [embedding [w1 [embeds [Hrun [Hatt [Hs [Hj [He Hno]]]]]]]].
  exists embedding, w1, embeds. repeat split; try assumption; try apply Hs;
    try apply (Hno H).
  unfold saveCrawlResultAsDocument. cbv zeta.
  rewrite (SupabaseSpec.log_samples_pass crawlResult _ _ w).
  2,3: unfold sample_error in Hsample;
       destruct (cr_content crawlResult); [|discriminate];
       destruct (cr_markdown crawlResult); [reflexivity|discriminate].
  rewrite (@SupabaseSpec.try_catch_bind_return _ _ _ isConfigured _ _ w w
             (openai_configured (config w)) eq_refl).
  unfold wants_embedding in Hrun.
  rewrite (@SupabaseSpec.try_catch_bind_return _ _ _ _ _ _ _ _ _ Hrun).
  rewrite SupabaseSpec.markdownContent_or_empty.
  unfold stored_title. cbv zeta.
  destruct (truthy (title_or (cr_metadata crawlResult) [])).
  - reflexivity.
  - destruct (new_URL (cr_url crawlResult)); reflexivity.
Qed.

(** Sending a document: one upsert; the document comes back exactly when
    the table accepted it, and then it is stored; otherwise the error is
    wrapped and the table is as it was. *)
Lemma send_document_spec (doc : Document) (w : World) :
  exists w',
    journal w' = journal w ++ [Upsert doc]
    /\ ((SupabaseSpec.send_document doc w = (Return doc, w')
         /\ table w' = upsert_row doc (table w)
         /\ hd_error (db_replies w) = Some DbData)
        \/ (exists msg,
              SupabaseSpec.send_document doc w = (Throw (save_failed msg), w')
              /\ table w' = table w
              /\ hd_error (db_replies w) <> Some DbData)).
Proof.
  unfold SupabaseSpec.send_document, try_catch, bind, db_upsert.
  cbn [log db_replies journal table].
  destruct (db_replies w) as [|[|e|] rest]; eexists.
  - split; [|right; eexists; split; [reflexivity|];
             split; [reflexivity|discriminate]]; reflexivity.
  - split; [|left; split; [reflexivity|]; split; reflexivity]; reflexivity.
  - split; [|right; eexists; split; [reflexivity|];
             split; [reflexivity|discriminate]]; reflexivity.
  - split; [|right; eexists; split; [reflexivity|];
             split; [reflexivity|discriminate]]; reflexivity.
Qed.

Lemma chunkNumber_nonzero crawlResult : chunkNumber crawlResult <> 0.
Proof.
  unfold chunkNumber. destruct (page_index (cr_metadata crawlResult)) as [n|];
    [|discriminate].
  destruct (Z.eqb_spec n 0); [discriminate | assumption].
Qed.

(** X13. What [saveCrawlResultAsDocument] returns is the row it stored:
    the document has the address and the content of the page and a chunk
    number that is not zero, it was sent in the one upsert of the call,
    and the table holds it.  When the method throws, the error is the
    wrapped one and the table is as it was. *)
Theorem saveCrawlResultAsDocument_outcome (crawlResult : CrawlResult)
  (w : World) :
  let run := saveCrawlResultAsDocument new_URL crawlResult w in
  match fst run with
  | Return doc =>
      doc_url doc = cr_url crawlResult
      /\ doc_content doc = markdownContent crawlResult
      /\ doc_chunk_number doc = chunkNumber crawlResult
      /\ doc_chunk_number doc <> 0
      /\ upserts (journal (snd run)) = upserts (journal w) ++ [doc]
      /\ table (snd run) = upsert_row doc (table w)
  | Throw e =>
      (exists msg, e = save_failed msg) /\ table (snd run) = table w
  end.
Proof.
  cbv zeta.
  destruct (sample_error crawlResult) as [sample|] eqn:Hsample.
  { rewrite (save_sample_throws crawlResult w Hsample). cbn [fst snd].
    split; [exists sample; reflexivity | reflexivity]. }
  destruct (save_decomposes crawlResult w Hsample)
    as [embedding [w1 [embeds [_ [[_ [_ [Htab Hups]]] [_ [_ [_ Hrun]]]]]]]].
  rewrite Hrun. destruct (stored_title crawlResult) as [t|].
  - destruct (send_document_spec (document_of crawlResult t embedding) w1)
      as [w' [Hj [[Hsend [Ht _]]|[msg [Hsend [Ht _]]]]]];
      rewrite Hsend; cbn [fst snd].
    + repeat split; try apply chunkNumber_nonzero.
      * rewrite Hj, upserts_app, Hups. reflexivity.
      * rewrite Ht, Htab. reflexivity.
    + split; [exists msg; reflexivity|]. rewrite Ht. exact Htab.
  - cbn [fst snd]. split; [eexists; reflexivity | exact Htab].
Qed.

(** X14. The remote calls of [saveCrawlResultAsDocument], in order: the
    calls to the embedding backend, then at most one upsert, and nothing
    else.  There is no embedding call at all when the embedding service
    is not configured or the text to embed is blank. *)
Theorem saveCrawlResultAsDocument_journal (crawlResult : CrawlResult)
  (w : World) :
  exists embeds ups,
    journal (snd (saveCrawlResultAsDocument new_URL crawlResult w))
    = journal w ++ embeds ++ ups
    /\ forallb is_embed embeds = true
    /\ forallb is_upsert ups = true
    /\ (List.length ups <= 1)%nat
    /\ (wants_embedding crawlResult w = false -> embeds = [])
    /\ (stored_title crawlResult = None -> ups = [])
    /\ (sample_error crawlResult <> None -> embeds = [] /\ ups = []).
Proof.
  destruct (sample_error crawlResult) as [sample|] eqn:Hsample.
  { rewrite (save_sample_throws crawlResult w Hsample). cbn [snd].
    exists [], []. rewrite app_nil_r. repeat split; cbn; lia. }
  destruct (save_decomposes crawlResult w Hsample)
    as [embedding [w1 [embeds [_ [_ [Hj1 [He [Hno Hrun]]]]]]]].
  rewrite Hrun. destruct (stored_title crawlResult) as [t|].
  - destruct (send_document_spec (document_of crawlResult t embedding) w1)
      as [w' [Hj [[Hsend _]|[msg [Hsend _]]]]]; rewrite Hsend; cbn [fst snd];
      exists embeds, [Upsert (document_of crawlResult t embedding)];
      rewrite Hj, Hj1, <- app_assoc;
      (split; [reflexivity|]); (split; [exact He|]);
      (split; [reflexivity|]); (split; [cbn; lia|]);
      (split; [apply Hno|]); (split; [discriminate|]);
      intros H; contradiction.
  - exists embeds, []. cbn [fst snd]. rewrite Hj1, app_nil_r.
    split; [reflexivity|]. split; [exact He|]. split; [reflexivity|].
    split; [cbn; lia|]. split; [apply Hno|]. split; [reflexivity|].
    intros H; contradiction.
Qed.

(** X15. When the embedding is asked for and the embedding call returns
    a vector, the document that is sent carries that vector. *)
Theorem saveCrawlResultAsDocument_embedding (crawlResult : CrawlResult)
  (w : World) (v : vector) (t : jsstring) :
  sample_error crawlResult = None ->
  wants_embedding crawlResult w = true ->
  fst (generateEmbedding (textForEmbedding crawlResult) w) = Return v ->
  stored_title crawlResult = Some t ->
  upserts (journal (snd (saveCrawlResultAsDocument new_URL crawlResult w)))
  = upserts (journal w) ++ [document_of crawlResult t (Some v)].
Proof.
  intros Hsample Hwants Hgen Htitle.
  destruct (save_decomposes crawlResult w Hsample)
    as [embedding [w1 [embeds [Hatt [[_ [_ [_ Hups]]] [_ [_ [_ Hrun]]]]]]]].
  unfold attempted in Hatt. rewrite Hwants, Hgen in Hatt. subst embedding.
  rewrite Hrun, Htitle.
  destruct (send_document_spec (document_of crawlResult t (Some v)) w1)
    as [w' [Hj [[Hsend _]|[msg [Hsend _]]]]]; rewrite Hsend; cbn [snd];
    rewrite Hj, upserts_app, Hups; reflexivity.
Qed.

(** ** The pages of a crawl *)

(** The page that [saveIndividualPage] hands to the persistence service. *)
Definition individual_page (result : PageResult) : CrawlResult :=
  mkCrawlResult (pr_id result) (pr_url result) completed (best_content result)
    (rawMarkdown_of result) (rawMarkdown_of result) (fitMarkdown_of result)
    (LinksArray (internal_links result)) (pr_metadata result) None.

(** The page that [saveIndividualPages] hands over for the entry at
    index [i]. *)
Definition indexed_page (i : Z) (result : PageResult) : CrawlResult :=
  mkCrawlResult (pr_id result) (pr_url result) completed (best_content result)
    (rawMarkdown_of result) (rawMarkdown_of result) (fitMarkdown_of result)
    (links_or_empty (pr_links result))
    (mkMetadata (title (pr_metadata result)) (Some (i + 1))
                (crawled_urls (pr_metadata result))) None.

(** The best content of a page is a string that is not blank. *)
Definition has_text (result : PageResult) : bool :=
  match best_content result with
  | VStr s => truthy (trim s)
  | VObj => false
  end.

(** The title of the document that is sent for a page, when one is:
    the samples of its fields pass and it has an address. *)
Definition sent_title (crawlResult : CrawlResult) : option jsstring :=
  match sample_error crawlResult with
  | Some _ => None
  | None => stored_title crawlResult
  end.

(** A page for which an upsert is issued: it succeeded, it has text, its
    markdown is a string or absent (or an object with a raw variant), and
    it has a title or an address that parses. *)
Definition sendable (result : PageResult) : bool :=
  pr_success result && has_text result
  && is_some (sent_title (individual_page result)).

Lemma upserts_embeds (embeds : list Action) :
  forallb is_embed embeds = true -> upserts embeds = [].
Proof.
  induction embeds as [|a embeds IH]; [reflexivity|].
  cbn [forallb]. intros H. apply andb_true_iff in H. destruct H as [Ha H].
  destruct a; try discriminate. cbn. apply IH. exact H.
Qed.

Lemma saving_embeds (embeds : list Action) :
  forallb is_embed embeds = true -> forallb PollerProps.saving embeds = true.
Proof.
  intros H. rewrite forallb_forall in *. intros a Ha.
  unfold PollerProps.saving. rewrite (H a Ha). reflexivity.
Qed.

(** What one call of [saveCrawlResultAsDocument] adds to the journal. *)
Lemma save_delta (crawlResult : CrawlResult) (w : World) :
  exists delta,
    journal (snd (saveCrawlResultAsDocument new_URL crawlResult w))
    = journal w ++ delta
    /\ forallb PollerProps.saving delta = true
    /\ exists embedding,
         upserts delta
         = match sent_title crawlResult with
           | Some t => [document_of crawlResult t embedding]
           | None => []
           end.
Proof.
  unfold sent_title.
  destruct (sample_error crawlResult) as [sample|] eqn:Hsample.
  { rewrite (save_sample_throws crawlResult w Hsample). cbn [snd].
    exists []. rewrite app_nil_r. split; [reflexivity|].
    split; [reflexivity|]. exists None. reflexivity. }
  destruct (save_decomposes crawlResult w Hsample)
    as [embedding [w1 [embeds [_ [_ [Hj1 [He [_ Hrun]]]]]]]].
  rewrite Hrun. destruct (stored_title crawlResult) as [t|].
  - exists (embeds ++ [Upsert (document_of crawlResult t embedding)]).
    destruct (send_document_spec (document_of crawlResult t embedding) w1)
      as [w' [Hj [[Hsend _]|[msg [Hsend _]]]]]; rewrite Hsend; cbn [fst snd];
      rewrite Hj, Hj1, <- app_assoc;
      (split; [reflexivity|]);
      (split; [rewrite forallb_app, (saving_embeds _ He); reflexivity|]);
      exists embedding; rewrite upserts_app, (upserts_embeds _ He); reflexivity.
  - exists embeds. cbn [fst snd]. split; [exact Hj1|].
    split; [apply saving_embeds; exact He|].
    exists None. apply upserts_embeds. exact He.
Qed.

Lemma saveIndividualPage_delta (result : PageResult) (w : World) :
  exists w' delta,
    saveIndividualPage new_URL result w = (Return tt, w')
    /\ journal w' = journal w ++ delta
    /\ forallb PollerProps.saving delta = true
    /\ List.map doc_url (upserts delta)
       = (if sendable result then [pr_url result] else []).
Proof.
  unfold saveIndividualPage, sendable, has_text, try_catch.
  destruct (pr_success result); cbn [negb andb].
  2:{ exists w, []. rewrite app_nil_r. repeat split. }
  unfold bind at 1, trimmed_truthy.
  destruct (best_content result) as [s|] eqn:Hc.
  2:{ exists w, []. rewrite app_nil_r. repeat split. }
  unfold ret at 1. destruct (truthy (trim s)); cbn [andb].
  2:{ exists w, []. rewrite app_nil_r. repeat split. }
  unfold bind. rewrite <- Hc. fold (individual_page result).
  destruct (save_delta (individual_page result) w)
    as [delta [Hj [Hs [embedding Hups]]]].
  destruct (saveCrawlResultAsDocument new_URL (individual_page result) w)
    as [[doc|e] w1]; cbn [fst snd ret] in *;
    exists w1, delta; (split; [reflexivity|]);
    (split; [exact Hj|]); (split; [exact Hs|]); rewrite Hups;
    destruct (sent_title (individual_page result)); reflexivity.
Qed.

Lemma saveMultiplePages_delta (results : list PageResult) : forall w,
  exists w' delta,
    saveMultiplePages new_URL results w = (Return tt, w')
    /\ journal w' = journal w ++ delta
    /\ forallb PollerProps.saving delta = true
    /\ List.map doc_url (upserts delta)
       = List.map pr_url (List.filter sendable results).
Proof.
  induction results as [|result results IH]; intros w.
  - exists w, []. rewrite app_nil_r. repeat split.
  - unfold saveMultiplePages. cbn [for_each]. unfold bind.
    destruct (saveIndividualPage_delta result w)
      as [w1 [d1 [Hrun [Hj1 [Hs1 Hu1]]]]].
    rewrite Hrun.
    destruct (IH w1) as [w2 [d2 [Hrun2 [Hj2 [Hs2 Hu2]]]]].
    unfold saveMultiplePages in Hrun2. rewrite Hrun2.
    exists w2, (d1 ++ d2). rewrite Hj2, Hj1, <- app_assoc.
    split; [reflexivity|]. split; [reflexivity|].
    split; [rewrite forallb_app, Hs1, Hs2; reflexivity|].
    rewrite upserts_app, map_app, Hu1, Hu2. cbn [List.filter].
    destruct (sendable result); reflexivity.
Qed.

(** X16. [saveIndividualPage] never throws.  It talks to the embedding
    backend and the table only, and it issues an upsert, for the address
    of the page, exactly when the page succeeded, has text that is not
    blank, has a markdown field of which a sample can be logged, and has
    a title or an address that parses. *)
Theorem saveIndividualPage_sends (result : PageResult) (w : World) :
  let run := saveIndividualPage new_URL result w in
  fst run = Return tt
  /\ exists delta,
       journal (snd run) = journal w ++ delta
       /\ forallb PollerProps.saving delta = true
       /\ List.map doc_url (upserts delta)
          = (if sendable result then [pr_url result] else []).
Proof.
  cbv zeta. destruct (saveIndividualPage_delta result w)
    as [w' [delta [Hrun H]]].
  rewrite Hrun. split; [reflexivity|]. exists delta. exact H.
Qed.

(** X17. [saveMultiplePages] never throws and goes through the whole
    batch whatever the table answers: the upserts that it issues are
    those of the sendable pages, one each, in the order of the batch. *)
Theorem saveMultiplePages_sends (results : list PageResult) (w : World) :
  let run := saveMultiplePages new_URL results w in
  fst run = Return tt
  /\ exists delta,
       journal (snd run) = journal w ++ delta
       /\ forallb PollerProps.saving delta = true
       /\ List.map doc_url (upserts delta)
          = List.map pr_url (List.filter sendable results).
Proof.
  cbv zeta. destruct (saveMultiplePages_delta results w)
    as [w' [delta [Hrun H]]].
  rewrite Hrun. split; [reflexivity|]. exists delta. exact H.
Qed.

(** ** The pages of a task, numbered *)

(** The body of the loop of [saveIndividualPages] for the entry at
    index [i]. *)
Definition save_entry (i : Z) (result : PageResult) : M World unit :=
  if negb (pr_success result) then ret tt
  else
    has_content <- trimmed_truthy (best_content result) ;;
    if has_content then
      try_catch (saveCrawlResultAsDocument new_URL (indexed_page i result) ;;;
                 ret tt)
                (fun _ => ret tt)
    else ret tt.

Lemma saveIndividualPages_from_cons i result rest :
  saveIndividualPages_from new_URL i (Some result :: rest)
  = (save_entry i result ;;; saveIndividualPages_from new_URL (i + 1) rest).
Proof. reflexivity. Qed.

Lemma save_entry_delta (i : Z) (result : PageResult) (w : World) :
  0 <= i ->
  exists delta,
    journal (snd (save_entry i result w)) = journal w ++ delta
    /\ forallb PollerProps.saving delta = true
    /\ (upserts delta = []
        \/ exists doc, upserts delta = [doc]
                       /\ doc_url doc = pr_url result
                       /\ doc_chunk_number doc = i + 1).
Proof.
  intros Hi. unfold save_entry.
  destruct (pr_success result); cbn [negb].
  2:{ exists []. rewrite app_nil_r. repeat split. left. reflexivity. }
  unfold bind at 1, trimmed_truthy.
  destruct (best_content result) as [s|].
  2:{ exists []. cbn. rewrite app_nil_r. repeat split. left. reflexivity. }
  unfold ret at 1. destruct (truthy (trim s)).
  2:{ exists []. cbn. rewrite app_nil_r. repeat split. left. reflexivity. }
  unfold try_catch, bind.
  destruct (save_delta (indexed_page i result) w)
    as [delta [Hj [Hs [embedding Hups]]]].
  exists delta. split; [|split; [exact Hs|]].
  - destruct (saveCrawlResultAsDocument new_URL (indexed_page i result) w)
      as [[doc|e] w1]; exact Hj.
  - rewrite Hups. destruct (sent_title (indexed_page i result)) as [t|];
      [|left; reflexivity].
    right. eexists. split; [reflexivity|]. split; [reflexivity|].
    cbn [document_of doc_chunk_number]. unfold chunkNumber.
    cbn [indexed_page cr_metadata page_index].
    destruct (Z.eqb_spec (i + 1) 0); [lia | reflexivity].
Qed.

(** The documents [docs] belong to entries of [results], each numbered
    [i] plus its position plus one, in increasing order. *)
Definition numbered (i : Z) (results : list (option PageResult))
  (docs : list Document) : Prop :=
  StronglySorted Z.lt (List.map doc_chunk_number docs)
  /\ Forall (fun d => exists k result,
                 nth_error results k = Some (Some result)
                 /\ doc_url d = pr_url result
                 /\ doc_chunk_number d = i + Z.of_nat k + 1) docs.

Lemma saveIndividualPages_from_delta (results : list (option PageResult)) :
  forall i w, 0 <= i ->
  exists delta,
    journal (snd (saveIndividualPages_from new_URL i results w))
    = journal w ++ delta
    /\ forallb PollerProps.saving delta = true
    /\ numbered i results (upserts delta).
Proof.
  induction results as [|[result|] results IH]; intros i w Hi.
  - exists []. cbn. rewrite app_nil_r. repeat split; constructor.
  - rewrite saveIndividualPages_from_cons. unfold bind.
    destruct (save_entry_delta result w Hi) as [d1 [Hj1 [Hs1 Hu1]]].
    assert (Hhead : numbered i (Some result :: results) (upserts d1)).
    { destruct Hu1 as [Hu1|[doc [Hu1 [Hurl Hnum]]]]; rewrite Hu1.
      - split; constructor.
      - split.
        + cbn. constructor; constructor.
        + constructor; [|constructor].
          exists 0%nat, result. cbn. repeat split; [exact Hurl|lia]. }
    destruct (save_entry i result w) as [[[]|e] w1]; cbn [fst snd] in *.
    + destruct (IH (i + 1) w1) as [d2 [Hj2 [Hs2 [Hsorted Hall]]]]; [lia|].
      exists (d1 ++ d2). rewrite Hj2, Hj1, <- app_assoc.
      split; [reflexivity|]. split; [rewrite forallb_app, Hs1, Hs2; reflexivity|].
      assert (Hall' : Forall (fun d => exists k result0,
                 nth_error (Some result :: results) k = Some (Some result0)
                 /\ doc_url d = pr_url result0
                 /\ doc_chunk_number d = i + Z.of_nat k + 1) (upserts d2)).
      { eapply Forall_impl; [|exact Hall].
        intros d [k [r [Hk [Hurl Hnum]]]]. exists (S k), r.
        cbn [nth_error]. repeat split; [exact Hk|exact Hurl|lia]. }
      rewrite upserts_app.
      destruct Hu1 as [Hu1|[doc [Hu1 [Hurl Hnum]]]]; rewrite Hu1.
      * split; [exact Hsorted | exact Hall'].
      * cbn [app List.map]. split.
        -- constructor; [exact Hsorted|].
           change (Forall (Z.lt (doc_chunk_number doc))
                          (List.map doc_chunk_number (upserts d2))).
           apply Forall_map. eapply Forall_impl; [|exact Hall].
           intros d [k [r [_ [_ Hd]]]]. lia.
        -- constructor; [|exact Hall'].
           exists 0%nat, result. cbn. repeat split; [exact Hurl|lia].
    + exists d1. split; [exact Hj1|]. split; [exact Hs1 | exact Hhead].
  - exists []. cbn. rewrite app_nil_r. repeat split; constructor.
Qed.

(** X18. [saveIndividualPages] numbers the rows by the position of the
    page in the results, from one: whatever happens, the upserts it
    issues are for entries of the results, each with the address of its
    entry and the chunk number of its position, in increasing order.  So
    no two rows of one call share a chunk number. *)
Theorem saveIndividualPages_numbers (results : list (option PageResult))
  (w : World) :
  exists delta,
    journal (snd (saveIndividualPages new_URL results w)) = journal w ++ delta
    /\ forallb PollerProps.saving delta = true
    /\ StronglySorted Z.lt (List.map doc_chunk_number (upserts delta))
    /\ Forall (fun d => exists k result,
                   nth_error results k = Some (Some result)
                   /\ doc_url d = pr_url result
                   /\ doc_chunk_number d = Z.of_nat k + 1) (upserts delta).
Proof.
  destruct (@saveIndividualPages_from_delta results 0 w (Z.le_refl 0))
    as [delta [Hj [Hs [Hsorted Hall]]]].
  exists delta. repeat split; assumption.
Qed.

End WithURL.

(** An embedding backend and a table that both answer. *)
Definition all_up : World :=
  mkWorld default_config [] [] [Return [1%float]] [DbData] [] [] [].

Lemma saveCrawlResultAsDocument_embedding_witness :
  upserts (journal (snd (saveCrawlResultAsDocument simple_parse
                           SupabaseSpec.hello_page all_up)))
  = [document_of SupabaseSpec.hello_page (js "Hello") (Some [1%float])].
Proof.
  apply (@saveCrawlResultAsDocument_embedding simple_parse
           SupabaseSpec.hello_page all_up [1%float] (js "Hello"));
    reflexivity.
Defined.

End SavingProps.

(* ================================================================== *)
(** * The aggregated result of a site crawl *)
(* ================================================================== *)

Module AggregationProps.

(** The links of a list that are strings. *)
Definition strings (links : list Link) : list jsstring :=
  flat_map (fun l => match l with LinkStr s => [s] | LinkObj _ => [] end) links.

Lemma strings_app a b : strings (a ++ b) = strings a ++ strings b.
Proof. apply flat_map_app. Qed.

Lemma strings_In s links : In s (strings links) <-> In (LinkStr s) links.
Proof.
  unfold strings. rewrite in_flat_map. split.
  - intros [[t|h] [Hin Hs]]; [|destruct Hs].
    destruct Hs as [Hs|[]]. subst. exact Hin.
  - intros Hin. exists (LinkStr s). split; [exact Hin | left; reflexivity].
Qed.

Lemma existsb_link_eqb (x : Link) (set : list Link) :
  existsb (link_eqb x) set = true <-> In x set /\ exists s, x = LinkStr s.
Proof.
  rewrite existsb_exists. split.
  - intros [y [Hin Heq]]. destruct x as [s|h]; [|discriminate].
    destruct y as [t|h]; [|discriminate].
    apply jseqb_eq in Heq. subst t. split; [exact Hin | exists s; reflexivity].
  - intros [Hin [s Hs]]. subst x. exists (LinkStr s).
    split; [exact Hin | apply jseqb_refl].
Qed.

(** Adding to a set keeps what is there, adds every item, and never adds
    a string twice. *)
Lemma set_add_all_spec (items : list Link) : forall set,
  NoDup (strings set) ->
  NoDup (strings (set_add_all items set))
  /\ (forall l, In l (set_add_all items set) <-> In l set \/ In l items)
  /\ exists added, set_add_all items set = set ++ added.
Proof.
  induction items as [|x items IH]; intros set Hnd; cbn [set_add_all].
  - split; [exact Hnd|]. split; [|exists []; symmetry; apply app_nil_r].
    intros l. cbn. tauto.
  - destruct (existsb (link_eqb x) set) eqn:Hex.
    + apply existsb_link_eqb in Hex. destruct Hex as [Hin _].
      destruct (IH set Hnd) as [Hnd' [Hmem Hpre]].
      split; [exact Hnd'|]. split; [|exact Hpre].
      intros l. rewrite Hmem. cbn [In]. split; [tauto|].
      intros [H|[H|H]]; [tauto | subst; tauto | tauto].
    + assert (Hnd1 : NoDup (strings (set ++ [x]))).
      { rewrite strings_app. destruct x as [s|h]; cbn; [|rewrite app_nil_r; exact Hnd].
        apply NoDup_app; [exact Hnd | constructor; [intros []|constructor] |].
        intros a Ha [Hb|[]]. subst a. apply strings_In in Ha.
        assert (existsb (link_eqb (LinkStr s)) set = true) as Ht; [|congruence].
        apply existsb_link_eqb. split; [exact Ha | exists s; reflexivity]. }
      destruct (IH (set ++ [x]) Hnd1) as [Hnd' [Hmem [added Hpre]]].
      split; [exact Hnd'|]. split.
      * intros l. rewrite Hmem, in_app_iff. cbn [In]. tauto.
      * exists (x :: added). rewrite Hpre, <- app_assoc. reflexivity.
Qed.

(** A page whose links are an object: it has no [forEach]. *)
Definition links_object (r : PageResult) : bool :=
  match pr_links r with LinksObject _ => true | _ => false end.

Definition has_content (r : PageResult) : bool := value_truthy (pr_content r).

Lemma gather_links_spec (results : list PageResult) : forall allLinks,
  NoDup (strings allLinks) ->
  match gather_links results allLinks with
  | Throw e =>
      e = forEach_not_a_function /\ existsb links_object results = true
  | Return all =>
      existsb links_object results = false
      /\ NoDup (strings all)
      /\ forall l, In l all <->
           In l allLinks
           \/ exists p items, In p results /\ pr_links p = LinksArray items
                              /\ In l items
  end.
Proof.
  induction results as [|r results IH]; intros allLinks Hnd;
    cbn [gather_links existsb].
  - split; [reflexivity|]. split; [exact Hnd|]. intros l. split; [tauto|].
    intros [H|[p [items [[] _]]]]. exact H.
  - assert (Hlo : links_object r
                  = match pr_links r with LinksObject _ => true | _ => false end)
      by reflexivity.
    destruct (pr_links r) as [|internal|items] eqn:Hl; rewrite Hlo.
    + specialize (IH allLinks Hnd).
      destruct (gather_links results allLinks) as [all|e].
      * destruct IH as [Hno [Hnd' Hmem]]. cbn [orb]. split; [exact Hno|].
        split; [exact Hnd'|]. intros l. rewrite Hmem. split.
        -- intros [H|[p [its [Hp H]]]]; [tauto|].
           right. exists p, its. cbn [In]. tauto.
        -- intros [H|[p [its [[Hp|Hp] [Hlinks Hin]]]]]; [tauto| |].
           ++ subst p. congruence.
           ++ right. exists p, its. tauto.
      * cbn [orb]. exact IH.
    + split; reflexivity.
    + destruct (set_add_all_spec items allLinks Hnd) as [Hnd1 [Hmem1 _]].
      specialize (IH (set_add_all items allLinks) Hnd1).
      destruct (gather_links results (set_add_all items allLinks)) as [all|e].
      * destruct IH as [Hno [Hnd' Hmem]]. cbn [orb]. split; [exact Hno|].
        split; [exact Hnd'|]. intros l. rewrite Hmem, Hmem1. split.
        -- intros [[H|H]|[p [its [Hp H]]]]; [tauto| |].
           ++ right. exists r, items. cbn [In]. tauto.
           ++ right. exists p, its. cbn [In]. tauto.
        -- intros [H|[p [its [[Hp|Hp] [Hlinks Hin]]]]]; [tauto| |].
           ++ subst p. rewrite Hl in Hlinks. inversion Hlinks; subst. tauto.
           ++ right. exists p, its. tauto.
      * cbn [orb]. exact IH.
Qed.

(** X19. [createAggregatedResult] throws exactly when a page with content
    has links that are an object and not an array (it calls [forEach] on
    them), and then the error is that type error; otherwise it returns a
    completed result for [originalUrl] that lists the addresses of the
    pages with content, in their order. *)
Theorem createAggregatedResult_outcome (results : list PageResult)
  (originalUrl : jsstring) :
  let bad r := has_content r && links_object r in
  match createAggregatedResult results originalUrl with
  | Throw e => e = forEach_not_a_function /\ existsb bad results = true
  | Return r =>
      existsb bad results = false
      /\ cr_url r = originalUrl
      /\ cr_status r = completed
      /\ crawled_urls (cr_metadata r)
         = Some (List.map pr_url (List.filter has_content results))
  end.
Proof.
  cbv zeta. unfold createAggregatedResult. cbv zeta.
  fold has_content.
  assert (Hex : existsb (fun r => has_content r && links_object r) results
                = existsb links_object (List.filter has_content results)).
  { induction results as [|r results IH]; [reflexivity|].
    cbn [existsb List.filter]. destruct (has_content r); cbn [andb orb existsb];
      rewrite IH; reflexivity. }
  rewrite Hex.
  pose proof (gather_links_spec (List.filter has_content results) []
                (NoDup_nil _)) as H.
  destruct (gather_links (List.filter has_content results) []) as [all|e].
  - destruct H as [Hno _]. repeat split. exact Hno.
  - exact H.
Qed.

(** X20. The links of the aggregated result are the union of the link
    arrays of the pages with content: every link of such a page is
    there, nothing else is, and no string occurs twice. *)
Theorem createAggregatedResult_links (results : list PageResult)
  (originalUrl : jsstring) (r : CrawlResult) :
  createAggregatedResult results originalUrl = Return r ->
  exists all,
    cr_links r = LinksArray all
    /\ NoDup (strings all)
    /\ forall l, In l all <->
         exists p items, In p results /\ has_content p = true
                         /\ pr_links p = LinksArray items /\ In l items.
Proof.
  unfold createAggregatedResult. cbv zeta. fold has_content.
  pose proof (gather_links_spec (List.filter has_content results) []
                (NoDup_nil _)) as H.
  destruct (gather_links (List.filter has_content results) []) as [all|e];
    [|discriminate].
  destruct H as [_ [Hnd Hmem]]. intros Hr. inversion Hr; subst r. clear Hr.
  exists all. cbn [cr_links]. split; [reflexivity|]. split; [exact Hnd|].
  intros l. rewrite Hmem. split.
  - intros [[]|[p [items [Hp [Hl Hin]]]]]. apply filter_In in Hp.
    exists p, items. tauto.
  - intros [p [items [Hp [Hc [Hl Hin]]]]]. right. exists p, items.
    rewrite filter_In. tauto.
Qed.

(** Two pages with content that share a link. *)
Definition page_with_links (url : string) (links : list string) : PageResult :=
  mkPageResult (js url) true [] MdAbsent [] [] [] (VStr (js "text"))
               (LinksArray (List.map (fun l => LinkStr (js l)) links))
               no_metadata [].

Definition two_pages : list PageResult :=
  [page_with_links "a" ["x"%string; "y"%string];
   page_with_links "b" ["y"%string; "z"%string]].

Lemma createAggregatedResult_links_witness :
  exists r all,
    createAggregatedResult two_pages (js "a") = Return r
    /\ cr_links r = LinksArray all
    /\ strings all = [js "x"; js "y"; js "z"]
    /\ NoDup (strings all).
Proof.
  destruct (@createAggregatedResult_links two_pages (js "a")
              (match createAggregatedResult two_pages (js "a") with
               | Return r => r
               | Throw _ => failed_result [] []
               end) eq_refl) as [all [Hl [Hnd _]]].
  eexists. exists all. split; [reflexivity|]. split; [exact Hl|].
  split; [|exact Hnd].
  cbv in Hl. inversion Hl. reflexivity.
Defined.

End AggregationProps.

(* ================================================================== *)
(** * The batch scheduler in any world *)
(* ================================================================== *)

Module SchedulerProps.
Local Open Scope monad_scope.

(** ** The split into batches *)

(** One batch less leaves one batch less to make. *)
Lemma ceil_step (n size : Z) :
  1 <= n -> 1 <= size ->
  Z.succ ((Z.max 0 (n - size) + size - 1) / size) = (n + size - 1) / size.
Proof.
  intros Hn Hsize. destruct (Z.le_gt_cases size n) as [Hle|Hgt].
  - rewrite Z.max_r by lia.
    replace (n + size - 1) with (n - size + size - 1 + 1 * size) by lia.
    rewrite Z.div_add by lia. lia.
  - rewrite Z.max_l by lia.
    rewrite (Z.div_small (0 + size - 1)) by lia.
    replace (n + size - 1) with (n - 1 + 1 * size) by lia.
    rewrite Z.div_add by lia. rewrite Z.div_small by lia. lia.
Qed.

Lemma batches_of_spec (size : nat) : forall fuel urls,
  (1 <= size)%nat ->
  (List.length urls <= fuel)%nat ->
  List.concat (batches_of fuel size urls) = urls
  /\ Forall (fun batch => batch <> [] /\ (List.length batch <= size)%nat)
            (batches_of fuel size urls)
  /\ Z.of_nat (List.length (batches_of fuel size urls))
     = (Z.of_nat (List.length urls) + Z.of_nat size - 1) / Z.of_nat size.
Proof.
  intros fuel. induction fuel as [|fuel IH]; intros urls Hsize Hfuel.
  - destruct urls; [|cbn in Hfuel; lia]. cbn. split; [reflexivity|].
    split; [constructor|]. symmetry. apply Z.div_small. lia.
  - destruct urls as [|u urls].
    + cbn. split; [reflexivity|]. split; [constructor|].
      symmetry. apply Z.div_small. lia.
    + cbn [batches_of].
      assert (Hskip : (List.length (skipn size (u :: urls)) <= fuel)%nat).
      { rewrite length_skipn. cbn [List.length] in *. lia. }
      destruct (IH (skipn size (u :: urls)) Hsize Hskip) as [Hcat [Hall Hlen]].
      split; [|split].
      * cbn [List.concat]. rewrite Hcat. apply firstn_skipn.
      * constructor; [|exact Hall]. split.
        -- destruct size; [lia|]. discriminate.
        -- rewrite length_firstn. lia.
      * change (List.length (firstn size (u :: urls)
                             :: batches_of fuel size (skipn size (u :: urls))))
          with (S (List.length (batches_of fuel size (skipn size (u :: urls))))).
        rewrite Nat2Z.inj_succ, Hlen, length_skipn, Nat2Z.inj_sub_max.
        apply ceil_step; [cbn [List.length]; lia | lia].
Qed.

(** X21. For a batch size of one or more, the batches are a partition of
    the addresses in their order: rejoined they give the addresses back,
    none is empty or longer than the size, and there are
    [ceil (n / size)] of them. *)
Theorem make_batches_partition (size : Z) (urls : list jsstring) :
  1 <= size ->
  List.concat (make_batches size urls) = urls
  /\ Forall (fun batch => batch <> [] /\ Z.of_nat (List.length batch) <= size)
            (make_batches size urls)
  /\ Z.of_nat (List.length (make_batches size urls))
     = (Z.of_nat (List.length urls) + size - 1) / size.
Proof.
  intros Hsize. unfold make_batches.
  destruct (@batches_of_spec (Z.to_nat size) (List.length urls) urls)
    as [Hcat [Hall Hlen]]; [lia | lia |].
  split; [exact Hcat|]. split.
  - eapply Forall_impl; [|exact Hall]. intros batch [Hne Hle].
    split; [exact Hne | lia].
  - rewrite Hlen, Z2Nat.id by lia. reflexivity.
Qed.

Lemma make_batches_partition_witness :
  List.concat (make_batches 2 [js "a"; js "b"; js "c"])
  = [js "a"; js "b"; js "c"]
  /\ Forall (fun batch => batch <> [] /\ Z.of_nat (List.length batch) <= 2)
            (make_batches 2 [js "a"; js "b"; js "c"])
  /\ Z.of_nat (List.length (make_batches 2 [js "a"; js "b"; js "c"]))
     = (Z.of_nat (List.length [js "a"; js "b"; js "c"]) + 2 - 1) / 2.
Proof.
  apply (@make_batches_partition 2 [js "a"; js "b"; js "c"]). lia.
Defined.

(** ** The schedule of a crawl, whatever the backend answers *)

(** The schedule of one batch that took [k] attempts. *)
Definition batch_plan (cfg : Config) (totalBatches batchIndex : Z)
  (batch : list jsstring) (k : nat) : list Action :=
  Emit (batch_start (batchIndex + 1) totalBatches batch)
    :: SchedulerSpec.linear_backoff batch (cool_off_delay cfg) 1 k
    ++ (if batchIndex <? totalBatches - 1
        then [Sleep CoolOff (cool_off_delay cfg)] else []).

(** The schedule of the batches from [batchIndex] on, the [i]-th taking
    the [i]-th number of attempts of [ks]. *)
Fixpoint plan (cfg : Config) (totalBatches batchIndex : Z)
  (batches : list (list jsstring)) (ks : list nat) : list Action :=
  match batches, ks with
  | batch :: batches', k :: ks' =>
      batch_plan cfg totalBatches batchIndex batch k
      ++ plan cfg totalBatches (batchIndex + 1) batches' ks'
  | _, _ => []
  end.

(** A number of attempts that the retry loop can make: at most
    [maxRetries], and at least one when retries are allowed at all. *)
Definition attempts_ok (maxRetries : Z) (k : nat) : Prop :=
  (k <= Z.to_nat maxRetries)%nat /\ (1 <= maxRetries -> (1 <= k)%nat).

Section WithURL.

Variable new_URL : jsstring -> option URL.

Lemma retry_loop_any batch batchNumber originalUrl maxRetries coolOffDelay :
  forall fuel retryCount (s : BatchState),
  fuel = Z.to_nat (maxRetries - retryCount) ->
  exists s' k,
    retry_loop fuel retryCount maxRetries coolOffDelay
               (attempt_batch new_URL batch batchNumber originalUrl) s
    = (Return tt, s')
    /\ (k <= fuel)%nat
    /\ ((1 <= fuel)%nat -> (1 <= k)%nat)
    /\ schedule (journal (fst s'))
       = schedule (journal (fst s))
         ++ SchedulerSpec.linear_backoff batch coolOffDelay (retryCount + 1) k.
Proof.
  induction fuel as [|fuel IH]; intros retryCount s Hfuel.
  - exists s, 0%nat. split; [reflexivity|]. split; [lia|]. split; [lia|].
    cbn. symmetry. apply app_nil_r.
  - pose proof (attempt_batch_schedule new_URL batch batchNumber originalUrl s)
      as Hatt. cbv zeta in Hatt.
    cbn [retry_loop]. unfold bind at 1, try_catch at 1, bind at 1.
    destruct (attempt_batch new_URL batch batchNumber originalUrl s)
      as [[[]|e] s1]; cbn [snd] in Hatt; destruct Hatt as [Hsched _].
    + exists s1, 1%nat. split; [reflexivity|]. split; [lia|]. split; [lia|].
      exact Hsched.
    + destruct (SchedulerSpec.schedule_backed_off (retryCount + 1) maxRetries
                  coolOffDelay s1) as [Hb _].
      destruct (IH (retryCount + 1)
                   (SchedulerSpec.backed_off (retryCount + 1) maxRetries
                      coolOffDelay s1)) as [s' [k [Hrun [Hk [Hk1 Hs']]]]];
        [lia|].
      assert (Hstep :
        (let (o, s'0) :=
           ((if retryCount + 1 <? maxRetries
             then on_world (sleep RetryBackoff (coolOffDelay * (retryCount + 1)))
             else ret tt) ;;; ret false) s1 in
         match o with
         | Return a =>
             (if (a : bool) then ret tt
              else retry_loop fuel (retryCount + 1) maxRetries coolOffDelay
                     (attempt_batch new_URL batch batchNumber originalUrl)) s'0
         | Throw e0 => (Throw e0, s'0)
         end) = (Return tt, s')).
      { unfold SchedulerSpec.backed_off in Hrun. unfold bind.
        destruct (retryCount + 1 <? maxRetries);
          unfold on_world, sleep, modify, ret; cbn [fst snd]; exact Hrun. }
      destruct fuel as [|fuel].
      * exists s', 1%nat. split; [exact Hstep|]. split; [lia|]. split; [lia|].
        assert (k = 0%nat) by lia. subst k.
        rewrite Hs', Hb, Hsched.
        destruct (Z.ltb_spec (retryCount + 1) maxRetries); [lia|].
        cbn. rewrite !app_nil_r. reflexivity.
      * exists s', (S k). split; [exact Hstep|]. split; [lia|]. split; [lia|].
        rewrite Hs', Hb, Hsched.
        destruct (Z.ltb_spec (retryCount + 1) maxRetries); [|lia].
        destruct k as [|k]; [lia|].
        change (SchedulerSpec.linear_backoff batch coolOffDelay
                  (retryCount + 1) (S (S k)))
          with (Post batch
                  :: Sleep RetryBackoff (coolOffDelay * (retryCount + 1))
                  :: SchedulerSpec.linear_backoff batch coolOffDelay
                       (retryCount + 1 + 1) (S k)).
        rewrite <- !app_assoc. reflexivity.
Qed.

Lemma process_batch_any cfg totalBatches batchIndex batch originalUrl
  (s : BatchState) :
  exists s' k,
    process_batch new_URL cfg totalBatches batchIndex batch originalUrl s
    = (Return tt, s')
    /\ attempts_ok (max_retries cfg) k
    /\ schedule (journal (fst s'))
       = schedule (journal (fst s))
         ++ batch_plan cfg totalBatches batchIndex batch k.
Proof.
  destruct (@retry_loop_any batch (batchIndex + 1) originalUrl
              (max_retries cfg) (cool_off_delay cfg)
              (Z.to_nat (max_retries cfg)) 0
              (log (Emit (batch_start (batchIndex + 1) totalBatches batch))
                   (fst s), snd s))
    as [s1 [k [Hrun [Hk [Hk1 Hsched]]]]]; [f_equal; lia|].
  cbn [fst snd] in Hsched.
  exists (if batchIndex <? totalBatches - 1
          then (log (Sleep CoolOff (cool_off_delay cfg)) (fst s1), snd s1)
          else s1), k.
  split; [|split].
  - unfold process_batch. cbv zeta.
    unfold bind at 1, on_world at 1, emit, modify. cbn [fst snd].
    unfold bind at 1. rewrite Hrun.
    destruct (batchIndex <? totalBatches - 1); [|reflexivity].
    unfold on_world, sleep, modify. reflexivity.
  - split; [exact Hk | intros H; apply Hk1; lia].
  - unfold batch_plan.
    destruct (batchIndex <? totalBatches - 1); cbn [fst].
    + unfold log at 1. cbn [journal]. rewrite schedule_app, Hsched.
      unfold log at 1. cbn [journal]. rewrite schedule_app.
      rewrite <- !app_assoc. reflexivity.
    + rewrite Hsched. unfold log at 1. cbn [journal]. rewrite schedule_app.
      rewrite app_nil_r, <- !app_assoc. reflexivity.
Qed.

Lemma batch_loop_any cfg totalBatches originalUrl (batches : list (list jsstring)) :
  forall batchIndex (s : BatchState),
  exists s' ks,
    batch_loop new_URL cfg totalBatches batchIndex batches originalUrl s
    = (Return tt, s')
    /\ List.length ks = List.length batches
    /\ Forall (attempts_ok (max_retries cfg)) ks
    /\ schedule (journal (fst s'))
       = schedule (journal (fst s))
         ++ plan cfg totalBatches batchIndex batches ks.
Proof.
  induction batches as [|batch batches IH]; intros batchIndex s.
  - exists s, []. split; [reflexivity|]. split; [reflexivity|].
    split; [constructor|]. cbn. symmetry. apply app_nil_r.
  - destruct (process_batch_any cfg totalBatches batchIndex batch originalUrl s)
      as [s1 [k [Hrun [Hk Hsched]]]].
    destruct (IH (batchIndex + 1) s1) as [s' [ks [Hrun' [Hlen [Hks Hsched']]]]].
    exists s', (k :: ks). split; [|split; [|split]].
    + cbn [batch_loop]. unfold bind at 1. rewrite Hrun. exact Hrun'.
    + cbn [List.length]. rewrite Hlen. reflexivity.
    + constructor; assumption.
    + rewrite Hsched', Hsched. cbn [plan]. rewrite <- app_assoc. reflexivity.
Qed.

(** [intelligentBatchCrawl] is the loop over the batches followed by the
    summary event and the aggregation of the results. *)
Lemma intelligentBatchCrawl_run urls originalUrl (w : World) :
  let cfg := config w in
  let batches := make_batches (batch_size cfg) urls in
  exists (s' : BatchState) ks e,
    intelligentBatchCrawl new_URL urls originalUrl w
    = lift_outcome (createAggregatedResult (snd s') originalUrl)
                   (log (Emit e) (fst s'))
    /\ List.length ks = List.length batches
    /\ Forall (attempts_ok (max_retries cfg)) ks
    /\ schedule (journal (log (Emit e) (fst s')))
       = schedule (journal w)
         ++ plan cfg (Z.of_nat (List.length batches)) 0 batches ks.
Proof.
  cbv zeta.
  set (cfg := config w).
  set (batches := make_batches (batch_size cfg) urls).
  set (info := batch_info (Z.of_nat (List.length urls))
                 (Z.of_nat (List.length batches)) (batch_size cfg)).
  destruct (@batch_loop_any cfg (Z.of_nat (List.length batches)) originalUrl
              batches 0 (log (Emit info) w, []))
    as [s' [ks [Hrun [Hlen [Hks Hsched]]]]].
  exists s', ks,
    (crawl_complete (Z.of_nat (List.length urls))
                    (Z.of_nat (List.length (snd s')))
                    (Z.of_nat (List.length batches))).
  split; [|split; [exact Hlen|split; [exact Hks|]]].
  - unfold intelligentBatchCrawl. unfold bind at 1, get.
    fold cfg. fold batches. fold info.
    unfold bind at 1, emit at 1, modify at 1.
    unfold with_locals. unfold bind at 1. rewrite Hrun.
    unfold bind at 1, on_locals at 1, get. cbn [fst snd].
    unfold bind at 1, on_world at 1, emit, modify. cbn [fst snd].
    unfold lift_outcome.
    destruct (createAggregatedResult (snd s') originalUrl); reflexivity.
  - unfold log at 1. cbn [journal]. rewrite schedule_app, Hsched.
    cbn [fst]. unfold log at 1. cbn [journal]. rewrite schedule_app.
    cbn. rewrite !app_nil_r. reflexivity.
Qed.


Lemma intelligentBatchCrawl_cases (urls : list jsstring)
  (originalUrl : jsstring) (w : World) :
  match fst (intelligentBatchCrawl new_URL urls originalUrl w) with
  | Return r => cr_url r = originalUrl /\ cr_status r = completed
  | Throw e => e = forEach_not_a_function
  end.
Proof.
  destruct (intelligentBatchCrawl_run urls originalUrl w)
    as [s' [ks [e [Hrun _]]]].
  rewrite Hrun. unfold lift_outcome, createAggregatedResult. cbv zeta.
  pose proof (AggregationProps.gather_links_spec
                (List.filter (fun r => value_truthy (pr_content r)) (snd s'))
                [] (NoDup_nil _)) as H.
  destruct (gather_links _ []) as [all|e0]; cbn [fst].
  - split; reflexivity.
  - apply H.
Qed.


End WithURL.

End SchedulerProps.

(* ================================================================== *)
(** * What a method returns and what it throws *)
(* ================================================================== *)

Module OutcomeFacts.
Local Open Scope monad_scope.

Section Yields.

Variable S : Type.

(** [m] returns only values in [P] and throws only errors in [Q]. *)
Definition yields {A} (P : A -> Prop) (Q : exn -> Prop) (m : M S A) : Prop :=
  forall s, match fst (m s) with Return a => P a | Throw e => Q e end.

Lemma yields_any {A} (m : M S A) : yields (fun _ => True) (fun _ => True) m.
Proof. intros s. destruct (fst (m s)); exact I. Qed.

Lemma yields_ret {A} (P : A -> Prop) Q (a : A) : P a -> yields P Q (ret a).
Proof. intros H s. exact H. Qed.

Lemma yields_throw {A} (P : A -> Prop) (Q : exn -> Prop) (e : exn) :
  Q e -> yields P Q (@throw S A e).
Proof. intros H s. exact H. Qed.


Lemma yields_bind {A B} (P' : A -> Prop) (P : B -> Prop) Q (m : M S A)
  (k : A -> M S B) :
  yields P' Q m -> (forall a, P' a -> yields P Q (k a)) -> yields P Q (bind m k).
Proof.
  intros Hm Hk s. unfold bind. specialize (Hm s).
  destruct (m s) as [[a|e] s1]; cbn [fst] in *; [apply (Hk a Hm) | exact Hm].
Qed.

Lemma yields_try_catch {A} (P : A -> Prop) (Q' Q : exn -> Prop) (m : M S A)
  (h : exn -> M S A) :
  yields P Q' m -> (forall e, Q' e -> yields P Q (h e)) ->
  yields P Q (try_catch m h).
Proof.
  intros Hm Hh s. unfold try_catch. specialize (Hm s).
  destruct (m s) as [[a|e] s1]; cbn [fst] in *; [exact Hm | apply (Hh e Hm)].
Qed.

Lemma yields_fold_each {A B} (P : B -> Prop) Q (l : list A)
  (f : B -> A -> M S B) :
  (forall b x, P b -> yields P Q (f b x)) ->
  forall b, P b -> yields P Q (fold_each l b f).
Proof.
  intros Hf. induction l as [|x l IH]; intros b Hb; cbn [fold_each].
  - apply yields_ret. exact Hb.
  - apply (yields_bind (P' := P)); [apply Hf; exact Hb | intros b' Hb'; apply IH; exact Hb'].
Qed.

End Yields.


End OutcomeFacts.
Import OutcomeFacts.

(* ================================================================== *)
(** * Discovery and the manual crawl *)
(* ================================================================== *)

Module ManualProps.
Local Open Scope monad_scope.

Definition is_batch_delay (a : Action) : bool :=
  match a with Sleep BatchDelay _ => true | _ => false end.

(** What happens inside the crawl of one address after its request. *)
Definition inside (a : Action) : bool :=
  negb (is_post a) && negb (is_batch_delay a).

Section WithURL.

Variable new_URL : jsstring -> option URL.

(** ** One address *)

Lemma pollForResults_for (taskId url : jsstring) (maxAttempts : Z) :
  yields (fun r : CrawlResult => cr_url r = url) (fun _ => True)
         (pollForResults new_URL taskId url maxAttempts).
Proof.
  intros w.
  pose proof (@PollerProps.poll_loop_outcome new_URL (Z.to_nat maxAttempts) 1
                maxAttempts taskId url w) as H.
  unfold pollForResults.
  destruct (fst (poll_loop new_URL (Z.to_nat maxAttempts) 1 maxAttempts
                           taskId url w)); [apply H | exact I].
Qed.

(** The crawl of one address never throws; its result carries the
    address; it makes one request and then only polls, waits for the
    poller and saves. *)
Lemma crawl_one_spec (url : jsstring) (w : World) :
  exists page w' d,
    crawl_one new_URL url w = (Return page, w')
    /\ pr_url page = url
    /\ journal w' = journal w ++ Post [url] :: d
    /\ forallb inside d = true.
Proof.
  unfold crawl_one, try_catch, bind at 1, http_post.
  cbn [log post_replies].
  destruct (post_replies w) as [|[response|e] rest].
  - eexists. eexists. exists []. cbn. repeat split.
  - destruct (truthy (rd_task_id response)
              && negb (is_some (rd_results response))).
    + unfold bind.
      set (w1 := mkWorld _ _ _ _ _ _ _ _).
      pose proof (pollForResults_for (rd_task_id response) url
                    default_maxAttempts w1) as Hurl.
      destruct (@acts_pollForResults inside (fun _ => eq_refl)
                  (fun _ => eq_refl) new_URL (fun _ => eq_refl)
                  (fun _ => eq_refl) (rd_task_id response) url
                  default_maxAttempts w1) as [d [Hj Hd]].
      destruct (pollForResults new_URL (rd_task_id response) url
                               default_maxAttempts w1) as [[r|e] w2];
        cbn [fst snd] in *.
      * exists (as_page r), w2, d. repeat split; [exact Hurl| |exact Hd].
        rewrite Hj. unfold w1, log. cbn [journal]. rewrite <- app_assoc.
        reflexivity.
      * eexists. exists w2, d. split; [reflexivity|]. split; [reflexivity|].
        split; [|exact Hd].
        rewrite Hj. unfold w1, log. cbn [journal]. rewrite <- app_assoc.
        reflexivity.
    + eexists. eexists. exists []. cbn. repeat split.
  - eexists. eexists. exists []. cbn. repeat split.
Qed.

(** The addresses of a batch, one after the other. *)
Lemma crawl_each_spec (batch : list jsstring) : forall acc w,
  exists pages w' d,
    fold_each batch acc
      (fun acc url => r <- crawl_one new_URL url ;; ret (acc ++ [r])) w
    = (Return (acc ++ pages), w')
    /\ List.map pr_url pages = batch
    /\ journal w' = journal w ++ d
    /\ count is_post d = List.length batch
    /\ count is_batch_delay d = 0%nat.
Proof.
  induction batch as [|url batch IH]; intros acc w.
  - exists [], w, []. rewrite !app_nil_r. repeat split.
  - cbn [fold_each]. unfold bind at 1, bind at 1.
    destruct (crawl_one_spec url w) as [page [w1 [d1 [Hrun [Hurl [Hj1 Hd1]]]]]].
    rewrite Hrun. unfold ret at 1.
    destruct (IH (acc ++ [page]) w1) as [pages [w' [d [Hrun' [Hurls [Hj Hd]]]]]].
    exists (page :: pages), w', (Post [url] :: d1 ++ d).
    rewrite Hrun', <- app_assoc. split; [reflexivity|].
    split; [cbn; rewrite Hurl, Hurls; reflexivity|].
    split; [rewrite Hj, Hj1, <- app_assoc; reflexivity|].
    destruct Hd as [Hposts Hdelays].
    change (Post [url] :: d1 ++ d) with ([Post [url]] ++ d1 ++ d).
    rewrite !count_app, Hposts, Hdelays.
    rewrite (@count_none is_post inside d1), (@count_none is_batch_delay inside d1);
      try exact Hd1.
    + split; reflexivity.
    + intros a Ha. unfold inside in Ha. apply andb_true_iff in Ha.
      destruct Ha as [_ Ha]. apply negb_true_iff in Ha. exact Ha.
    + intros a Ha. unfold inside in Ha. apply andb_true_iff in Ha.
      destruct Ha as [Ha _]. apply negb_true_iff in Ha. exact Ha.
Qed.

Lemma crawl_batches_spec (batches : list (list jsstring)) : forall results w,
  exists pages w' d,
    crawl_batches new_URL batches results w = (Return (results ++ pages), w')
    /\ List.map pr_url pages = List.concat batches
    /\ journal w' = journal w ++ d
    /\ count is_post d = List.length (List.concat batches)
    /\ count is_batch_delay d = Nat.pred (List.length batches).
Proof.
  induction batches as [|batch batches IH]; intros results w.
  - exists [], w, []. rewrite !app_nil_r. repeat split.
  - cbn [crawl_batches]. unfold bind at 1.
    destruct (crawl_each_spec batch [] w)
      as [pages1 [w1 [d1 [Hrun1 [Hurls1 [Hj1 [Hp1 Hb1]]]]]]].
    rewrite Hrun1. cbn [app]. unfold bind at 1.
    set (w2 := match batches with
               | [] => w1
               | _ :: _ => log (Sleep BatchDelay 2000) w1
               end).
    assert (Hwait :
      match batches with
      | [] => ret tt
      | _ :: _ => sleep BatchDelay 2000
      end w1 = (Return tt, w2)) by (unfold w2; destruct batches; reflexivity).
    rewrite Hwait.
    destruct (IH (results ++ pages1) w2)
      as [pages [w' [d [Hrun [Hurls [Hj [Hp Hb]]]]]]].
    exists (pages1 ++ pages), w',
      (d1 ++ match batches with
             | [] => []
             | _ :: _ => [Sleep BatchDelay 2000]
             end ++ d).
    rewrite Hrun, <- app_assoc. split; [reflexivity|].
    split; [cbn [List.concat]; rewrite map_app, Hurls1, Hurls; reflexivity|].
    split.
    { rewrite Hj. unfold w2. destruct batches; cbn [log journal app];
        rewrite Hj1, <- ?app_assoc; reflexivity. }
    cbn [List.concat]. rewrite !count_app, Hp1, Hb1, Hp, Hb, length_app.
    destruct batches; cbn; split; lia.
Qed.

(** X24. [crawlManyWithBatching] never throws and returns one result per
    address, in the order of the addresses and each carrying its
    address, whatever the backend answers.  It sends one request per
    address, and it waits between two batches of five but not after the
    last. *)
Theorem crawlManyWithBatching_results (urls : list jsstring) (w : World) :
  exists pages w' d,
    crawlManyWithBatching new_URL urls w = (Return pages, w')
    /\ List.map pr_url pages = urls
    /\ journal w' = journal w ++ d
    /\ count is_post d = List.length urls
    /\ count is_batch_delay d
       = Nat.pred (List.length (make_batches 5 urls)).
Proof.
  unfold crawlManyWithBatching.
  destruct (crawl_batches_spec (make_batches 5 urls) [] w)
    as [pages [w' [d [Hrun [Hurls [Hj [Hp Hb]]]]]]].
  destruct (@SchedulerProps.batches_of_spec 5 (List.length urls) urls)
    as [Hcat _]; [lia | lia |].
  change (batches_of (List.length urls) 5 urls) with (make_batches 5 urls)
    in Hcat.
  rewrite Hcat in Hurls, Hp.
  exists pages, w', d. repeat split; assumption.
Qed.

(** X25. A page that the backend answers asynchronously (a task and no
    results) comes back from the crawl of its address without the
    success flag, whatever the poller returns; so saving it does
    nothing. *)
Theorem crawl_one_async_unsaved (url : jsstring) (w : World)
  (response : ResponseData) (rest : list HttpReply) :
  post_replies w = HttpData response :: rest ->
  truthy (rd_task_id response) = true ->
  rd_results response = None ->
  exists page w',
    crawl_one new_URL url w = (Return page, w')
    /\ pr_success page = false
    /\ forall w2, saveIndividualPage new_URL page w2 = (Return tt, w2).
Proof.
  intros Hpost Htask Hres.
  unfold crawl_one, try_catch, bind at 1, http_post.
  cbn [log post_replies]. rewrite Hpost, Htask, Hres. cbn [is_some negb andb].
  unfold bind.
  destruct (pollForResults new_URL (rd_task_id response) url
                           default_maxAttempts _) as [[r|e] w2];
    eexists; eexists; (split; [reflexivity|]); (split; [reflexivity|]);
    intros w3; reflexivity.
Qed.

(** ** Discovery *)

(** X26. [discoverUrls] never throws.  It makes one request; the list it
    returns starts with the start address, holds no string twice, and
    every other entry is an internal link of the first result of the
    reply. *)
Theorem discoverUrls_result (startUrl : jsstring) (w : World) :
  exists links w' e,
    discoverUrls startUrl w = (Return links, w')
    /\ hd_error links = Some (LinkStr startUrl)
    /\ NoDup (AggregationProps.strings links)
    /\ journal w'
       = journal w
         ++ [Emit (status_update (js "discovering")); Post [startUrl]; Emit e]
    /\ forall l, In l links ->
         l = LinkStr startUrl
         \/ exists response,
              hd_error (post_replies w) = Some (HttpData response)
              /\ In l (internal_links (first_or_data response)).
Proof.
  unfold discoverUrls, bind at 1, emit at 1, modify at 1.
  unfold try_catch, bind at 1, http_post. cbn [log post_replies journal].
  destruct (post_replies w) as [|[response|err] rest].
  - eexists. eexists. eexists. split; [reflexivity|].
    split; [reflexivity|]. split; [repeat constructor; intros []|].
    split; [unfold log; cbn [journal]; rewrite <- !app_assoc; reflexivity|].
    intros l [H|[]]. left. symmetry. exact H.
  - set (links := set_add_all (LinkStr startUrl
                                 :: internal_links (first_or_data response)) []).
    destruct (AggregationProps.set_add_all_spec
                (internal_links (first_or_data response))
                [LinkStr startUrl]) as [Hnd [Hmem [added Hpre]]].
    { repeat constructor. intros []. }
    assert (Hlinks : links = set_add_all
                               (internal_links (first_or_data response))
                               [LinkStr startUrl]) by reflexivity.
    eexists. eexists. eexists. split; [reflexivity|]. fold links.
    split; [rewrite Hlinks, Hpre; reflexivity|].
    split; [rewrite Hlinks; exact Hnd|].
    split; [unfold log; cbn [journal]; rewrite <- !app_assoc; reflexivity|].
    intros l Hl. rewrite Hlinks in Hl. apply Hmem in Hl.
    destruct Hl as [[Hl|[]]|Hl]; [left; symmetry; exact Hl|].
    right. exists response. split; [reflexivity | exact Hl].
  - eexists. eexists. eexists. split; [reflexivity|].
    split; [reflexivity|]. split; [repeat constructor; intros []|].
    split; [unfold log; cbn [journal]; rewrite <- !app_assoc; reflexivity|].
    intros l [H|[]]. left. symmetry. exact H.
Qed.

End WithURL.

(** The backend takes the page as a task, and the task completes. *)
Definition task_accepted : ResponseData :=
  mkResponseData
    (mkPageResult [] true [] MdAbsent [] [] [] (VStr []) LinksAbsent
                  no_metadata [])
    (js "t1") None [] [] [].

Definition async_world : World :=
  mkWorld default_config [HttpData task_accepted]
          [HttpData PollerProps.completed_reply] [] [] [] [] [].

Lemma crawl_one_async_unsaved_witness :
  exists page w',
    crawl_one simple_parse (site "/") async_world = (Return page, w')
    /\ pr_success page = false
    /\ forall w2, saveIndividualPage simple_parse page w2 = (Return tt, w2).
Proof.
  apply (@crawl_one_async_unsaved simple_parse (site "/") async_world
           task_accepted []); reflexivity.
Defined.

End ManualProps.

(* ================================================================== *)
(** * The strategy chain in any world *)
(* ================================================================== *)

Module StrategyProps.
Local Open Scope monad_scope.

(** An error of the native strategy: always the wrapped one. *)
Definition from_native (e : exn) : Prop := exists cause, e = native_failed cause.

Section WithURL.

Variable new_URL : jsstring -> option URL.


Lemma processResponse_for (response : ResponseData) (url : jsstring) :
  yields (fun r : CrawlResult => cr_url r = url) (fun _ => True)
         (processResponse new_URL response url).
Proof.
  intros w.
  destruct (PollerProps.processResponse_returns new_URL response url w)
    as [r [Hr [Hurl _]]].
  rewrite Hr. exact Hurl.
Qed.

Lemma intelligentBatchCrawl_for (urls : list jsstring) (url : jsstring) :
  yields (fun r : CrawlResult => cr_url r = url) (fun _ => True)
         (intelligentBatchCrawl new_URL urls url).
Proof.
  intros w.
  pose proof (SchedulerProps.intelligentBatchCrawl_cases new_URL urls url w)
    as H.
  destruct (fst (intelligentBatchCrawl new_URL urls url w));
    [apply H | exact I].
Qed.


(** The native strategy throws wrapped errors only, and its result is
    for [url]. *)
Lemma smartSiteCrawlNative_for (url : jsstring) :
  yields (fun r : CrawlResult => cr_url r = url) from_native
         (smartSiteCrawlNative new_URL url).
Proof.
  unfold smartSiteCrawlNative.
  apply (yields_try_catch (Q' := fun _ => True)).
  - apply (yields_bind (P' := fun _ => True)); [apply yields_any|].
    intros initialResponse _.
    destruct (pr_success (rd_page initialResponse));
      [|apply yields_throw; exact I].
    destruct (first_result initialResponse) as [initialResult|];
      [|apply yields_throw; exact I].
    destruct (internal_links initialResult); [apply processResponse_for|].
    apply (yields_bind (P' := fun _ => True)); [apply yields_any|].
    intros prioritizedUrls _.
    destruct (1 <? _)%nat;
      [apply intelligentBatchCrawl_for | apply processResponse_for].
  - intros e _. apply yields_throw. exists e. reflexivity.
Qed.


(** [smartSiteCrawlNative] throws wrapped errors only (the message
    starts with the words of the native strategy), and what it returns is
    a result for the address it was given. *)
Theorem smartSiteCrawlNative_outcome (url : jsstring) (w : World) :
  match fst (smartSiteCrawlNative new_URL url w) with
  | Return r => cr_url r = url
  | Throw e =>
      exists cause,
        e = Error (js "Native deep crawl failed: "
                   ++ message_of (js "Unknown error") cause)
  end.
Proof. apply smartSiteCrawlNative_for. Qed.


(** A crawl whose signal is aborted when it starts is cancelled
    before anything is done: no request, no event, nothing saved. *)
Theorem smartSiteCrawl_cancelled (url : jsstring) (w : World)
  (rest : list bool) :
  abort_reads w = true :: true :: rest ->
  let run := smartSiteCrawl new_URL url w in
  fst run = Throw cancelled
  /\ journal (snd run) = journal w
  /\ table (snd run) = table w.
Proof.
  intros Ha. cbv zeta.
  unfold smartSiteCrawl, try_catch, bind, read_aborted. rewrite Ha.
  cbn. repeat split.
Qed.

End WithURL.

Definition aborted_world : World :=
  mkWorld default_config [] [] [] [] [true; true] [] [].

Lemma smartSiteCrawl_cancelled_witness :
  let run := smartSiteCrawl simple_parse (site "/") aborted_world in
  fst run = Throw cancelled
  /\ journal (snd run) = journal aborted_world
  /\ table (snd run) = table aborted_world.
Proof.
  apply (@smartSiteCrawl_cancelled simple_parse (site "/") aborted_world []).
  reflexivity.
Defined.

End StrategyProps.

(* ================================================================== *)
(** * The entry point in any world *)
(* ================================================================== *)

Module ServiceProps.
Local Open Scope monad_scope.

Section WithURL.

Variable new_URL : jsstring -> option URL.

(** What follows the request of a single page crawl. *)
Definition quiet_action (a : Action) : bool :=
  negb (is_post a) && negb (is_get a).

Lemma bind_run {S A B} (m : M S A) (k : A -> M S B) (s s1 : S) (a : A) :
  m s = (Return a, s1) -> bind m k s = k a s1.
Proof. intros H. unfold bind. rewrite H. reflexivity. Qed.

Lemma bind_throw {S A B} (m : M S A) (k : A -> M S B) (s s1 : S) (e : exn) :
  m s = (Throw e, s1) -> bind m k s = (Throw e, s1).
Proof. intros H. unfold bind. rewrite H. reflexivity. Qed.

(** The world after a request that was answered or refused. *)
Definition posted (urls : list jsstring) (rest : list HttpReply) (w : World)
  : World :=
  mkWorld (config w) rest (get_replies w) (embed_replies w) (db_replies w)
          (abort_reads w) (table w) (journal w ++ [Post urls]).

Lemma http_post_run (urls : list jsstring) (w : World) :
  http_post urls w
  = match post_replies w with
    | [] => (Throw network_error, log (Post urls) w)
    | HttpData d :: rest => (Return d, posted urls rest w)
    | HttpFails e :: rest => (Throw e, posted urls rest w)
    end.
Proof.
  unfold http_post. cbn [log post_replies].
  destruct (post_replies w) as [|[d|e] rest]; reflexivity.
Qed.

Lemma singlePageCrawl_spec (url : jsstring) (w : World) :
  exists d w',
    journal w'
    = journal w ++ Emit (status_update (js "crawling")) :: Post [url] :: d
    /\ forallb quiet_action d = true
    /\ ((exists response r,
           hd_error (post_replies w) = Some (HttpData response)
           /\ Service.singlePageCrawl new_URL url w = (Return r, w')
           /\ cr_url r = url)
        \/ (exists e,
              (forall response,
                 hd_error (post_replies w) <> Some (HttpData response))
              /\ Service.singlePageCrawl new_URL url w = (Throw e, w')
              /\ d = [])).
Proof.
  unfold Service.singlePageCrawl.
  set (w0 := log (Emit (status_update (js "crawling"))) w).
  rewrite (@bind_run _ _ _ (emit (status_update (js "crawling"))) _ w w0 tt
             eq_refl).
  assert (Hw0 : journal w0 ++ [Post [url]]
                = journal w ++ [Emit (status_update (js "crawling"));
                                Post [url]]).
  { unfold w0, log. cbn [journal]. rewrite <- app_assoc. reflexivity. }
  pose proof (http_post_run [url] w0) as Hpost.
  change (post_replies w0) with (post_replies w) in Hpost.
  destruct (post_replies w) as [|[response|e] rest].
  - rewrite (@bind_throw _ _ _ _ _ _ _ _ Hpost). exists []. eexists.
    split; [|split; [reflexivity|
      right; exists network_error; split; [discriminate|];
      split; reflexivity]].
    exact Hw0.
  - rewrite (@bind_run _ _ _ _ _ _ _ _ Hpost).
    set (w1 := log (Emit (url_crawled url)) (posted [url] rest w0)).
    rewrite (@bind_run _ _ _ (emit (url_crawled url)) _ _ w1 tt eq_refl).
    destruct (PollerProps.processResponse_returns new_URL response url w1)
      as [r [Hr [Hurl _]]].
    destruct (@acts_processResponse quiet_action (fun _ => eq_refl)
                (fun _ => eq_refl) new_URL response url w1) as [d [Hj Hd]].
    destruct (processResponse new_URL response url w1) as [[r'|e'] w2] eqn:Hp;
      cbn [fst snd] in *; [|discriminate].
    inversion Hr; subst r'.
    rewrite (@bind_run _ _ _ _ _ _ _ _ Hp).
    exists ([Emit (url_crawled url)] ++ d
            ++ [Emit (crawl_complete 1
                        (if Service.is_completed_status (cr_status r)
                         then 1 else 0) 1)]).
    eexists.
    split; [|split; [|
      left; exists response, r; split; [reflexivity|];
      split; [reflexivity | exact Hurl]]].
    + unfold log. cbn [journal]. rewrite Hj. unfold w1, log, posted.
      cbn [journal]. rewrite Hw0, <- !app_assoc. reflexivity.
    + rewrite !forallb_app, Hd. reflexivity.
  - rewrite (@bind_throw _ _ _ _ _ _ _ _ Hpost). exists []. eexists.
    split; [|split; [reflexivity|
      right; exists e; split; [discriminate|]; split; reflexivity]].
    exact Hw0.
Qed.

(** X28. A single page crawl makes one request and never polls, also
    when the backend answers with a task; it throws exactly when the
    request fails, and what it returns is a result for the address. *)
Theorem singlePageCrawl_one_request (url : jsstring) (w : World) :
  let run := Service.singlePageCrawl new_URL url w in
  exists d,
    journal (snd run)
    = journal w ++ Emit (status_update (js "crawling")) :: Post [url] :: d
    /\ count is_post d = 0%nat
    /\ count is_get d = 0%nat
    /\ match fst run with
       | Return r =>
           cr_url r = url
           /\ exists response,
                hd_error (post_replies w) = Some (HttpData response)
       | Throw _ =>
           d = []
           /\ forall response,
                hd_error (post_replies w) <> Some (HttpData response)
       end.
Proof.
  cbv zeta.
  destruct (singlePageCrawl_spec url w) as [d [w' [Hj [Hd Hcases]]]].
  assert (Hcount : count is_post d = 0%nat /\ count is_get d = 0%nat).
  { split; apply (@count_none _ quiet_action d); try exact Hd;
      intros a Ha; unfold quiet_action in Ha; apply andb_true_iff in Ha;
      destruct Ha as [H1 H2]; apply negb_true_iff; assumption. }
  destruct Hcount as [Hp Hg]. exists d.
  destruct Hcases as [[response [r [Hhd [Hrun Hurl]]]]|[e [Hhd [Hrun Hnil]]]];
    rewrite Hrun; cbn [fst snd].
  - split; [exact Hj|]. split; [exact Hp|]. split; [exact Hg|].
    split; [exact Hurl | exists response; exact Hhd].
  - split; [exact Hj|]. split; [exact Hp|]. split; [exact Hg|].
    split; [exact Hnil | exact Hhd].
Qed.





(** X30. A crawl whose signal is aborted when it starts does nothing but
    announce itself: it asks neither the health endpoint nor the
    backend, and returns the failed result of the cancelled crawl. *)
Theorem crawlUrl_cancelled (config : Service.SimplifiedCrawlConfig)
  (w : World) (f : Service.Entry) (rest : list bool) :
  abort_reads w = true :: rest ->
  let run := Service.crawlUrl new_URL config (w, f) in
  fst run
  = Return (failed_result (Service.url config)
              (js "Crawl service failed: Crawl was cancelled. Please check service availability."))
  /\ journal (fst (snd run))
     = journal w ++ [Emit (status_update (js "discovering"))]
  /\ table (fst (snd run)) = table w
  /\ Service.health_replies (snd (snd run)) = Service.health_replies f
  /\ Service.entry_journal (snd (snd run))
     = Service.entry_journal f
       ++ [Service.EntryEmit
             (Service.crawl_start (Service.crawlType config)
                                  (Service.url config));
           Service.EntryEmit
             (Service.crawl_error (js "Crawl was cancelled"))].
Proof.
  intros Ha. cbv zeta.
  unfold Service.crawlUrl, try_catch, bind, on_locals, on_world, read_aborted,
    emit, Service.entry_emit, modify.
  cbn [fst snd log abort_reads]. rewrite Ha.
  cbn [fst snd throw ret]. unfold Service.entry_log, log.
  cbn [Service.entry_journal Service.health_replies journal table].
  rewrite <- app_assoc. repeat split.
Qed.

End WithURL.

Definition aborted_entry : World * Service.Entry :=
  (StrategyProps.aborted_world, Service.mkEntry [Service.HealthOk] []).

Lemma crawlUrl_cancelled_witness :
  let config := Service.mkSimplifiedCrawlConfig (site "/") (js "single") in
  let run := Service.crawlUrl simple_parse config aborted_entry in
  fst run
  = Return (failed_result (site "/")
              (js "Crawl service failed: Crawl was cancelled. Please check service availability."))
  /\ journal (fst (snd run)) = [Emit (status_update (js "discovering"))]
  /\ table (fst (snd run)) = []
  /\ Service.health_replies (snd (snd run)) = [Service.HealthOk]
  /\ Service.entry_journal (snd (snd run))
     = [Service.EntryEmit (Service.crawl_start (js "single") (site "/"));
        Service.EntryEmit (Service.crawl_error (js "Crawl was cancelled"))].
Proof.
  apply (@crawlUrl_cancelled simple_parse
           (Service.mkSimplifiedCrawlConfig (site "/") (js "single"))
           StrategyProps.aborted_world
           (Service.mkEntry [Service.HealthOk] []) [true]).
  reflexivity.
Defined.

End ServiceProps.
